(** * Asteroid Impact Simulator: the computations of [src/app.py]

    The script is a Streamlit page.  Its widgets return Python [int]s (every
    slider is created with integer bounds), and every derived quantity is a
    Python [float], that is an IEEE 754 binary64 number.  Integers are
    embedded as [Z]; floats as Rocq's primitive [float], which is binary64
    with round-to-nearest-even, so that [*], [/] and [<] below are the very
    operations CPython performs.  The only library calls that IEEE 754 does
    not fix are [math.cos] and [math.sin], which CPython hands to the C
    library: the orbit sampler (section Orbit) takes that library as a
    parameter. *)

From Stdlib Require Import ZArith Lia List Bool Floats Reals Lra Psatz
  ClassicalEpsilon.
Import ListNotations.

Local Open Scope Z_scope.

(** Decimal float literals denote the nearest binary64, as they do in
    Python. *)
Set Warnings "-inexact-float".

(** ** Python numbers *)

Module PyNum.

(** [float(z)]: conversion of an [int] to the nearest binary64 (ties to
    even).  CPython raises [OverflowError] above the binary64 range, where
    this definition gives an infinity; every integer of the script is below
    [2^31]. *)
Definition float_of_int (z : Z) : float :=
  SF2Prim (binary_normalize prec emax z 0 false).

(** [a / b] on two [int]s (true division).  CPython rounds the exact
    quotient once; operands below [2^53] convert exactly, so dividing their
    conversions is the same single rounding. *)
Definition int_truediv (a b : Z) : float :=
  (float_of_int a / float_of_int b)%float.

(** [math.pi] *)
Definition math_pi : float := 0x1.921fb54442d18p+1%float.

(** [x ** n] for a float [x] and a positive [int] exponent: the libm [pow],
    taken as the correctly rounded power (one rounding of the exact
    [x^n]). *)
Definition SFpow (x : spec_float) (n : positive) : spec_float :=
  match x with
  | S754_finite s m e =>
      binary_normalize prec emax
        (if s && Z.odd (Zpos n) then Zneg (Pos.pow m n) else Zpos (Pos.pow m n))
        (e * Zpos n) false
  | S754_zero s => S754_zero (s && Z.odd (Zpos n))
  | S754_infinity s => S754_infinity (s && Z.odd (Zpos n))
  | S754_nan => S754_nan
  end.

Definition float_pow (x : float) (n : positive) : float :=
  SF2Prim (SFpow (Prim2SF x) n).

(** A value that is either an [int] or a [float], for expressions such as
    [min(e / 100, 100)] whose two arguments have different types. *)
Variant pynum : Type :=
  | PyInt (z : Z)
  | PyFloat (f : float).

(** The number a [pynum] denotes, as a binary64. *)
Definition pynum_float (v : pynum) : float :=
  match v with
  | PyInt z => float_of_int z
  | PyFloat f => f
  end.

(** [min(a, b)] with [a] a float and [b] an int: the builtin keeps its first
    argument unless a later one compares strictly smaller. *)
Definition py_min (a : float) (b : Z) : pynum :=
  if (float_of_int b <? a)%float then PyInt b else PyFloat a.

End PyNum.
Import PyNum.

(** ** Tab 1: asteroid parameters and the energy calculation *)

(** The three sliders: [st.slider(label, lo, hi, default)]. *)
Record slider := { s_min : Z; s_max : Z; s_default : Z }.

Definition diameter_slider := {| s_min := 10; s_max := 2000; s_default := 300 |}.
Definition velocity_slider := {| s_min := 5; s_max := 40; s_default := 20 |}.
Definition density_slider := {| s_min := 500; s_max := 8000; s_default := 3000 |}.

Definition in_slider (s : slider) (z : Z) : Prop := s_min s <= z <= s_max s.

Definition valid_parameters (diameter velocity density : Z) : Prop :=
  in_slider diameter_slider diameter /\
  in_slider velocity_slider velocity /\
  in_slider density_slider density.

Definition radius (diameter : Z) : float := int_truediv diameter 2.

Definition volume (diameter : Z) : float :=
  (int_truediv 4 3 * math_pi * float_pow (radius diameter) 3)%float.

Definition mass (diameter density : Z) : float :=
  (volume diameter * float_of_int density)%float.

Definition vel_ms (velocity : Z) : Z := velocity * 1000.

Definition energy_joules (diameter velocity density : Z) : float :=
  (0.5 * mass diameter density * float_of_int (vel_ms velocity ^ 2))%float.

Definition energy_megatons (diameter velocity density : Z) : float :=
  (energy_joules diameter velocity density / 4.184e15)%float.

Record ImpactEstimate := {
  mass_kg : float;
  energy_j : float;
  energy_mt : float
}.

Definition computeImpact (diameter velocity density : Z) : ImpactEstimate :=
  {| mass_kg := mass diameter density;
     energy_j := energy_joules diameter velocity density;
     energy_mt := energy_megatons diameter velocity density |}.

(** The formulas of section 4.1 of the specification, written with its own
    variable names over the numeric type of the implementation. *)
Module Spec41.

Definition mass_kg (diameter_m density_kgm3 : float) : float :=
  (4 / 3 * math_pi * float_pow (diameter_m / 2) 3 * density_kgm3)%float.

Definition energy_joules (mass_kg velocity_kms : float) : float :=
  (0.5 * mass_kg * float_pow (velocity_kms * 1000) 2)%float.

Definition energy_megatons (energy_joules : float) : float :=
  (energy_joules / 4.184e15)%float.

End Spec41.

(** ** Tab 2: severity banner and effect magnitudes *)

(** The branch taken by the [if]/[elif]/[else]: [st.success("Regional damage
    expected")], [st.warning("Severe continental effects likely")] or
    [st.error("Global catastrophe likely")]. *)
Variant SeverityTier : Type := Regional | Continental | Global.

Definition classifySeverity (energy_megatons : float) : SeverityTier :=
  if (energy_megatons <? 100)%float then Regional
  else if (energy_megatons <? 10000)%float then Continental
  else Global.

Definition values (energy_megatons : float) : list pynum :=
  [ py_min (energy_megatons / 100)%float 100;
    py_min (energy_megatons / 1000)%float 100;
    py_min (energy_megatons / 10000)%float 100 ].

(** ** Tab 4: mitigation *)

(** [delta_v] and [lead_time] come from integer sliders. *)
Definition evaluateMitigation (delta_v lead_time : Z) : bool :=
  (0 <? delta_v) && (0 <? lead_time).

(** The two sliders of the fourth tab. *)
Definition delta_v_slider := {| s_min := 0; s_max := 50; s_default := 0 |}.
Definition lead_time_slider := {| s_min := 0; s_max := 10; s_default := 2 |}.

(** ** Tab 3: orbit sampling *)

Module Orbit.

(** The C library behind [math.cos] and [math.sin]: two functions on
    binary64 numbers.  Neither IEEE 754 nor the script fixes their results
    to the last bit, so the sampler is defined for any such library. *)
Record libm := { cos64 : float -> float; sin64 : float -> float }.

(** [math.radians(x)]: CPython returns [x * degToRad], where the constant
    [degToRad] is the binary64 quotient [pi / 180.0]. *)
Definition degToRad : float := (math_pi / 180)%float.

Definition radians (x : float) : float := (x * degToRad)%float.

(** [theta = [i for i in range(0, 360)]] *)
Definition theta : list Z := map Z.of_nat (seq 0 360).

Section Sampler.
Variable L : libm.

(** [math.cos(math.radians(t))] for an [int] t, which [math.radians]
    converts to a float first. *)
Definition cos_deg (t : Z) : float := cos64 L (radians (float_of_int t)).
Definition sin_deg (t : Z) : float := sin64 L (radians (float_of_int t)).

Definition earth_orbit_x : list float := map (fun t => cos_deg t) theta.
Definition earth_orbit_y : list float := map (fun t => sin_deg t) theta.
Definition asteroid_orbit_x : list float := map (fun t => (1.5 * cos_deg t)%float) theta.
Definition asteroid_orbit_y : list float := map (fun t => (0.7 * sin_deg t)%float) theta.

(** [z=[0]*360], shared by both traces *)
Definition orbit_z : list Z := repeat 0%Z 360.

(** A trace of [go.Scatter3d] as the sequence of its points. *)
Definition points (xs ys : list float) (zs : list Z) : list (float * float * Z) :=
  combine (combine xs ys) zs.

Record OrbitSamples := {
  earth_points : list (float * float * Z);
  asteroid_points : list (float * float * Z)
}.

Definition sampleOrbits : OrbitSamples :=
  {| earth_points := points earth_orbit_x earth_orbit_y orbit_z;
     asteroid_points := points asteroid_orbit_x asteroid_orbit_y orbit_z |}.

End Sampler.

End Orbit.

(** The three traces added to [orbit_fig], in the order of the
    [add_trace] calls; the last one is the single marker [x=[0], y=[0],
    z=[0]] named "Earth", whose coordinates are [int]s. *)
Module Figure.
Import Orbit.

Definition trace : Type := list (pynum * pynum * pynum).

Definition curve (ps : list (float * float * Z)) : trace :=
  map (fun p => (PyFloat (fst (fst p)), PyFloat (snd (fst p)), PyInt (snd p))) ps.

Definition earth_marker : trace := [(PyInt 0, PyInt 0, PyInt 0)].

Definition orbit_fig (L : libm) : list trace :=
  [ curve (earth_points (sampleOrbits L));
    curve (asteroid_points (sampleOrbits L));
    earth_marker ].

End Figure.

(** ** Auxiliary definitions used by the proofs *)

(** Bounded universal quantification over [lo, lo + n), as a computation. *)
Fixpoint forall_range (n : nat) (lo : Z) (p : Z -> bool) : bool :=
  match n with
  | O => true
  | S k => p lo && forall_range k (lo + 1) p
  end.

(** [lo <= x < hi] on floats, with the comparisons of the hardware. *)
Definition within (lo hi x : float) : bool :=
  ((lo <=? x) && (x <? hi))%float.

(** Squaring the speed in [int] arithmetic and converting, against
    converting first and squaring in binary64. *)
Definition square_commutes (velocity : Z) : bool :=
  PrimFloat.Leibniz.eqb
    (float_of_int (vel_ms velocity ^ 2))
    (float_pow (float_of_int velocity * 1000)%float 2).

(** *** The order of binary64 numbers

    Every number that is not a NaN is given a key, a triple of integers,
    such that the comparison of two numbers is the lexicographic comparison
    of their keys. *)
Definition SFkey (x : spec_float) : option (Z * Z * Z) :=
  match x with
  | S754_nan => None
  | S754_infinity true => Some (-2, 0, 0)
  | S754_finite true m e => Some (-1, - e, Zneg m)
  | S754_zero _ => Some (0, 0, 0)
  | S754_finite false m e => Some (1, e, Zpos m)
  | S754_infinity false => Some (2, 0, 0)
  end.

Definition key_cmp (k k' : Z * Z * Z) : comparison :=
  let '(a, b, c) := k in
  let '(a', b', c') := k' in
  match a ?= a' with
  | Eq => match b ?= b' with Eq => c ?= c' | r => r end
  | r => r
  end.

Definition key_lt (k k' : Z * Z * Z) : Prop :=
  let '(a, b, c) := k in
  let '(a', b', c') := k' in
  a < a' \/ (a = a' /\ (b < b' \/ (b = b' /\ c < c'))).

Definition fkey (x : float) : option (Z * Z * Z) := SFkey (Prim2SF x).

(** *** Tiers and magnitudes *)

Definition tier_rank (t : SeverityTier) : Z :=
  match t with Regional => 0 | Continental => 1 | Global => 2 end.

(** The mathematical minimum of two binary64 numbers. *)
Definition fmin (x y : float) : float :=
  if (x <=? y)%float then x else y.

(** The sign of a number that is not a NaN. *)
Definition SFsign_is (s : bool) (x : spec_float) : Prop :=
  match x with
  | S754_nan => False
  | S754_zero s' | S754_infinity s' | S754_finite s' _ _ => s' = s
  end.

(** *** Rounding, read on integers

    A shift record [(m, r, s)] locates a non-negative rational inside
    [m, m+1): [r] tells whether it has reached the midpoint and [s] whether
    it lies strictly inside a half.  Its code is [4m + 2r + s]. *)
Definition shr_code (mrs : shr_record) : Z :=
  4 * shr_m mrs + 2 * Z.b2z (shr_r mrs) + Z.b2z (shr_s mrs).

(** Code of the rational [N / (2 D)]: twice the floor of [N / D], plus one
    when the division is inexact. *)
Definition sticky (N D : Z) : Z :=
  2 * (N / D) + (if N mod D =? 0 then 0 else 1).

(** *** Real values of binary64 numbers *)

Definition pow2 (e : Z) : R := powerRZ 2 e.

(** [x] is a positive normal binary64 of real value [v]. *)
Definition fnormal (x : float) (v : R) : Prop :=
  exists (m : positive) (e : Z),
    Prim2SF x = S754_finite false m e /\
    2 ^ 52 <= Zpos m < 2 ^ 53 /\ -1074 <= e <= 971 /\
    v = (IZR (Zpos m) * pow2 e)%R.

(** [x] is a positive normal binary64 within relative distance [eps] of the
    positive real [X]. *)
Definition approx (eps : R) (x : float) (X : R) : Prop :=
  (0 < X)%R /\ exists v : R, fnormal x v /\ (Rabs (v - X) <= eps * X)%R.

(** Unit roundoff of binary64. *)
Definition u53 : R := (/ 2 ^ 53)%R.

(** *** The energy calculation over the reals

    The quantities of the script computed without rounding, from the real
    values of the binary64 constants [(4/3) * math.pi] and [4.184e15]. *)
Module Ideal.
Local Open Scope R_scope.

(** Real value of the binary64 product [4/3 * math.pi]. *)
Definition four_thirds_pi : R := 4716158501352293 / 2 ^ 50.

Definition radius (diameter : Z) : R := IZR diameter / 2.

Definition volume (diameter : Z) : R := four_thirds_pi * radius diameter ^ 3.

Definition mass (diameter density : Z) : R := volume diameter * IZR density.

Definition energy_joules (diameter velocity density : Z) : R :=
  / 2 * mass diameter density * IZR (vel_ms velocity ^ 2).

Definition energy_megatons (diameter velocity density : Z) : R :=
  energy_joules diameter velocity density / 4184000000000000.

End Ideal.

(** *** The formulas of the script over the reals

    The energy calculation as the script writes it, read with the real
    number pi and without any rounding. *)
Module Exact.
Local Open Scope R_scope.

Definition radius (diameter : Z) : R := IZR diameter / 2.

Definition volume (diameter : Z) : R := 4 / 3 * PI * radius diameter ^ 3.

Definition mass (diameter density : Z) : R := volume diameter * IZR density.

Definition energy_joules (diameter velocity density : Z) : R :=
  0.5 * mass diameter density * IZR (vel_ms velocity) ^ 2.

Definition energy_megatons (diameter velocity density : Z) : R :=
  energy_joules diameter velocity density / 4.184e15.

End Exact.

(** *** Rounding as a function of the mantissa *)

(** Mantissa kept by the first pass of [binary_round_aux]: [m0] cut to 53
    digits and rounded to nearest even.  It does not depend on the
    exponent. *)
Definition round_mantissa (m0 : Z) (l0 : location) : Z :=
  let mrs := fst (shr (shr_record_of_loc m0 l0) 0 (Zdigits2 m0 - 53)) in
  round_nearest_even (shr_m mrs) (loc_of_shr_record mrs).

(** Second pass: a rounded mantissa that has reached 2^53 is halved. *)
Definition renormalised (s : bool) (m1 T : Z) : spec_float :=
  if m1 =? 2 ^ 53 then S754_finite s (Z.to_pos (2 ^ 52)) (T + 1)
  else S754_finite s (Z.to_pos m1) T.

(** [y] is [x] times [2^k]: same mantissa, exponent moved by [k]. *)
Definition scaledb (k : Z) (x y : float) : bool :=
  match Prim2SF x, Prim2SF y with
  | S754_finite false m e, S754_finite false m' e' =>
      (Zpos m =? Zpos m') && (e' =? e + k)
  | _, _ => false
  end.

Definition scaled (k : Z) (x y : float) : Prop :=
  exists (m : positive) (e : Z),
    Prim2SF x = S754_finite false m e /\ Prim2SF y = S754_finite false m (e + k).

(** A positive normal number whose exponent is far from both ends of the
    binary64 range. *)
Definition moderate (x : float) : Prop :=
  exists (m : positive) (e : Z),
    Prim2SF x = S754_finite false m e /\
    2 ^ 52 <= Zpos m < 2 ^ 53 /\ -300 <= e <= 300.

(** ** Auxiliary definitions for the orbit sampler *)

(** *** Real values of all binary64 numbers *)

(** The real number a finite binary64 denotes (0 for infinities and NaN). *)
Definition SFval (x : spec_float) : R :=
  match x with
  | S754_finite s m e => ((if s then - IZR (Zpos m) else IZR (Zpos m)) * pow2 e)%R
  | _ => 0%R
  end.

Definition SFfinite (x : spec_float) : bool :=
  match x with
  | S754_zero _ | S754_finite _ _ _ => true
  | _ => false
  end.

Definition fval (x : float) : R := SFval (Prim2SF x).

Definition finite64 (x : float) : bool := SFfinite (Prim2SF x).

(** The angle of t degrees, in radians and over the reals. *)
Definition degrees (t : Z) : R := (IZR t * (PI / 180))%R.

(** [math.radians(t)] is a non-negative finite number within 6e-16 of
    [t * q / 180], where [q] is pi cut to 18 decimals: a computation on
    integers. *)
Definition angle_check (t : Z) : bool :=
  match Prim2SF (Orbit.radians (float_of_int t)) with
  | S754_zero _ => t =? 0
  | S754_finite false m e =>
      (e <=? 0) &&
      (Z.abs (Zpos m * (180 * 10 ^ 18) - t * 3141592653589793238 * 2 ^ (- e)) * 10 ^ 16
       <=? 6 * (180 * 10 ^ 18) * 2 ^ (- e))
  | _ => false
  end.

(** *** What is assumed of the C library

    [f] computes the real function [F] on the first turn: on a finite
    argument between 0 and 2 pi it returns a finite number within 2^-53 of
    the exact value.  For a function bounded by 1 this is implied by an
    error of at most one unit in the last place. *)
Definition accurate (F : R -> R) (f : float -> float) : Prop :=
  forall x : float, finite64 x = true -> (0 <= fval x <= 2 * PI)%R ->
    finite64 (f x) = true /\ (Rabs (fval (f x) - F (fval x)) <= / 2 ^ 53)%R.

(** The two exact cases that Annex F of the C standard prescribes at zero,
    and the accuracy of both functions. *)
Definition libm_spec (L : Orbit.libm) : Prop :=
  Orbit.cos64 L 0 = 1%float /\ Orbit.sin64 L 0 = 0%float /\
  accurate cos (Orbit.cos64 L) /\ accurate sin (Orbit.sin64 L).

(** [x] is a finite binary64 number within [eps] of the real [X]. *)
Definition close_to (eps : R) (x : float) (X : R) : Prop :=
  finite64 x = true /\ (Rabs (fval x - X) <= eps)%R.

(** Both plotted coordinates of a point are finite numbers. *)
Definition finite_point (p : float * float * Z) : Prop :=
  finite64 (fst (fst p)) = true /\ finite64 (snd (fst p)) = true.

(** [f] is a binary64 number nearest to the real [v]. *)
Definition nearest (v : R) (f : float) : Prop :=
  finite64 f = true /\
  forall g : float, finite64 g = true -> (Rabs (fval f - v) <= Rabs (fval g - v))%R.

(** *** A library meeting the assumptions

    Some finite binary64 within 2^-53 of [F] at the value of [x], and a
    nearest one wherever there is a nearest one; the two functions below
    return it, except at zero where they return what the C standard
    prescribes. *)
Definition well_rounded (v : R) (f : float) : Prop :=
  finite64 f = true /\ (Rabs (fval f - v) <= / 2 ^ 53)%R /\
  ((exists g : float, nearest v g) -> nearest v f).

Definition some_accurate (F : R -> R) (x : float) : float :=
  epsilon (inhabits 0%float) (well_rounded (F (fval x))).

Definition is_zero64 (x : float) : bool :=
  match Prim2SF x with S754_zero _ => true | _ => false end.

Definition model_libm : Orbit.libm :=
  {| Orbit.cos64 := fun x => if is_zero64 x then 1%float else some_accurate cos x;
     Orbit.sin64 := fun x => if is_zero64 x then x else some_accurate sin x |}.
(** * Proofs *)

Lemma forall_range_spec (n : nat) (p : Z -> bool) :
  forall lo, forall_range n lo p = true ->
  forall z, lo <= z < lo + Z.of_nat n -> p z = true.
Proof.
  induction n as [|k IH]; intros lo H z Hz; [lia|].
  cbn [forall_range] in H. apply andb_true_iff in H as [H0 Hk].
  destruct (Z.eq_dec z lo) as [->|Hne]; [exact H0|].
  apply (IH (lo + 1)); [exact Hk|lia].
Qed.

(** ** Section 4.1: the energy calculation *)

Lemma square_commutes_slider (velocity : Z) :
  in_slider velocity_slider velocity -> square_commutes velocity = true.
Proof.
  intros [Hlo Hhi]. cbn in Hlo, Hhi.
  apply (forall_range_spec 36 square_commutes 5); [vm_compute; reflexivity|lia].
Qed.

(** C1. On every admissible slider input the script computes the three
    quantities exactly by the formulas of section 4.1: mass is
    (4/3)·π·(d/2)^3·ρ, the energy in joules is 0.5·mass·(1000·v)^2 and the
    energy in megatons is that number divided by 4.184e15, bit for bit. *)
Theorem computeImpact_formulas (diameter velocity density : Z) :
  valid_parameters diameter velocity density ->
  let r := computeImpact diameter velocity density in
  mass_kg r = Spec41.mass_kg (float_of_int diameter) (float_of_int density) /\
  energy_j r = Spec41.energy_joules (mass_kg r) (float_of_int velocity) /\
  energy_mt r = Spec41.energy_megatons (energy_j r).
Proof.
  intros (_ & Hv & _). cbn zeta.
  split; [reflexivity|split; [|reflexivity]].
  cbn [computeImpact energy_j mass_kg].
  unfold energy_joules, Spec41.energy_joules.
  apply square_commutes_slider in Hv. unfold square_commutes in Hv.
  apply FloatAxioms.Leibniz.eqb_spec in Hv. rewrite Hv. reflexivity.
Qed.

Lemma computeImpact_formulas_witness :
  valid_parameters 300 20 3000 /\
  mass_kg (computeImpact 300 20 3000)
    = Spec41.mass_kg (float_of_int 300) (float_of_int 3000).
Proof.
  assert (H : valid_parameters 300 20 3000) by (unfold valid_parameters, in_slider; cbn; lia).
  split; [exact H|].
  exact (proj1 (computeImpact_formulas 300 20 3000 H)).
Defined.

(** C2 (as stated, refuted).  At the slider defaults 300 m, 20 km/s and
    3000 kg/m³ the mass does round to 4.2412e10 kg, but the energy does not
    round to 202.8 megatons. *)
Lemma default_energy_not_202_8 :
  ~ (within 4.24115e10 4.24125e10 (mass_kg (computeImpact 300 20 3000)) = true /\
     within 202.75 202.85 (energy_mt (computeImpact 300 20 3000)) = true).
Proof.
  intros [_ H]. vm_compute in H. discriminate H.
Qed.

(** C2 (amended).  At the slider defaults the mass is the binary64 number
    5558960235932838·2^-17 = 4.2412e10 kg to five digits, and the energy is
    8916240594039789·2^-42 = 2027.3 megatons to one decimal; both are the
    values of the formulas of section 4.1. *)
Theorem default_impact_estimate :
  let r := computeImpact (s_default diameter_slider) (s_default velocity_slider)
             (s_default density_slider) in
  Prim2SF (mass_kg r) = S754_finite false 5558960235932838 (-17) /\
  within 4.24115e10 4.24125e10 (mass_kg r) = true /\
  Prim2SF (energy_mt r) = S754_finite false 8916240594039789 (-42) /\
  within 2027.25 2027.35 (energy_mt r) = true /\
  mass_kg r = Spec41.mass_kg 300 3000 /\
  energy_mt r = Spec41.energy_megatons (Spec41.energy_joules (Spec41.mass_kg 300 3000) 20).
Proof.
  cbn zeta. repeat split; vm_compute; reflexivity.
Qed.

(** ** Section 4.5: mitigation *)

(** C5. The outcome is "saved" exactly when both the deflection and the
    lead time are strictly positive; in particular (0,5), (10,0) and (0,0)
    are not saved and (10,5) is. *)
Theorem evaluateMitigation_rule :
  (forall delta_v lead_time : Z,
     evaluateMitigation delta_v lead_time = true <-> (delta_v > 0 /\ lead_time > 0)) /\
  evaluateMitigation 0 5 = false /\
  evaluateMitigation 10 0 = false /\
  evaluateMitigation 10 5 = true /\
  evaluateMitigation 0 0 = false.
Proof.
  split; [|repeat split; reflexivity].
  intros dv lt. unfold evaluateMitigation.
  rewrite andb_true_iff, !Z.ltb_lt. lia.
Qed.

(** C10. The outcome depends on each input only through its positivity:
    two scenarios that agree on whether the deflection is positive and on
    whether the lead time is positive have the same outcome. *)
Theorem evaluateMitigation_sign_only (delta_v lead_time delta_v' lead_time' : Z) :
  (delta_v > 0 <-> delta_v' > 0) ->
  (lead_time > 0 <-> lead_time' > 0) ->
  evaluateMitigation delta_v lead_time = evaluateMitigation delta_v' lead_time'.
Proof.
  intros Hd Hl. unfold evaluateMitigation.
  destruct (Z.ltb_spec 0 delta_v), (Z.ltb_spec 0 delta_v'),
    (Z.ltb_spec 0 lead_time), (Z.ltb_spec 0 lead_time'); cbn; try reflexivity; lia.
Qed.

Lemma evaluateMitigation_sign_only_witness :
  evaluateMitigation 3 7 = evaluateMitigation 50 1 /\
  evaluateMitigation 0 7 = evaluateMitigation (-4) 2.
Proof.
  split.
  - apply (evaluateMitigation_sign_only 3 7 50 1); lia.
  - apply (evaluateMitigation_sign_only 0 7 (-4) 2); lia.
Defined.


(** ** The order of binary64 numbers *)

Lemma key_cmp_lt k k' : key_cmp k k' = Lt <-> key_lt k k'.
Proof.
  destruct k as [[a b] c], k' as [[a' b'] c']. unfold key_cmp, key_lt.
  destruct (Z.compare_spec a a'), (Z.compare_spec b b'), (Z.compare_spec c c');
    split; intros Hc; try discriminate; try reflexivity; lia.
Qed.

Lemma key_cmp_eq k k' : key_cmp k k' = Eq <-> k = k'.
Proof.
  destruct k as [[a b] c], k' as [[a' b'] c']. unfold key_cmp.
  destruct (Z.compare_spec a a'), (Z.compare_spec b b'), (Z.compare_spec c c');
    split; intros Hc; try discriminate; try reflexivity;
    try (injection Hc; intros; lia); subst; reflexivity.
Qed.

Lemma SFcompare_key (x y : spec_float) :
  SFcompare x y =
  match SFkey x, SFkey y with
  | Some k, Some k' => Some (key_cmp k k')
  | _, _ => None
  end.
Proof.
  destruct x as [sx|sx| |sx mx ex], y as [sy|sy| |sy my ey];
    try destruct sx; try destruct sy; cbn; try reflexivity.
  rewrite Z.compare_opp, (Z.compare_antisym ex ey).
  destruct (ex ?= ey); reflexivity.
Qed.

Lemma ltb_key (x y : float) :
  (x <? y)%float = true <->
  exists k k', fkey x = Some k /\ fkey y = Some k' /\ key_lt k k'.
Proof.
  rewrite ltb_spec. unfold SFltb, fkey. rewrite SFcompare_key.
  destruct (SFkey (Prim2SF x)) as [k|], (SFkey (Prim2SF y)) as [k'|].
  - split.
    + intros H. exists k, k'. repeat split. apply key_cmp_lt.
      destruct (key_cmp k k'); congruence.
    + intros (k1 & k2 & [= <-] & [= <-] & H). apply key_cmp_lt in H. now rewrite H.
  - split; [discriminate|]. intros (k1 & k2 & _ & [=] & _).
  - split; [discriminate|]. intros (k1 & k2 & [=] & _).
  - split; [discriminate|]. intros (k1 & k2 & [=] & _).
Qed.

Lemma leb_key (x y : float) :
  (x <=? y)%float = true <->
  exists k k', fkey x = Some k /\ fkey y = Some k' /\ (key_lt k k' \/ k = k').
Proof.
  rewrite leb_spec. unfold SFleb, fkey. rewrite SFcompare_key.
  destruct (SFkey (Prim2SF x)) as [k|], (SFkey (Prim2SF y)) as [k'|].
  - split.
    + intros H. exists k, k'. repeat split.
      destruct (key_cmp k k') eqn:E; try discriminate.
      * right. now apply key_cmp_eq.
      * left. now apply key_cmp_lt.
    + intros (k1 & k2 & [= <-] & [= <-] & [H|H]).
      * apply key_cmp_lt in H. now rewrite H.
      * apply key_cmp_eq in H. now rewrite H.
  - split; [discriminate|]. intros (k1 & k2 & _ & [=] & _).
  - split; [discriminate|]. intros (k1 & k2 & [=] & _).
  - split; [discriminate|]. intros (k1 & k2 & [=] & _).
Qed.

(** Without a NaN, [x < y] fails exactly when [y <= x]. *)
Lemma ltb_false_leb (x y : float) (k k' : Z * Z * Z) :
  fkey x = Some k -> fkey y = Some k' ->
  (x <? y)%float = false <-> (y <=? x)%float = true.
Proof.
  intros Hx Hy. rewrite <- not_true_iff_false, ltb_key, leb_key.
  destruct k as [[a b] c], k' as [[a' b'] c'].
  split.
  - intros H. exists (a', b', c'), (a, b, c). repeat split; try assumption.
    destruct (Z.eq_dec a a'), (Z.eq_dec b b'), (Z.eq_dec c c');
      try (right; congruence); left; unfold key_lt;
      assert (~ key_lt (a, b, c) (a', b', c')) as N
        by (intros N; apply H; exists (a, b, c), (a', b', c'); auto);
      unfold key_lt in N; lia.
  - intros (k1 & k2 & H1 & H2 & H) (k3 & k4 & H3 & H4 & H').
    rewrite Hx in H2, H3. rewrite Hy in H1, H4.
    injection H1 as <-. injection H2 as <-. injection H3 as <-. injection H4 as <-.
    unfold key_lt in *. destruct H as [H|H]; [lia|]. injection H; intros; lia.
Qed.


Lemma ltb_keys (x y : float) (k k' : Z * Z * Z) :
  fkey x = Some k -> fkey y = Some k' ->
  ((x <? y)%float = true <-> key_lt k k').
Proof.
  intros Hx Hy. rewrite ltb_key. split.
  - intros (k1 & k2 & H1 & H2 & H). congruence.
  - intros H. exists k, k'. auto.
Qed.

Lemma leb_keys (x y : float) (k k' : Z * Z * Z) :
  fkey x = Some k -> fkey y = Some k' ->
  ((x <=? y)%float = true <-> (key_lt k k' \/ k = k')).
Proof.
  intros Hx Hy. rewrite leb_key. split.
  - intros (k1 & k2 & H1 & H2 & H). congruence.
  - intros H. exists k, k'. auto.
Qed.

(** *** Rounding keeps the sign and never produces a NaN *)

Lemma shr_1_nonneg (mrs : shr_record) : 0 <= shr_m mrs -> 0 <= shr_m (shr_1 mrs).
Proof.
  destruct mrs as [m r s]. cbn. intros H.
  destruct m as [|[p|p|]|p]; cbn; lia.
Qed.

Lemma iter_pos_shr_1_nonneg (p : positive) :
  forall mrs, 0 <= shr_m mrs -> 0 <= shr_m (SpecFloat.iter_pos shr_1 p mrs).
Proof.
  induction p as [p IH|p IH|]; intros mrs H; cbn.
  - apply IH, IH, shr_1_nonneg, H.
  - apply IH, IH, H.
  - apply shr_1_nonneg, H.
Qed.

Lemma shr_fexp_nonneg (m e : Z) (l : location) :
  0 <= m -> 0 <= shr_m (fst (shr_fexp prec emax m e l)).
Proof.
  intros H. unfold shr_fexp, shr.
  assert (H0 : 0 <= shr_m (shr_record_of_loc m l))
    by (destruct l as [|[]]; exact H).
  destruct (fexp prec emax (Zdigits2 m + e) - e) as [|p|p]; cbn [fst]; try exact H0.
  apply iter_pos_shr_1_nonneg, H0.
Qed.

Lemma round_nearest_even_nonneg (m : Z) (l : location) :
  0 <= m -> 0 <= round_nearest_even m l.
Proof.
  intros H. destruct l as [|[]]; cbn; try lia. destruct (Z.even m); lia.
Qed.

Lemma binary_round_aux_sign (s : bool) (m e : Z) (l : location) :
  0 <= m -> SFsign_is s (binary_round_aux prec emax s m e l).
Proof.
  intros H. unfold binary_round_aux.
  pose proof (shr_fexp_nonneg m e l H) as H1.
  destruct (shr_fexp prec emax m e l) as [mrs' e']. cbn [fst] in H1.
  pose proof (shr_fexp_nonneg _ e' loc_Exact
                (round_nearest_even_nonneg _ (loc_of_shr_record mrs') H1)) as H2.
  destruct (shr_fexp prec emax _ e' loc_Exact) as [mrs'' e'']. cbn [fst] in H2.
  destruct (shr_m mrs'') as [|p|p]; [reflexivity| |lia].
  destruct (e'' <=? emax - prec); reflexivity.
Qed.

Lemma SFdiv_sign (s : bool) (x : spec_float) (my : positive) (ey : Z) :
  SFsign_is s x -> SFsign_is s (SFdiv prec emax x (S754_finite false my ey)).
Proof.
  destruct x as [sx|sx| |sx mx ex]; cbn [SFsign_is]; intros Hs; try contradiction;
    subst sx.
  - cbn. now rewrite xorb_false_r.
  - cbn. now rewrite xorb_false_r.
  - unfold SFdiv. rewrite xorb_false_r.
    destruct (SFdiv_core_binary prec emax (Zpos mx) ex (Zpos my) ey) as [[mz ez] lz] eqn:E.
    apply binary_round_aux_sign.
    unfold SFdiv_core_binary in E.
    set (m' := match _ - _ - _ with Z0 => _ | Zpos _ => _ | Zneg _ => _ end) in E.
    assert (0 <= m') as Hm'.
    { subst m'. destruct (_ - _ - _); try lia. apply Z.shiftl_nonneg. lia. }
    pose proof (Z_div_mod m' (Zpos my) eq_refl) as D.
    destruct (Z.div_eucl m' (Zpos my)) as [q r]. injection E as <- _ _.
    destruct D as [D1 D2]. nia.
Qed.

Lemma SFsign_key (s : bool) (x : spec_float) :
  SFsign_is s x ->
  exists a b c, SFkey x = Some (a, b, c) /\
    (if s then a <= 0 else 0 <= a) /\ (a = 0 -> b = 0 /\ c = 0).
Proof.
  destruct x as [sx|sx| |sx mx ex]; cbn [SFsign_is]; intros H; try contradiction;
    subst sx; destruct s; cbn; eexists _, _, _; (split; [reflexivity|]); lia.
Qed.

Lemma SFkey_sign (x : spec_float) (a b c : Z) :
  SFkey x = Some (a, b, c) ->
  (a = 0 -> b = 0 /\ c = 0) /\
  (0 < a -> SFsign_is false x) /\ (a < 0 -> SFsign_is true x) /\
  (a = 0 -> exists s, x = S754_zero s).
Proof.
  destruct x as [sx|sx| |sx mx ex]; try destruct sx; cbn; intros [= <- <- <-];
    repeat split; try lia; intros _; eexists; reflexivity.
Qed.

(** Dividing by a positive finite constant keeps a number on its side of
    zero and never yields a NaN. *)
Lemma div_key (x c : float) (my : positive) (ey a b d : Z) :
  Prim2SF c = S754_finite false my ey ->
  fkey x = Some (a, b, d) ->
  exists a' b' d', fkey (x / c) = Some (a', b', d') /\
    (0 <= a -> 0 <= a') /\ (a <= 0 -> a' <= 0) /\ (a' = 0 -> b' = 0 /\ d' = 0).
Proof.
  unfold fkey. intros Hc Hx. rewrite div_spec, Hc. unfold SF64div.
  destruct (SFkey_sign _ _ _ _ Hx) as (_ & Hpos & Hneg & Hzero).
  destruct (Z.lt_trichotomy a 0) as [Ha|[Ha|Ha]].
  - destruct (SFsign_key _ _ (SFdiv_sign true _ my ey (Hneg Ha))) as (a' & b' & d' & K & S & Z0).
    exists a', b', d'. repeat split; try exact K; try lia.
  - destruct (Hzero Ha) as [s ->]. cbn. exists 0, 0, 0. repeat split; lia.
  - destruct (SFsign_key _ _ (SFdiv_sign false _ my ey (Hpos Ha))) as (a' & b' & d' & K & S & Z0).
    exists a', b', d'. repeat split; try exact K; try lia.
Qed.

Lemma fkey_nonneg (e : float) :
  (0 <=? e)%float = true ->
  exists a b c, fkey e = Some (a, b, c) /\ 0 <= a /\ (a = 0 -> b = 0 /\ c = 0).
Proof.
  intros H. apply leb_key in H as (k & [[a b] c] & H0 & He & H).
  vm_compute in H0. injection H0 as <-.
  exists a, b, c. split; [exact He|].
  destruct (SFkey_sign _ _ _ _ He) as (Hz & _).
  split; [|exact Hz]. unfold key_lt in H. destruct H as [H|[=]]; lia.
Qed.

Lemma fkey_neg (e : float) :
  (e <? 0)%float = true ->
  exists a b c, fkey e = Some (a, b, c) /\ a < 0.
Proof.
  intros H. apply ltb_key in H as ([[a b] c] & k & He & H0 & H).
  vm_compute in H0. injection H0 as <-.
  exists a, b, c. split; [exact He|].
  destruct (SFkey_sign _ _ _ _ He) as (Hz & _).
  unfold key_lt in H. lia.
Qed.

Lemma fkey_100 : fkey 100 = Some (1, -46, 7036874417766400).
Proof. reflexivity. Qed.

Lemma fkey_10000 : fkey 10000 = Some (1, -39, 5497558138880000).
Proof. reflexivity. Qed.

Lemma fkey_0 : fkey 0 = Some (0, 0, 0).
Proof. reflexivity. Qed.

(** ** Section 4.2: the severity tiers *)

(** The tier of a number that is not a NaN, read on its key. *)
Lemma classifySeverity_key (e : float) (a b c : Z) :
  fkey e = Some (a, b, c) ->
  (key_lt (a, b, c) (1, -46, 7036874417766400) /\ classifySeverity e = Regional) \/
  (~ key_lt (a, b, c) (1, -46, 7036874417766400) /\
   key_lt (a, b, c) (1, -39, 5497558138880000) /\ classifySeverity e = Continental) \/
  (~ key_lt (a, b, c) (1, -39, 5497558138880000) /\ classifySeverity e = Global).
Proof.
  intros He. unfold classifySeverity.
  pose proof (ltb_keys e 100 _ _ He fkey_100) as H1.
  pose proof (ltb_keys e 10000 _ _ He fkey_10000) as H2.
  destruct (e <? 100)%float.
  - left. split; [now apply H1|reflexivity].
  - right. assert (~ key_lt (a, b, c) (1, -46, 7036874417766400)) as N1
      by (intros K; apply H1 in K; discriminate).
    destruct (e <? 10000)%float.
    + left. repeat split; [exact N1|now apply H2].
    + right. split; [|reflexivity]. intros K; apply H2 in K; discriminate.
Qed.

Lemma key_le_not_lt (k k' : Z * Z * Z) :
  (key_lt k' k \/ k' = k) <-> ~ key_lt k k'.
Proof.
  destruct k as [[a b] c], k' as [[a' b'] c']. unfold key_lt. split.
  - intros [H|H]; [lia|]. injection H; intros; lia.
  - intros H.
    destruct (Z.eq_dec a a'), (Z.eq_dec b b'), (Z.eq_dec c c');
      try (right; congruence); left; lia.
Qed.

Lemma key_lt_trans (k1 k2 k3 : Z * Z * Z) :
  key_lt k1 k2 -> key_lt k2 k3 -> key_lt k1 k3.
Proof.
  destruct k1 as [[a1 b1] c1], k2 as [[a2 b2] c2], k3 as [[a3 b3] c3].
  unfold key_lt. lia.
Qed.

Lemma key_100_10000 : key_lt (1, -46, 7036874417766400) (1, -39, 5497558138880000).
Proof. unfold key_lt. lia. Qed.

(** C3. On the non-negative numbers the tier is Regional exactly below 100,
    Continental exactly on [100, 10000) and Global exactly from 10000 on;
    the tier never decreases when the energy increases, and each of the
    three intervals is inhabited. *)
Theorem classifySeverity_partition :
  (forall e : float, (0 <=? e)%float = true ->
     (classifySeverity e = Regional <-> (e <? 100)%float = true) /\
     (classifySeverity e = Continental <->
        (100 <=? e)%float = true /\ (e <? 10000)%float = true) /\
     (classifySeverity e = Global <-> (10000 <=? e)%float = true)) /\
  (forall e1 e2 : float, (0 <=? e1)%float = true -> (e1 <=? e2)%float = true ->
     tier_rank (classifySeverity e1) <= tier_rank (classifySeverity e2)) /\
  classifySeverity 0 = Regional /\
  classifySeverity 100 = Continental /\
  classifySeverity 10000 = Global.
Proof.
  split; [|split; [|repeat split; reflexivity]].
  - intros e H0. destruct (fkey_nonneg e H0) as (a & b & c & He & Ha & Hz).
    rewrite (ltb_keys e 100 _ _ He fkey_100), (ltb_keys e 10000 _ _ He fkey_10000),
      (leb_keys 100 e _ _ fkey_100 He), (leb_keys 10000 e _ _ fkey_10000 He),
      !key_le_not_lt.
    pose proof (fun K => key_lt_trans (a, b, c) _ _ K key_100_10000) as T.
    destruct (classifySeverity_key e a b c He) as [(K1 & ->)|[(K1 & K2 & ->)|(K2 & ->)]];
      repeat split; intros; try discriminate; tauto.
  - intros e1 e2 H0 H12.
    destruct (fkey_nonneg e1 H0) as (a & b & c & He1 & Ha & Hz).
    apply leb_key in H12 as (k1 & k2 & K1 & He2 & H).
    rewrite He1 in K1. injection K1 as <-.
    destruct k2 as [[a' b'] c'].
    assert (forall k, key_lt (a', b', c') k -> key_lt (a, b, c) k) as T.
    { intros k Hk. destruct H as [H| ->]; [exact (key_lt_trans _ _ _ H Hk)|exact Hk]. }
    destruct (classifySeverity_key e1 a b c He1) as [(P1 & ->)|[(P1 & P2 & ->)|(P2 & ->)]];
      destruct (classifySeverity_key e2 a' b' c' He2) as [(Q1 & ->)|[(Q1 & Q2 & ->)|(Q2 & ->)]];
      cbn; try lia; exfalso; auto.
    apply P2, T, (key_lt_trans _ _ _ Q1 key_100_10000).
Qed.

Lemma classifySeverity_partition_witness :
  (0 <=? 250)%float = true /\ (250 <=? 20000)%float = true /\
  (classifySeverity 250 = Continental <->
     (100 <=? 250)%float = true /\ (250 <? 10000)%float = true) /\
  tier_rank (classifySeverity 250) <= tier_rank (classifySeverity 20000).
Proof.
  destruct classifySeverity_partition as (Hiff & Hmono & _).
  split; [reflexivity|]. split; [reflexivity|]. split.
  - exact (proj1 (proj2 (Hiff 250%float eq_refl))).
  - exact (Hmono 250%float 20000%float eq_refl eq_refl).
Defined.

(** C8. Every binary64 input, of either sign (and the infinities and NaN as
    well), is assigned one and only one tier, and every negative input is
    classified Regional. *)
Theorem classifySeverity_total :
  (forall e : float, exists! t : SeverityTier, classifySeverity e = t) /\
  (forall e : float, (e <? 0)%float = true -> classifySeverity e = Regional).
Proof.
  split.
  - intros e. exists (classifySeverity e). split; [reflexivity|auto].
  - intros e H. destruct (fkey_neg e H) as (a & b & c & He & Ha).
    destruct (classifySeverity_key e a b c He) as [(_ & ->)|[(K1 & _)|(K2 & _)]];
      [reflexivity| |]; exfalso; [apply K1|apply K2]; unfold key_lt; lia.
Qed.

Lemma classifySeverity_total_witness :
  (-3 <? 0)%float = true /\ classifySeverity (-3) = Regional.
Proof.
  split; [reflexivity|].
  exact (proj2 classifySeverity_total (-3)%float eq_refl).
Defined.

(** ** Section 4.2: the effect magnitudes *)

Lemma float_of_int_100 : float_of_int 100 = 100%float.
Proof. reflexivity. Qed.

(** The minimum against 100 of a quotient that is not a NaN. *)
Lemma py_min_100 (q : float) (a b c : Z) :
  fkey q = Some (a, b, c) ->
  pynum_float (py_min q 100) = fmin q 100 /\
  (pynum_float (py_min q 100) <=? 100)%float = true /\
  (a <= 0 -> py_min q 100 = PyFloat q).
Proof.
  intros Hq. unfold py_min, fmin. rewrite float_of_int_100.
  pose proof (ltb_false_leb 100 q _ _ fkey_100 Hq) as E.
  destruct (100 <? q)%float eqn:L.
  - cbn [pynum_float]. rewrite float_of_int_100.
    assert ((q <=? 100)%float = false) as L'
      by (apply not_true_iff_false; intros T; apply E in T; discriminate).
    rewrite L'. repeat split. intros Ha. exfalso.
    apply (ltb_keys 100 q _ _ fkey_100 Hq) in L. unfold key_lt in L. lia.
  - cbn [pynum_float]. rewrite (proj1 E eq_refl). repeat split.
Qed.

(** C4. For a non-negative energy the three magnitudes are the minima of
    e/100, e/1000 and e/10000 against 100, so that none exceeds 100; at
    energy 0 all three are 0 and at energy 1e9 all three are the integer
    100. *)
Theorem values_clamped :
  (forall e : float, (0 <=? e)%float = true ->
     map pynum_float (values e)
       = [fmin (e / 100) 100; fmin (e / 1000) 100; fmin (e / 10000) 100]%float /\
     Forall (fun v => (pynum_float v <=? 100)%float = true) (values e)) /\
  values 0 = [PyFloat 0; PyFloat 0; PyFloat 0] /\
  values 1e9 = [PyInt 100; PyInt 100; PyInt 100].
Proof.
  split; [|split; reflexivity].
  intros e H0. destruct (fkey_nonneg e H0) as (a & b & c & He & Ha & Hz).
  destruct (div_key e 100 _ _ a b c eq_refl He) as (a1 & b1 & c1 & K1 & _).
  destruct (div_key e 1000 _ _ a b c eq_refl He) as (a2 & b2 & c2 & K2 & _).
  destruct (div_key e 10000 _ _ a b c eq_refl He) as (a3 & b3 & c3 & K3 & _).
  destruct (py_min_100 _ _ _ _ K1) as (M1 & B1 & _).
  destruct (py_min_100 _ _ _ _ K2) as (M2 & B2 & _).
  destruct (py_min_100 _ _ _ _ K3) as (M3 & B3 & _).
  unfold values. cbn [map]. rewrite M1, M2, M3. split; [reflexivity|].
  repeat constructor; assumption.
Qed.

Lemma values_clamped_witness :
  (0 <=? 2027.25)%float = true /\
  Forall (fun v => (pynum_float v <=? 100)%float = true) (values 2027.25).
Proof.
  split; [reflexivity|].
  exact (proj2 (proj1 values_clamped 2027.25%float eq_refl)).
Defined.

Lemma div_negative (e c : float) (my : positive) (ey : Z) :
  Prim2SF c = S754_finite false my ey ->
  (e <? 0)%float = true ->
  py_min (e / c) 100 = PyFloat (e / c) /\
  (e / c <=? 0)%float = true /\
  SFsign_is true (Prim2SF (e / c)).
Proof.
  intros Hc H. destruct (fkey_neg e H) as (a & b & d & He & Ha).
  destruct (div_key e c my ey a b d Hc He) as (a' & b' & d' & K & _ & Hle & Hz).
  specialize (Hle ltac:(lia)).
  destruct (py_min_100 _ _ _ _ K) as (_ & _ & M).
  split; [exact (M Hle)|]. split.
  - apply (leb_keys _ 0 _ _ K fkey_0). unfold key_lt.
    destruct (Z.eq_dec a' 0) as [E|E]; [right; destruct (Hz E); congruence|left; lia].
  - rewrite div_spec, Hc. apply SFdiv_sign.
    exact (proj1 (proj2 (proj2 (SFkey_sign _ _ _ _ He))) Ha).
Qed.

(** ** Rounding to nearest, on integers *)

Lemma digits2_pos_bounds (p : positive) :
  2 ^ (Zpos (digits2_pos p) - 1) <= Zpos p < 2 ^ Zpos (digits2_pos p).
Proof.
  induction p as [p IH|p IH|]; cbn [digits2_pos].
  - rewrite Pos2Z.inj_succ.
    replace (Z.succ (Zpos (digits2_pos p)) - 1) with (Zpos (digits2_pos p) - 1 + 1) by lia.
    rewrite Z.pow_succ_r by lia. rewrite Z.pow_add_r by lia. lia.
  - rewrite Pos2Z.inj_succ.
    replace (Z.succ (Zpos (digits2_pos p)) - 1) with (Zpos (digits2_pos p) - 1 + 1) by lia.
    rewrite Z.pow_succ_r by lia. rewrite Z.pow_add_r by lia. lia.
  - cbn. lia.
Qed.

Lemma sticky_half (N D : Z) :
  0 <= N -> 0 < D ->
  sticky N (2 * D) = 2 * (sticky N D / 4) + (if sticky N D mod 4 =? 0 then 0 else 1).
Proof.
  intros HN HD. unfold sticky.
  pose proof (Z.div_mod N D ltac:(lia)) as E1.
  pose proof (Z.mod_pos_bound N D HD) as B1.
  pose proof (Z.div_mod (N / D) 2 ltac:(lia)) as E2.
  pose proof (Z.mod_pos_bound (N / D) 2 ltac:(lia)) as B2.
  set (q := N / D) in *. set (r := N mod D) in *.
  set (q2 := q / 2) in *. set (b := q mod 2) in *.
  clearbody q r q2 b.
  assert (Hq : N / (2 * D) = q2).
  { symmetry. apply (Z.div_unique N (2 * D) q2 (b * D + r)); nia. }
  assert (Hr : N mod (2 * D) = b * D + r).
  { symmetry. apply (Z.mod_unique N (2 * D) q2 (b * D + r)); nia. }
  rewrite Hq, Hr.
  destruct (Z.eqb_spec r 0) as [R0|R0].
  - replace (2 * q + 0) with (b * 2 + q2 * 4) by lia.
    rewrite Z.div_add, Z.mod_add by lia.
    rewrite (Z.div_small (b * 2) 4), (Z.mod_small (b * 2) 4) by lia.
    destruct (Z.eqb_spec (b * D + r) 0), (Z.eqb_spec (b * 2) 0); nia.
  - replace (2 * q + 1) with (b * 2 + 1 + q2 * 4) by lia.
    rewrite Z.div_add, Z.mod_add by lia.
    rewrite (Z.div_small (b * 2 + 1) 4), (Z.mod_small (b * 2 + 1) 4) by lia.
    destruct (Z.eqb_spec (b * D + r) 0), (Z.eqb_spec (b * 2 + 1) 0); nia.
Qed.

Lemma shr_code_shr_1 (mrs : shr_record) :
  0 <= shr_m mrs ->
  shr_code (shr_1 mrs) = 2 * (shr_code mrs / 4) + (if shr_code mrs mod 4 =? 0 then 0 else 1).
Proof.
  destruct mrs as [m r s]. unfold shr_code. cbn [shr_m shr_r shr_s]. intros Hm.
  replace (4 * m + 2 * Z.b2z r + Z.b2z s) with (2 * Z.b2z r + Z.b2z s + m * 4) by lia.
  assert (0 <= 2 * Z.b2z r + Z.b2z s < 4) as B by (destruct r, s; cbn; lia).
  rewrite Z.div_add, Z.mod_add by lia.
  rewrite Z.div_small, Z.mod_small by exact B.
  destruct m as [|[p|p|]|p]; try lia; destruct r, s; cbn; lia.
Qed.

Lemma shr_1_sticky (mrs : shr_record) (N D : Z) :
  0 <= N -> 0 < D -> 0 <= shr_m mrs ->
  shr_code mrs = sticky N D ->
  shr_code (shr_1 mrs) = sticky N (2 * D).
Proof.
  intros HN HD Hm H. rewrite shr_code_shr_1 by exact Hm.
  rewrite H. symmetry. apply sticky_half; assumption.
Qed.

Lemma iter_pos_sticky (p : positive) :
  forall (mrs : shr_record) (N D : Z),
    0 <= N -> 0 < D -> 0 <= shr_m mrs ->
    shr_code mrs = sticky N D ->
    shr_code (SpecFloat.iter_pos shr_1 p mrs) = sticky N (D * 2 ^ Zpos p).
Proof.
  induction p as [p IH|p IH|]; intros mrs N D HN HD Hm H; cbn [SpecFloat.iter_pos].
  - assert (0 < 2 ^ Zpos p) as Hp by (apply Z.pow_pos_nonneg; lia).
    replace (D * 2 ^ Zpos p~1) with (2 * D * 2 ^ Zpos p * 2 ^ Zpos p).
    2:{ replace (Zpos p~1) with (Zpos p + Zpos p + 1) by lia.
        rewrite !Z.pow_add_r, Z.pow_1_r by lia. ring. }
    apply IH; try lia.
    + apply iter_pos_shr_1_nonneg, shr_1_nonneg, Hm.
    + apply IH; try lia.
      * apply shr_1_nonneg, Hm.
      * apply shr_1_sticky; assumption.
  - assert (0 < 2 ^ Zpos p) as Hp by (apply Z.pow_pos_nonneg; lia).
    replace (D * 2 ^ Zpos p~0) with (D * 2 ^ Zpos p * 2 ^ Zpos p).
    2:{ replace (Zpos p~0) with (Zpos p + Zpos p) by lia.
        rewrite !Z.pow_add_r by lia. ring. }
    apply IH; try lia.
    + apply iter_pos_shr_1_nonneg, Hm.
    + apply IH; try lia; assumption.
  - rewrite Z.pow_1_r, Z.mul_comm. apply shr_1_sticky; assumption.
Qed.

Lemma shr_sticky (mrs : shr_record) (e n N D : Z) :
  0 <= N -> 0 < D -> 0 <= shr_m mrs -> 0 <= n ->
  shr_code mrs = sticky N D ->
  snd (shr mrs e n) = e + n /\
  shr_code (fst (shr mrs e n)) = sticky N (D * 2 ^ n) /\
  0 <= shr_m (fst (shr mrs e n)).
Proof.
  intros HN HD Hm Hn H. destruct n as [|p|p]; [| |lia]; cbn [shr fst snd].
  - rewrite Z.pow_0_r, Z.mul_1_r, Z.add_0_r. auto.
  - split; [reflexivity|]. split.
    + apply iter_pos_sticky; assumption.
    + apply iter_pos_shr_1_nonneg, Hm.
Qed.

(** The mantissa kept by a record is the floor of the located rational. *)
Lemma shr_m_sticky (mrs : shr_record) (N D : Z) :
  0 <= N -> 0 < D ->
  shr_code mrs = sticky N D ->
  shr_m mrs = N / (2 * D).
Proof.
  intros HN HD H. unfold shr_code, sticky in H.
  rewrite (Z.mul_comm 2 D), <- Z.div_div by lia.
  assert (0 <= 2 * Z.b2z (shr_r mrs) + Z.b2z (shr_s mrs) < 4) as B
    by (destruct (shr_r mrs), (shr_s mrs); cbn; lia).
  assert (0 <= (if N mod D =? 0 then 0 else 1) < 2) as B'
    by (destruct (N mod D =? 0); lia).
  apply (Z.div_unique (N / D) 2 (shr_m mrs) (Z.b2z (shr_r mrs))).
  - destruct (shr_r mrs); cbn; lia.
  - destruct (shr_r mrs), (shr_s mrs); cbn [Z.b2z] in *; lia.
Qed.

(** Rounding to nearest even is within half a unit of the located rational. *)
Lemma round_nearest_even_sticky (mrs : shr_record) (N D : Z) :
  0 <= N -> 0 < D ->
  shr_code mrs = sticky N D ->
  let m1 := round_nearest_even (shr_m mrs) (loc_of_shr_record mrs) in
  shr_m mrs <= m1 <= shr_m mrs + 1 /\ Z.abs (2 * D * m1 - N) <= D.
Proof.
  intros HN HD H. unfold shr_code, sticky in H.
  pose proof (Z.div_mod N D ltac:(lia)) as E.
  pose proof (Z.mod_pos_bound N D HD) as B.
  destruct mrs as [m r s]. cbn [shr_m shr_r shr_s loc_of_shr_record] in *.
  set (q := N / D) in *. set (rho := N mod D) in *. clearbody q rho.
  destruct (Z.eqb_spec rho 0) as [R0|R0];
    destruct r, s; cbn [Z.b2z round_nearest_even] in *; try lia;
    try (destruct (Z.even m); nia); nia.
Qed.

Lemma Zdigits2_unique (m k : Z) :
  0 < m -> 2 ^ (k - 1) <= m < 2 ^ k -> Zdigits2 m = k.
Proof.
  intros Hm [Hlo Hhi]. destruct m as [|p|p]; try lia. cbn [Zdigits2].
  pose proof (digits2_pos_bounds p) as [Blo Bhi].
  set (d := Zpos (digits2_pos p)) in *.
  assert (0 < d) as Hd by (subst d; lia). clearbody d.
  assert (0 < k) as Hk.
  { destruct (Z_lt_le_dec 0 k) as [|Hk0]; [assumption|].
    assert (2 ^ k <= 1).
    { destruct (Z.eq_dec k 0) as [->|]; [cbn; lia|].
      rewrite Z.pow_neg_r by lia. lia. }
    lia. }
  destruct (Z.lt_trichotomy d k) as [L|[L|L]]; [|exact L|].
  - assert (2 ^ d <= 2 ^ (k - 1)) by (apply Z.pow_le_mono_r; lia). lia.
  - assert (2 ^ k <= 2 ^ (d - 1)) by (apply Z.pow_le_mono_r; lia). lia.
Qed.

Lemma fexp_normal (z : Z) : -1074 <= z - 53 -> fexp prec emax z = z - 53.
Proof. unfold fexp, SpecFloat.emin, prec, emax. lia. Qed.

Lemma shr_m_of_loc (m : Z) (l : location) : shr_m (shr_record_of_loc m l) = m.
Proof. destruct l as [|[]]; reflexivity. Qed.

(** Second pass of [binary_round_aux]: a rounded mantissa in [2^52, 2^53]
    is kept, or renormalised when it has reached 2^53. *)
Lemma renormalise (s : bool) (m1 T : Z) :
  2 ^ 52 <= m1 <= 2 ^ 53 -> -1074 <= T <= 970 ->
  exists (m : positive) (e : Z),
    (let '(mrs, e'') := shr_fexp prec emax m1 T loc_Exact in
     match shr_m mrs with
     | 0 => S754_zero s
     | Zpos m => if e'' <=? emax - prec then S754_finite s m e'' else S754_infinity s
     | Zneg _ => S754_nan
     end) = S754_finite s m e /\
    2 ^ 52 <= Zpos m < 2 ^ 53 /\ T <= e <= 971 /\
    Zpos m * 2 ^ (e - T) = m1.
Proof.
  intros Hm HT. destruct (Z.eq_dec m1 (2 ^ 53)) as [->|Hne].
  - exists (Z.to_pos (2 ^ 52)), (T + 1).
    unfold shr_fexp. change (Zdigits2 (2 ^ 53)) with 54.
    rewrite fexp_normal by lia.
    replace (54 + T - 53 - T) with 1 by lia.
    cbn [shr_record_of_loc shr SpecFloat.iter_pos].
    change (shr_1 {| shr_m := 2 ^ 53; shr_r := false; shr_s := false |})
      with {| shr_m := 2 ^ 52; shr_r := false; shr_s := false |}.
    cbn [shr_m]. change (2 ^ 52) with (Zpos (Z.to_pos (2 ^ 52))) at 1.
    cbv iota beta.
    replace (T + 1 <=? emax - prec) with true
      by (symmetry; apply Z.leb_le; unfold emax, prec; lia).
    split; [reflexivity|].
    replace (T + 1 - T) with 1 by lia.
    split; [cbn; lia|]. split; [lia|]. reflexivity.
  - assert (0 < m1) as Hpos by lia.
    destruct m1 as [|p|p]; try lia.
    exists p, T. unfold shr_fexp.
    rewrite (Zdigits2_unique (Zpos p) 53) by (try lia; change (53 - 1) with 52; lia).
    rewrite fexp_normal by lia.
    replace (53 + T - 53 - T) with 0 by lia.
    cbn [shr_record_of_loc shr shr_m].
    replace (T <=? emax - prec) with true
      by (symmetry; apply Z.leb_le; unfold emax, prec; lia).
    split; [reflexivity|].
    rewrite Z.sub_diag, Z.pow_0_r. split; [lia|]. split; lia.
Qed.

(** Rounding a positive number of the normal range: the result is a normal
    binary64 whose relative distance to the exact value [N / (2 D) * 2^e0]
    is at most [2^-53]. *)
Lemma binary_round_aux_normal (s : bool) (m0 e0 : Z) (l0 : location) (N D : Z) :
  0 < m0 -> 0 <= N -> 0 < D ->
  shr_code (shr_record_of_loc m0 l0) = sticky N D ->
  53 <= Zdigits2 m0 ->
  -1074 <= Zdigits2 m0 + e0 - 53 ->
  Zdigits2 m0 + e0 <= 1023 ->
  exists (m : positive) (e : Z),
    binary_round_aux prec emax s m0 e0 l0 = S754_finite s m e /\
    2 ^ 52 <= Zpos m < 2 ^ 53 /\ e0 <= e /\ -1074 <= e <= 971 /\
    2 ^ 53 * Z.abs (2 * D * (Zpos m * 2 ^ (e - e0)) - N) <= N.
Proof.
  intros Hm0 HN HD Hcode Hd53 Hlo Hhi.
  assert (2 ^ (Zdigits2 m0 - 1) <= m0 < 2 ^ Zdigits2 m0) as Hdig.
  { destruct m0 as [|p|p]; try lia. apply digits2_pos_bounds. }
  remember (Zdigits2 m0) as d eqn:Hd.
  set (n := d - 53).
  assert (0 <= n) as Hn by (subst n; lia).
  assert (0 < 2 ^ n) as Hpn by (apply Z.pow_pos_nonneg; lia).
  assert (2 ^ (d - 1) = 2 ^ 52 * 2 ^ n) as P1
    by (rewrite <- Z.pow_add_r by lia; f_equal; subst n; lia).
  assert (2 ^ d = 2 ^ 53 * 2 ^ n) as P2
    by (rewrite <- Z.pow_add_r by lia; f_equal; subst n; lia).
  assert (m0 = N / (2 * D)) as Hm0N.
  { rewrite <- (shr_m_of_loc m0 l0). apply shr_m_sticky; assumption. }
  unfold binary_round_aux, shr_fexp at 1.
  rewrite <- Hd, fexp_normal by lia.
  replace (d + e0 - 53 - e0) with n by (subst n; lia).
  destruct (shr_sticky (shr_record_of_loc m0 l0) e0 n N D HN HD
              ltac:(rewrite shr_m_of_loc; lia) Hn Hcode) as (He' & Hc' & Hm').
  destruct (shr (shr_record_of_loc m0 l0) e0 n) as [mrs' e'].
  cbn [fst snd] in He', Hc', Hm'. subst e'.
  assert (0 < D * 2 ^ n) as HD' by nia.
  pose proof (shr_m_sticky mrs' N (D * 2 ^ n) HN HD' Hc') as Hm.
  destruct (round_nearest_even_sticky mrs' N (D * 2 ^ n) HN HD' Hc') as (Hr & Herr).
  set (m1 := round_nearest_even (shr_m mrs') (loc_of_shr_record mrs')) in *.
  clearbody m1.
  assert (shr_m mrs' = m0 / 2 ^ n) as Hm_div.
  { rewrite Hm, Hm0N, Z.div_div by lia. f_equal. ring. }
  assert (2 ^ 52 <= shr_m mrs' < 2 ^ 53) as Hmb.
  { rewrite Hm_div. split.
    - apply Z.div_le_lower_bound; lia.
    - apply Z.div_lt_upper_bound; lia. }
  assert (2 ^ 52 <= m1 <= 2 ^ 53) as Hm1 by lia.
  assert (-1074 <= e0 + n <= 970) as HT by (subst n; lia).
  destruct (renormalise s m1 (e0 + n) Hm1 HT)
    as (m & e & Hres & Hmm & He & Hval).
  exists m, e. split; [exact Hres|].
  split; [exact Hmm|]. split; [lia|]. split; [subst n; lia|].
  replace (e - e0) with (n + (e - (e0 + n))) by lia.
  rewrite Z.pow_add_r by lia.
  replace (2 * D * (Zpos m * (2 ^ n * 2 ^ (e - (e0 + n)))) - N)
    with (2 * (D * 2 ^ n) * m1 - N) by (rewrite <- Hval; ring).
  assert (2 * D * m0 <= N) as HNlo.
  { rewrite Hm0N. apply Z.mul_div_le. lia. }
  nia.
Qed.

(** ** Real values *)

Section RealValues.
Local Open Scope R_scope.

Lemma pow2_pos (e : Z) : 0 < pow2 e.
Proof. apply powerRZ_lt. lra. Qed.

Lemma pow2_add (a b : Z) : pow2 (a + b) = pow2 a * pow2 b.
Proof. apply powerRZ_add. lra. Qed.

Lemma pow2_0 : pow2 0 = 1.
Proof. reflexivity. Qed.

Lemma pow2_IZR (k : Z) : (0 <= k)%Z -> IZR (2 ^ k) = pow2 k.
Proof.
  intros Hk. unfold pow2. rewrite <- (Z2Nat.id k Hk) at 1 2.
  rewrite <- pow_IZR, <- pow_powerRZ. reflexivity.
Qed.

Lemma pow2_le (a b : Z) : (a <= b)%Z -> pow2 a <= pow2 b.
Proof.
  intros H. replace b with (a + (b - a))%Z by lia. rewrite pow2_add.
  rewrite <- (Rmult_1_r (pow2 a)) at 1.
  apply Rmult_le_compat_l; [apply Rlt_le, pow2_pos|].
  rewrite <- pow2_IZR by lia. apply IZR_le.
  assert (0 < 2 ^ (b - a))%Z by (apply Z.pow_pos_nonneg; lia). lia.
Qed.

Lemma pow2_lt_inv (a b : Z) : pow2 a < pow2 b -> (a < b)%Z.
Proof.
  intros H. destruct (Z_lt_le_dec a b) as [L|L]; [exact L|].
  apply pow2_le in L. lra.
Qed.

Lemma pow2_sub (a b : Z) : pow2 (a - b) = pow2 a / pow2 b.
Proof.
  replace a with ((a - b) + b)%Z at 2 by lia. rewrite pow2_add.
  field. apply Rgt_not_eq, pow2_pos.
Qed.

End RealValues.

Section RoundingError.
Local Open Scope R_scope.

Lemma IZR_div_bounds (N D : Z) :
  (0 <= N)%Z -> (0 < D)%Z ->
  IZR (N / D) <= IZR N / IZR D < IZR (N / D) + 1.
Proof.
  intros HN HD.
  pose proof (Z.div_mod N D ltac:(lia)) as E.
  pose proof (Z.mod_pos_bound N D HD) as B.
  assert (0 < IZR D) as HDR by (apply IZR_lt; exact HD).
  assert (IZR N = IZR D * IZR (N / D) + IZR (N mod D)) as ER
    by (rewrite <- mult_IZR, <- plus_IZR; f_equal; exact E).
  assert (0 <= IZR (N mod D) < IZR D) as BR
    by (split; [apply IZR_le|apply IZR_lt]; lia).
  rewrite ER. split.
  - apply Rmult_le_reg_r with (IZR D); [exact HDR|].
    field_simplify; [|lra]. lra.
  - apply Rmult_lt_reg_r with (IZR D); [exact HDR|].
    field_simplify; [|lra]. lra.
Qed.

(** [binary_round_aux_normal] with its range conditions and its error bound
    stated on the real value [V = N / (2 D) * 2^e0] being rounded. *)
Lemma round_normal_R (s : bool) (m0 e0 : Z) (l0 : location) (N D : Z) :
  (0 < m0)%Z -> (0 <= N)%Z -> (0 < D)%Z ->
  shr_code (shr_record_of_loc m0 l0) = sticky N D ->
  (53 <= Zdigits2 m0)%Z ->
  let V := IZR N / (2 * IZR D) * pow2 e0 in
  pow2 (-1022) <= V < pow2 1023 ->
  exists (m : positive) (e : Z),
    binary_round_aux prec emax s m0 e0 l0 = S754_finite s m e /\
    (2 ^ 52 <= Zpos m < 2 ^ 53)%Z /\ (-1074 <= e <= 971)%Z /\
    Rabs (IZR (Zpos m) * pow2 e - V) <= u53 * V.
Proof.
  intros Hm0 HN HD Hcode Hd53 V [HVlo HVhi].
  assert (0 < IZR D) as HDR by (apply IZR_lt; exact HD).
  assert (m0 = N / (2 * D))%Z as Hm0N.
  { rewrite <- (shr_m_of_loc m0 l0). apply shr_m_sticky; assumption. }
  assert (2 ^ (Zdigits2 m0 - 1) <= m0 < 2 ^ Zdigits2 m0)%Z as Hdig.
  { destruct m0 as [|p|p]; try lia. apply digits2_pos_bounds. }
  pose proof (IZR_div_bounds N (2 * D) HN ltac:(lia)) as Hq.
  rewrite <- Hm0N, mult_IZR in Hq.
  set (d := Zdigits2 m0) in *.
  assert (pow2 (d - 1) <= IZR m0) as Hlo
    by (rewrite <- pow2_IZR by lia; apply IZR_le; lia).
  assert (IZR m0 + 1 <= pow2 d) as Hhi
    by (rewrite <- pow2_IZR by lia; rewrite <- plus_IZR; apply IZR_le; lia).
  pose proof (pow2_pos e0) as He0.
  assert (pow2 (d - 1 + e0) <= V) as HV1.
  { rewrite pow2_add. unfold V. apply Rmult_le_compat_r; lra. }
  assert (V < pow2 (d + e0)) as HV2.
  { rewrite pow2_add. unfold V. apply Rmult_lt_compat_r; lra. }
  assert (d - 1 + e0 < 1023)%Z as B1 by (apply pow2_lt_inv; lra).
  assert (-1022 < d + e0)%Z as B2 by (apply pow2_lt_inv; lra).
  destruct (binary_round_aux_normal s m0 e0 l0 N D Hm0 HN HD Hcode Hd53
              ltac:(fold d; lia) ltac:(fold d; lia))
    as (m & e & Hres & Hm & Hee & He & Herr).
  exists m, e. split; [exact Hres|]. split; [exact Hm|]. split; [exact He|].
  apply IZR_le in Herr.
  rewrite mult_IZR, abs_IZR, minus_IZR, !mult_IZR, !pow2_IZR in Herr by lia.
  replace (pow2 e) with (pow2 (e - e0) * pow2 e0)
    by (rewrite <- pow2_add; f_equal; lia).
  set (P := IZR (Zpos m) * pow2 (e - e0)) in *.
  replace (IZR (Zpos m) * (pow2 (e - e0) * pow2 e0) - V)
    with (pow2 e0 / (2 * IZR D) * (2 * IZR D * P - IZR N))
    by (unfold V, P; field; lra).
  rewrite Rabs_mult, Rabs_pos_eq
    by (apply Rlt_le, Rdiv_lt_0_compat; lra).
  assert (0 < pow2 53) as H53 by apply pow2_pos.
  assert (u53 = / pow2 53) as -> by (unfold u53, pow2; cbn; reflexivity).
  assert (Rabs (IZR 2 * IZR D * P - IZR N) <= IZR N / pow2 53) as Herr'.
  { apply Rmult_le_reg_l with (pow2 53); [exact H53|].
    replace (pow2 53 * (IZR N / pow2 53)) with (IZR N) by (field; lra).
    exact Herr. }
  unfold V.
  replace (/ pow2 53 * (IZR N / (2 * IZR D) * pow2 e0))
    with (pow2 e0 / (2 * IZR D) * (IZR N / pow2 53)) by (field; lra).
  apply Rmult_le_compat_l; [apply Rlt_le, Rdiv_lt_0_compat; lra|exact Herr'].
Qed.

End RoundingError.

(** ** The operations on positive normal numbers *)

Lemma Zdigits2_ge (m k : Z) : 0 <= k -> 2 ^ k <= m -> k + 1 <= Zdigits2 m.
Proof.
  intros Hk H. assert (0 < 2 ^ k) by (apply Z.pow_pos_nonneg; lia).
  destruct m as [|p|p]; try lia. cbn [Zdigits2].
  pose proof (digits2_pos_bounds p) as [_ Bhi].
  destruct (Z_lt_le_dec k (Zpos (digits2_pos p))) as [L|L]; [lia|].
  assert (2 ^ Zpos (digits2_pos p) <= 2 ^ k) by (apply Z.pow_le_mono_r; lia). lia.
Qed.

Lemma sticky_exact (M : Z) : sticky (2 * M) 1 = 4 * M.
Proof. unfold sticky. rewrite Z.div_1_r, Z.mod_1_r. cbn [Z.eqb]. lia. Qed.

Ltac loc_simpl :=
  unfold shr_code; cbn [shr_record_of_loc shr_m shr_r shr_s Z.b2z].

Lemma new_location_sticky (m' my : Z) :
  0 <= m' -> 0 < my ->
  shr_code (shr_record_of_loc (m' / my) (new_location my (m' mod my)))
  = sticky (2 * m') my.
Proof.
  intros Hm' Hmy.
  pose proof (Z.div_mod m' my ltac:(lia)) as E.
  pose proof (Z.mod_pos_bound m' my Hmy) as B.
  set (q := m' / my) in *. set (r := m' mod my) in *. clearbody q r.
  unfold sticky.
  assert (2 * r < my \/ my <= 2 * r) as [C|C] by lia.
  - rewrite <- (Z.div_unique_pos (2 * m') my (2 * q) (2 * r)) by nia.
    rewrite <- (Z.mod_unique_pos (2 * m') my (2 * q) (2 * r)) by nia.
    unfold new_location, new_location_even, new_location_odd.
    destruct (Z.even my) eqn:Ev; cbv beta;
      destruct (Z.eqb_spec r 0) as [R0|R0]; destruct (Z.eqb_spec (2 * r) 0);
      try lia; try (loc_simpl; lia).
    + rewrite (proj2 (Z.compare_lt_iff (2 * r) my) C). loc_simpl. lia.
    + destruct (Z.compare_spec (2 * r + 1) my); loc_simpl; lia.
  - rewrite <- (Z.div_unique_pos (2 * m') my (2 * q + 1) (2 * r - my)) by nia.
    rewrite <- (Z.mod_unique_pos (2 * m') my (2 * q + 1) (2 * r - my)) by nia.
    unfold new_location, new_location_even, new_location_odd.
    destruct (Z.even my) eqn:Ev; cbv beta;
      (destruct (Z.eqb_spec r 0) as [R0|R0]; [lia|]).
    + destruct (Z.compare_spec (2 * r) my); try lia;
        destruct (Z.eqb_spec (2 * r - my) 0); try lia; loc_simpl; lia.
    + assert (my <> 2 * r).
      { intros ->. rewrite Z.even_mul in Ev. discriminate. }
      destruct (Z.compare_spec (2 * r + 1) my); try lia.
      destruct (Z.eqb_spec (2 * r - my) 0); [lia|loc_simpl; lia].
Qed.

Section NormalOps.
Local Open Scope R_scope.

(** The product of two positive normal numbers, when it stays in the normal
    range, is the exact product with a relative error of at most 2^-53. *)
Lemma mul_normal (x y : float) (vx vy : R) :
  fnormal x vx -> fnormal y vy ->
  pow2 (-1022) <= vx * vy < pow2 1023 ->
  exists v, fnormal (x * y) v /\ Rabs (v - vx * vy) <= u53 * (vx * vy).
Proof.
  intros (mx & ex & Hx & Hmx & _ & ->) (my & ey & Hy & Hmy & _ & ->) HV.
  assert (2 ^ 104 <= Zpos (mx * my))%Z as HM.
  { rewrite Pos2Z.inj_mul. change (2 ^ 104)%Z with (2 ^ 52 * 2 ^ 52)%Z.
    apply Z.mul_le_mono_nonneg; lia. }
  destruct (round_normal_R false (Zpos (mx * my)) (ex + ey) loc_Exact
              (2 * Zpos (mx * my)) 1) as (m & e & Hres & Hm & He & Herr).
  - lia.
  - lia.
  - lia.
  - rewrite sticky_exact. loc_simpl. lia.
  - pose proof (Zdigits2_ge (Zpos (mx * my)) 104 ltac:(lia) HM). lia.
  - rewrite mult_IZR, Pos2Z.inj_mul, mult_IZR, pow2_add.
    replace (2 * (IZR (Zpos mx) * IZR (Zpos my)) / (2 * 1) * (pow2 ex * pow2 ey))
      with (IZR (Zpos mx) * pow2 ex * (IZR (Zpos my) * pow2 ey)) by field.
    exact HV.
  - exists (IZR (Zpos m) * pow2 e). split.
    + exists m, e. repeat split; try lia.
      rewrite mul_spec, Hx, Hy. exact Hres.
    + rewrite mult_IZR, Pos2Z.inj_mul, mult_IZR, pow2_add in Herr.
      replace (2 * (IZR (Zpos mx) * IZR (Zpos my)) / (2 * 1) * (pow2 ex * pow2 ey))
        with (IZR (Zpos mx) * pow2 ex * (IZR (Zpos my) * pow2 ey)) in Herr by field.
      exact Herr.
Qed.

Lemma SFdiv_core_binary_normal (mx my : positive) (ex ey : Z) :
  (2 ^ 52 <= Zpos mx < 2 ^ 53)%Z -> (2 ^ 52 <= Zpos my < 2 ^ 53)%Z ->
  (-1020 <= ex - ey)%Z ->
  SFdiv_core_binary prec emax (Zpos mx) ex (Zpos my) ey
  = ((Zpos mx * 2 ^ 53) / Zpos my, ex - ey - 53,
     new_location (Zpos my) ((Zpos mx * 2 ^ 53) mod Zpos my))%Z.
Proof.
  intros Hmx Hmy HA. unfold SFdiv_core_binary.
  rewrite !(Zdigits2_unique _ 53) by (try lia; change (53 - 1)%Z with 52%Z; lia).
  replace (53 + ex - (53 + ey))%Z with (ex - ey)%Z by lia.
  rewrite fexp_normal by lia.
  rewrite Z.min_l by lia.
  replace (ex - ey - (ex - ey - 53))%Z with 53%Z by lia.
  rewrite Z.shiftl_mul_pow2 by lia.
  unfold Z.div, Z.modulo.
  destruct (Z.div_eucl (Zpos mx * 2 ^ 53) (Zpos my)) as [q r]. reflexivity.
Qed.

(** The quotient of two positive normal numbers, when it stays in the
    normal range, is the exact quotient with a relative error of at most
    2^-53. *)
Lemma SFdiv_normal (s : bool) (mx my : positive) (ex ey : Z) :
  (2 ^ 52 <= Zpos mx < 2 ^ 53)%Z -> (2 ^ 52 <= Zpos my < 2 ^ 53)%Z ->
  pow2 (-1020) <= IZR (Zpos mx) * pow2 ex / (IZR (Zpos my) * pow2 ey) < pow2 1023 ->
  exists (m : positive) (e : Z),
    SFdiv prec emax (S754_finite s mx ex) (S754_finite false my ey)
      = S754_finite s m e /\
    (2 ^ 52 <= Zpos m < 2 ^ 53)%Z /\ (-1074 <= e <= 971)%Z /\
    Rabs (IZR (Zpos m) * pow2 e - IZR (Zpos mx) * pow2 ex / (IZR (Zpos my) * pow2 ey))
      <= u53 * (IZR (Zpos mx) * pow2 ex / (IZR (Zpos my) * pow2 ey)).
Proof.
  intros Hmx Hmy [HVlo HVhi].
  pose proof (pow2_pos ex) as Pex. pose proof (pow2_pos ey) as Pey.
  assert (0 < IZR (Zpos mx)) as Rmx by (apply IZR_lt; lia).
  assert (0 < IZR (Zpos my)) as Rmy by (apply IZR_lt; lia).
  assert (IZR (Zpos mx) < pow2 53) as Rmx'
    by (rewrite <- pow2_IZR by lia; apply IZR_lt; lia).
  assert (pow2 52 <= IZR (Zpos my)) as Rmy'
    by (rewrite <- pow2_IZR by lia; apply IZR_le; lia).
  assert (IZR (Zpos mx) * pow2 ex / (IZR (Zpos my) * pow2 ey)
          = IZR (Zpos mx) / IZR (Zpos my) * pow2 (ex - ey)) as EV
    by (rewrite pow2_sub; field; lra).
  rewrite EV in *.
  assert (-1020 <= ex - ey)%Z as HA.
  { assert (pow2 (-1020) < pow2 (ex - ey + 1)) as L; [|apply pow2_lt_inv in L; lia].
    eapply Rle_lt_trans; [exact HVlo|].
    rewrite pow2_add. rewrite (Rmult_comm (pow2 (ex - ey))).
    apply Rmult_lt_compat_r; [apply pow2_pos|].
    assert (pow2 1 = 2) as -> by exact (powerRZ_1 2).
    apply Rmult_lt_reg_r with (IZR (Zpos my)); [exact Rmy|].
    replace (IZR (Zpos mx) / IZR (Zpos my) * IZR (Zpos my)) with (IZR (Zpos mx))
      by (field; lra).
    assert (pow2 53 = 2 * pow2 52) as E53
      by (change 53%Z with (1 + 52)%Z; rewrite pow2_add; f_equal; exact (powerRZ_1 2)).
    rewrite E53 in Rmx'. nra. }
  set (m' := (Zpos mx * 2 ^ 53)%Z).
  assert (2 ^ 52 <= m' / Zpos my)%Z as Hq.
  { apply Z.div_le_lower_bound; [lia|]. subst m'. nia. }
  destruct (round_normal_R s (m' / Zpos my) (ex - ey - 53)
              (new_location (Zpos my) (m' mod Zpos my)) (2 * m') (Zpos my))
    as (m & e & Hres & Hm & He & Herr).
  - lia.
  - subst m'. lia.
  - lia.
  - apply new_location_sticky; subst m'; lia.
  - pose proof (Zdigits2_ge (m' / Zpos my) 52 ltac:(lia) Hq). lia.
  - replace (IZR (2 * m') / (2 * IZR (Zpos my)) * pow2 (ex - ey - 53))
      with (IZR (Zpos mx) / IZR (Zpos my) * pow2 (ex - ey)).
    { split; [|exact HVhi]. eapply Rle_trans; [|exact HVlo]. apply pow2_le; lia. }
    subst m'. rewrite !mult_IZR, pow2_IZR, (pow2_sub (ex - ey) 53) by lia.
    pose proof (pow2_pos 53). field. split; apply Rgt_not_eq; lra.
  - exists m, e. split; [|split; [exact Hm|split; [exact He|]]].
    + unfold SFdiv. rewrite xorb_false_r.
      rewrite (SFdiv_core_binary_normal mx my ex ey Hmx Hmy HA). exact Hres.
    + replace (IZR (2 * m') / (2 * IZR (Zpos my)) * pow2 (ex - ey - 53))
        with (IZR (Zpos mx) / IZR (Zpos my) * pow2 (ex - ey)) in Herr; [exact Herr|].
      subst m'. rewrite !mult_IZR, pow2_IZR, (pow2_sub (ex - ey) 53) by lia.
      pose proof (pow2_pos 53). field. split; apply Rgt_not_eq; lra.
Qed.

Lemma div_normal (x y : float) (vx vy : R) :
  fnormal x vx -> fnormal y vy ->
  pow2 (-1020) <= vx / vy < pow2 1023 ->
  exists v, fnormal (x / y) v /\ Rabs (v - vx / vy) <= u53 * (vx / vy).
Proof.
  intros (mx & ex & Hx & Hmx & _ & ->) (my & ey & Hy & Hmy & _ & ->) HV.
  destruct (SFdiv_normal false mx my ex ey Hmx Hmy HV) as (m & e & Hres & Hm & He & Herr).
  exists (IZR (Zpos m) * pow2 e). split; [|exact Herr].
  exists m, e. repeat split; try lia.
  rewrite div_spec, Hx, Hy. exact Hres.
Qed.

Lemma Pos_iter_xO (d p : positive) :
  Zpos (Pos.iter xO p d) = (Zpos p * 2 ^ Zpos d)%Z.
Proof.
  induction d as [|d IH] using Pos.peano_ind.
  - cbn. lia.
  - rewrite Pos.iter_succ, Pos2Z.inj_xO, IH, Pos2Z.inj_succ, Z.pow_succ_r by lia. ring.
Qed.

(** Rounding the positive dyadic number [p * 2^e] of the normal range. *)
Lemma binary_round_normal (p : positive) (e : Z) :
  pow2 (-1022) <= IZR (Zpos p) * pow2 e < pow2 1023 ->
  exists (m : positive) (e' : Z),
    binary_round prec emax false p e = S754_finite false m e' /\
    (2 ^ 52 <= Zpos m < 2 ^ 53)%Z /\ (-1074 <= e' <= 971)%Z /\
    Rabs (IZR (Zpos m) * pow2 e' - IZR (Zpos p) * pow2 e)
      <= u53 * (IZR (Zpos p) * pow2 e).
Proof.
  intros HV.
  pose proof (digits2_pos_bounds p) as [Blo Bhi].
  set (dp := Zpos (digits2_pos p)) in *.
  assert (0 < dp)%Z as Hdp by (subst dp; lia).
  assert (-1022 < dp + e)%Z as Hlo.
  { apply pow2_lt_inv. eapply Rle_lt_trans; [exact (proj1 HV)|].
    rewrite pow2_add. apply Rmult_lt_compat_r; [apply pow2_pos|].
    rewrite <- pow2_IZR by lia. apply IZR_lt. exact Bhi. }
  unfold binary_round. fold dp. rewrite fexp_normal by lia.
  unfold shl_align. replace (dp + e - 53 - e)%Z with (dp - 53)%Z by lia.
  destruct (dp - 53)%Z as [|k|k] eqn:Ek.
  - destruct (round_normal_R false (Zpos p) e loc_Exact (2 * Zpos p) 1)
      as (m & e' & Hres & Hm & He' & Herr); try lia.
    + rewrite sticky_exact. loc_simpl. lia.
    + cbn [Zdigits2]. fold dp. lia.
    + replace (IZR (2 * Zpos p) / (2 * 1)) with (IZR (Zpos p))
        by (rewrite mult_IZR; field). exact HV.
    + exists m, e'. repeat split; try lia; try exact Hres.
      replace (IZR (2 * Zpos p) / (2 * 1)) with (IZR (Zpos p)) in Herr
        by (rewrite mult_IZR; field). exact Herr.
  - destruct (round_normal_R false (Zpos p) e loc_Exact (2 * Zpos p) 1)
      as (m & e' & Hres & Hm & He' & Herr); try lia.
    + rewrite sticky_exact. loc_simpl. lia.
    + cbn [Zdigits2]. fold dp. lia.
    + replace (IZR (2 * Zpos p) / (2 * 1)) with (IZR (Zpos p))
        by (rewrite mult_IZR; field). exact HV.
    + exists m, e'. repeat split; try lia; try exact Hres.
      replace (IZR (2 * Zpos p) / (2 * 1)) with (IZR (Zpos p)) in Herr
        by (rewrite mult_IZR; field). exact Herr.
  - pose proof (Pos_iter_xO k p) as Hmz.
    set (mz := Pos.iter xO p k) in *.
    assert (2 ^ (dp - 1) * 2 ^ Zpos k = 2 ^ 52)%Z as P1
      by (rewrite <- Z.pow_add_r by lia; f_equal; lia).
    assert (2 ^ dp * 2 ^ Zpos k = 2 ^ 53)%Z as P2
      by (rewrite <- Z.pow_add_r by lia; f_equal; lia).
    assert (0 < 2 ^ Zpos k)%Z as P3 by (apply Z.pow_pos_nonneg; lia).
    assert (2 ^ 52 <= Zpos mz < 2 ^ 53)%Z as Hmzb by nia.
    assert (IZR (Zpos mz) * pow2 (dp + e - 53) = IZR (Zpos p) * pow2 e) as EV.
    { rewrite Hmz, mult_IZR, pow2_IZR by lia.
      rewrite Rmult_assoc, <- pow2_add. do 2 f_equal. lia. }
    destruct (round_normal_R false (Zpos mz) (dp + e - 53) loc_Exact (2 * Zpos mz) 1)
      as (m & e' & Hres & Hm & He' & Herr); try lia.
    + rewrite sticky_exact. loc_simpl. lia.
    + rewrite (Zdigits2_unique (Zpos mz) 53); try lia.
    + replace (IZR (2 * Zpos mz) / (2 * 1)) with (IZR (Zpos mz))
        by (rewrite mult_IZR; field). rewrite EV. exact HV.
    + exists m, e'. repeat split; try lia; try exact Hres.
      replace (IZR (2 * Zpos mz) / (2 * 1)) with (IZR (Zpos mz)) in Herr
        by (rewrite mult_IZR; field). rewrite EV in Herr. exact Herr.
Qed.

Lemma Prim2SF_SF2Prim_normal (m : positive) (e : Z) :
  (2 ^ 52 <= Zpos m < 2 ^ 53)%Z -> (-1074 <= e <= 971)%Z ->
  Prim2SF (SF2Prim (S754_finite false m e)) = S754_finite false m e.
Proof.
  intros Hm He. apply Prim2SF_SF2Prim.
  unfold SpecFloat.valid_binary, SpecFloat.bounded, SpecFloat.canonical_mantissa.
  pose proof (Zdigits2_unique (Zpos m) 53 ltac:(lia)
                ltac:(change (53 - 1)%Z with 52%Z; lia)) as Hd.
  cbn [Zdigits2] in Hd. rewrite Hd, fexp_normal by lia.
  apply andb_true_iff. split; [apply Z.eqb_eq; lia|].
  apply Z.leb_le. unfold emax, prec. lia.
Qed.

(** Converting a positive integer to binary64. *)
Lemma float_of_int_normal (z : Z) :
  (0 < z)%Z -> IZR z < pow2 1023 ->
  exists v, fnormal (float_of_int z) v /\ Rabs (v - IZR z) <= u53 * IZR z.
Proof.
  intros Hz Hhi. destruct z as [|p|p]; try lia.
  destruct (binary_round_normal p 0) as (m & e & Hres & Hm & He & Herr).
  { rewrite pow2_0, Rmult_1_r. split; [|exact Hhi].
    apply Rle_trans with (pow2 0); [apply pow2_le; lia|].
    rewrite pow2_0. apply IZR_le. lia. }
  rewrite pow2_0, Rmult_1_r in Herr.
  exists (IZR (Zpos m) * pow2 e). split; [|exact Herr].
  exists m, e. repeat split; try lia.
  unfold float_of_int. cbn [binary_normalize]. rewrite Hres.
  apply Prim2SF_SF2Prim_normal; assumption.
Qed.

(** The cube of a positive normal number. *)
Lemma float_pow3_normal (x : float) (vx : R) :
  fnormal x vx ->
  pow2 (-1022) <= vx ^ 3 < pow2 1023 ->
  exists v, fnormal (float_pow x 3) v /\ Rabs (v - vx ^ 3) <= u53 * vx ^ 3.
Proof.
  intros (mx & ex & Hx & Hmx & _ & ->) HV.
  assert ((IZR (Zpos mx) * pow2 ex) ^ 3 = IZR (Zpos (mx ^ 3)) * pow2 (ex * 3)) as EV.
  { rewrite Pos2Z.inj_pow.
    replace (Zpos mx ^ Zpos 3)%Z with (Zpos mx * Zpos mx * Zpos mx)%Z by ring.
    rewrite !mult_IZR.
    replace (ex * 3)%Z with (ex + ex + ex)%Z by lia. rewrite !pow2_add. ring. }
  rewrite EV in *.
  destruct (binary_round_normal (mx ^ 3) (ex * 3) HV) as (m & e & Hres & Hm & He & Herr).
  exists (IZR (Zpos m) * pow2 e). split; [|exact Herr].
  exists m, e. repeat split; try lia.
  unfold float_pow. rewrite Hx. cbn [SFpow andb binary_normalize]. rewrite Hres.
  apply Prim2SF_SF2Prim_normal; assumption.
Qed.

(** Order of two positive normal numbers, from the order of their values. *)
Lemma ltb_normal (x y : float) (vx vy : R) :
  fnormal x vx -> fnormal y vy -> vx < vy -> (x <? y)%float = true.
Proof.
  intros (mx & ex & Hx & Hmx & _ & ->) (my & ey & Hy & Hmy & _ & ->) H.
  apply (ltb_keys x y (1, ex, Zpos mx) (1, ey, Zpos my))%Z.
  - unfold fkey. rewrite Hx. reflexivity.
  - unfold fkey. rewrite Hy. reflexivity.
  - unfold key_lt. right. split; [reflexivity|].
    destruct (Z.lt_trichotomy ex ey) as [L|[L|L]]; [left; exact L| |exfalso].
    + right. split; [exact L|]. subst ey.
      apply lt_IZR. apply Rmult_lt_reg_r with (pow2 ex); [apply pow2_pos|exact H].
    + assert (pow2 (ey + 1) <= pow2 ex) as P by (apply pow2_le; lia).
      rewrite pow2_add in P. assert (pow2 1 = 2) as E1 by exact (powerRZ_1 2).
      rewrite E1 in P.
      pose proof (pow2_pos ey) as Pey. pose proof (pow2_pos ex) as Pex.
      assert (IZR (Zpos my) < 2 * pow2 52) as B1.
      { replace (2 * pow2 52) with (pow2 53).
        - rewrite <- pow2_IZR by lia. apply IZR_lt. lia.
        - change 53%Z with (1 + 52)%Z. rewrite pow2_add, E1. reflexivity. }
      assert (pow2 52 <= IZR (Zpos mx)) as B2
        by (rewrite <- pow2_IZR by lia; apply IZR_le; lia).
      pose proof (pow2_pos 52) as P52.
      assert (IZR (Zpos my) * pow2 ey < 2 * pow2 52 * pow2 ey) by nra.
      assert (pow2 52 * (pow2 ey * 2) <= IZR (Zpos mx) * pow2 ex).
      { apply Rmult_le_compat; lra. }
      lra.
Qed.

End NormalOps.

(** ** Approximation of the energy calculation *)

Section Approx.
Local Open Scope R_scope.

Lemma Rabs_le_bounds (x b : R) : Rabs x <= b -> - b <= x <= b.
Proof. unfold Rabs. destruct (Rcase_abs x); lra. Qed.

(** Products of relative perturbations. *)
Lemma rel_mul3 (p q r a b : R) :
  0 <= a <= / 2 ^ 30 -> 0 <= b <= / 2 ^ 30 ->
  Rabs (p - 1) <= a -> Rabs (q - 1) <= b -> Rabs (r - 1) <= u53 ->
  Rabs (p * q * r - 1) <= a + b + / 2 ^ 52.
Proof.
  intros Ha Hb Hp Hq Hr.
  apply Rabs_le_bounds in Hp. apply Rabs_le_bounds in Hq. apply Rabs_le_bounds in Hr.
  unfold u53 in Hr. apply Rabs_le.
  assert (0 <= a * b <= / 2 ^ 30 * / 2 ^ 30) as Hab by nra.
  assert (1 - a - b <= p * q <= 1 + a + b + a * b) as Hpq by nra.
  assert (0 < p * q <= 2) as Hpq2 by lra.
  split; nra.
Qed.

Lemma rel_inv (q b : R) :
  0 <= b <= / 2 ^ 31 -> Rabs (q - 1) <= b -> Rabs (/ q - 1) <= 2 * b.
Proof.
  intros Hb Hq. apply Rabs_le_bounds in Hq.
  assert (/ 2 ^ 31 < / 2) as H31 by (apply Rinv_lt_contravar; lra).
  assert (0 < q) as Hq0 by lra.
  apply Rabs_le. split.
  - apply Rmult_le_reg_r with q; [exact Hq0|].
    replace ((/ q - 1) * q) with (1 - q) by (field; lra). nra.
  - apply Rmult_le_reg_r with q; [exact Hq0|].
    replace ((/ q - 1) * q) with (1 - q) by (field; lra). nra.
Qed.

Lemma approx_rel (eps : R) (x : float) (X : R) :
  approx eps x X ->
  0 < X /\ exists v p, fnormal x v /\ v = X * p /\ Rabs (p - 1) <= eps.
Proof.
  intros (HX & v & Hv & Hd). split; [exact HX|].
  exists v, (v / X). split; [exact Hv|]. split; [field; lra|].
  replace (v / X - 1) with ((v - X) / X) by (field; lra).
  unfold Rdiv. rewrite Rabs_mult, (Rabs_pos_eq (/ X))
    by (apply Rlt_le, Rinv_0_lt_compat, HX).
  apply Rmult_le_reg_r with X; [exact HX|].
  rewrite Rmult_assoc, Rinv_l, Rmult_1_r by lra. exact Hd.
Qed.

Lemma rel_approx (eps : R) (x : float) (X v p : R) :
  0 < X -> fnormal x v -> v = X * p -> Rabs (p - 1) <= eps -> approx eps x X.
Proof.
  intros HX Hv -> Hp. split; [exact HX|]. exists (X * p). split; [exact Hv|].
  replace (X * p - X) with (X * (p - 1)) by ring.
  rewrite Rabs_mult, (Rabs_pos_eq X), (Rmult_comm eps) by lra.
  apply Rmult_le_compat_l; lra.
Qed.

Lemma approx_weaken (eps eps' : R) (x : float) (X : R) :
  approx eps x X -> eps <= eps' -> approx eps' x X.
Proof.
  intros (HX & v & Hv & Hd) Hle. split; [exact HX|]. exists v. split; [exact Hv|].
  eapply Rle_trans; [exact Hd|]. apply Rmult_le_compat_r; lra.
Qed.

Lemma approx_exact (x : float) (m : positive) (e : Z) :
  Prim2SF x = S754_finite false m e ->
  (2 ^ 52 <= Zpos m < 2 ^ 53)%Z -> (-1074 <= e <= 971)%Z ->
  approx 0 x (IZR (Zpos m) * pow2 e).
Proof.
  intros Hx Hm He.
  assert (0 < IZR (Zpos m) * pow2 e) as Hpos
    by (apply Rmult_lt_0_compat; [apply IZR_lt; lia|apply pow2_pos]).
  split; [exact Hpos|]. exists (IZR (Zpos m) * pow2 e). split.
  - exists m, e. auto.
  - rewrite Rminus_diag, Rabs_R0. lra.
Qed.

Lemma pow2_1022 : pow2 1023 = 2 * pow2 1022.
Proof. change 1023%Z with (1 + 1022)%Z. rewrite pow2_add. f_equal. exact (powerRZ_1 2). Qed.

Lemma pow2_m1021 : pow2 (-1021) = 2 * pow2 (-1022).
Proof. change (-1021)%Z with (1 + -1022)%Z. rewrite pow2_add. f_equal. exact (powerRZ_1 2). Qed.

Lemma pow2_m1019 : pow2 (-1019) = 2 * pow2 (-1020).
Proof. change (-1019)%Z with (1 + -1020)%Z. rewrite pow2_add. f_equal. exact (powerRZ_1 2). Qed.

(** A product of two approximations. *)
Lemma approx_mul (a b : R) (x y : float) (X Y : R) :
  approx a x X -> approx b y Y ->
  0 <= a <= / 2 ^ 30 -> 0 <= b <= / 2 ^ 30 ->
  pow2 (-1021) <= X * Y <= pow2 1022 ->
  approx (a + b + / 2 ^ 52) (x * y) (X * Y).
Proof.
  intros Hx Hy Ha Hb [Hlo Hhi].
  apply approx_rel in Hx as (HX & vx & p & Fx & -> & Hp).
  apply approx_rel in Hy as (HY & vy & q & Fy & -> & Hq).
  assert (/ 2 ^ 30 < / 4) as H30 by (apply Rinv_lt_contravar; lra).
  pose proof (Rabs_le_bounds _ _ Hp) as Bp. pose proof (Rabs_le_bounds _ _ Hq) as Bq.
  assert (0 < X * Y) as HXY by (apply Rmult_lt_0_compat; assumption).
  assert (/ 2 <= p * q < 2) as Bpq by nra.
  pose proof (pow2_pos (-1022)) as P1. pose proof (pow2_pos 1022) as P2.
  destruct (mul_normal x y (X * p) (Y * q) Fx Fy) as (v & Fv & Hv).
  { replace (X * p * (Y * q)) with (X * Y * (p * q)) by ring.
    rewrite pow2_1022, pow2_m1021 in *. split; nra. }
  assert (0 < X * p * (Y * q)) as Hpos by nra.
  apply (rel_approx _ _ _ v (p * q * (v / (X * p * (Y * q))))); try assumption.
  - field. nra.
  - apply rel_mul3; try assumption.
    replace (v / (X * p * (Y * q)) - 1)
      with ((v - X * p * (Y * q)) / (X * p * (Y * q))) by (field; nra).
    unfold Rdiv. rewrite Rabs_mult, (Rabs_pos_eq (/ _))
      by (apply Rlt_le, Rinv_0_lt_compat, Hpos).
    apply Rmult_le_reg_r with (X * p * (Y * q)); [exact Hpos|].
    rewrite Rmult_assoc, Rinv_l, Rmult_1_r by lra. exact Hv.
Qed.

(** A quotient of two approximations. *)
Lemma approx_div (a b : R) (x y : float) (X Y : R) :
  approx a x X -> approx b y Y ->
  0 <= a <= / 2 ^ 30 -> 0 <= b <= / 2 ^ 31 ->
  pow2 (-1019) <= X / Y <= pow2 1022 ->
  approx (a + 2 * b + / 2 ^ 52) (x / y) (X / Y).
Proof.
  intros Hx Hy Ha Hb [Hlo Hhi].
  apply approx_rel in Hx as (HX & vx & p & Fx & -> & Hp).
  apply approx_rel in Hy as (HY & vy & q & Fy & -> & Hq).
  assert (/ 2 ^ 30 < / 4) as H30 by (apply Rinv_lt_contravar; lra).
  assert (/ 2 ^ 31 < / 8) as H31 by (apply Rinv_lt_contravar; lra).
  pose proof (rel_inv q b Hb Hq) as Hq'.
  pose proof (Rabs_le_bounds _ _ Hp) as Bp. pose proof (Rabs_le_bounds _ _ Hq) as Bq.
  pose proof (Rabs_le_bounds _ _ Hq') as Bq'.
  assert (0 < q) as Hq0 by lra.
  assert (0 < X / Y) as HXY by (apply Rdiv_lt_0_compat; assumption).
  assert (/ 2 <= p * / q < 2) as Bpq by nra.
  pose proof (pow2_pos (-1020)) as P1. pose proof (pow2_pos 1022) as P2.
  assert (X * p / (Y * q) = X / Y * (p * / q)) as EV by (field; lra).
  destruct (div_normal x y (X * p) (Y * q) Fx Fy) as (v & Fv & Hv).
  { rewrite EV. rewrite pow2_1022, pow2_m1019 in *. split; nra. }
  assert (0 < X * p / (Y * q)) as Hpos by (rewrite EV; nra).
  apply (rel_approx _ _ _ v (p * / q * (v / (X * p / (Y * q))))); try assumption.
  - field. repeat split; lra.
  - apply rel_mul3; try assumption; try lra.
    replace (v / (X * p / (Y * q)) - 1)
      with ((v - X * p / (Y * q)) / (X * p / (Y * q))) by (field; repeat split; lra).
    unfold Rdiv at 1. rewrite Rabs_mult, (Rabs_pos_eq (/ _))
      by (apply Rlt_le, Rinv_0_lt_compat, Hpos).
    apply Rmult_le_reg_r with (X * p / (Y * q)); [exact Hpos|].
    rewrite Rmult_assoc, Rinv_l, Rmult_1_r by lra. exact Hv.
Qed.

(** The conversion of a positive integer. *)
Lemma approx_int (z : Z) :
  (0 < z)%Z -> IZR z <= pow2 1022 -> approx u53 (float_of_int z) (IZR z).
Proof.
  intros Hz Hhi. pose proof (pow2_pos 1022) as P.
  destruct (float_of_int_normal z Hz) as (v & Fv & Hv).
  { rewrite pow2_1022. lra. }
  split; [apply IZR_lt; exact Hz|]. exists v. auto.
Qed.

Lemma rel_cube (p a : R) :
  0 <= a <= / 2 ^ 30 -> Rabs (p - 1) <= a -> Rabs (p ^ 3 - 1) <= 4 * a.
Proof.
  intros Ha Hp. apply Rabs_le_bounds in Hp.
  assert (/ 2 ^ 30 < / 16) as H30 by (apply Rinv_lt_contravar; lra).
  apply Rabs_le.
  assert (0 <= a * a <= a * / 16) as Haa by nra.
  assert (1 - 2 * a <= p * p <= 1 + 2 * a + a * a) as Hpp by nra.
  split; nra.
Qed.

(** The cube of an approximation. *)
Lemma approx_pow3 (a : R) (x : float) (X : R) :
  approx a x X ->
  0 <= a <= / 2 ^ 32 ->
  pow2 (-1021) <= X ^ 3 <= pow2 1022 ->
  approx (4 * a + / 2 ^ 52) (float_pow x 3) (X ^ 3).
Proof.
  intros Hx Ha [Hlo Hhi].
  apply approx_rel in Hx as (HX & vx & p & Fx & -> & Hp).
  assert (/ 2 ^ 32 < / 2 ^ 30) as H32 by (apply Rinv_lt_contravar; lra).
  assert (/ 2 ^ 30 < / 16) as H30 by (apply Rinv_lt_contravar; lra).
  assert (0 <= a <= / 2 ^ 30) as Ha' by lra.
  pose proof (rel_cube p a Ha' Hp) as Hc.
  pose proof (Rabs_le_bounds _ _ Hc) as Bc.
  assert (0 < X ^ 3) as HX3 by (apply pow_lt; exact HX).
  assert ((X * p) ^ 3 = X ^ 3 * p ^ 3) as EV by ring.
  pose proof (pow2_pos (-1022)) as P1. pose proof (pow2_pos 1022) as P2.
  destruct (float_pow3_normal x (X * p) Fx) as (v & Fv & Hv).
  { rewrite EV. rewrite pow2_1022, pow2_m1021 in *. split; nra. }
  assert (0 < (X * p) ^ 3) as Hpos by (rewrite EV; nra).
  set (W := (X * p) ^ 3) in *. clearbody W.
  apply (rel_approx _ _ _ v (p ^ 3 * 1 * (v / W))); try assumption.
  - rewrite EV. field. split; nra.
  - replace (4 * a + / 2 ^ 52) with (4 * a + 0 + / 2 ^ 52) by ring.
    apply rel_mul3; try assumption; try lra.
    + rewrite Rminus_diag, Rabs_R0. lra.
    + replace (v / W - 1) with ((v - W) / W) by (field; lra).
      unfold Rdiv. rewrite Rabs_mult, (Rabs_pos_eq (/ _))
        by (apply Rlt_le, Rinv_0_lt_compat, Hpos).
      apply Rmult_le_reg_r with W; [exact Hpos|].
      rewrite Rmult_assoc, Rinv_l, Rmult_1_r by lra. exact Hv.
Qed.

(** Two approximations whose targets are far enough apart are ordered. *)
Lemma approx_ltb (a : R) (x y : float) (X Y : R) :
  approx a x X -> approx a y Y ->
  0 <= a <= / 2 ^ 30 ->
  X * (1 + / 2 ^ 20) <= Y ->
  (x <? y)%float = true.
Proof.
  intros Hx Hy Ha Hgap.
  apply approx_rel in Hx as (HX & vx & p & Fx & -> & Hp).
  apply approx_rel in Hy as (HY & vy & q & Fy & -> & Hq).
  apply Rabs_le_bounds in Hp. apply Rabs_le_bounds in Hq.
  assert (/ 2 ^ 30 < / 2 ^ 22) as H30 by (apply Rinv_lt_contravar; lra).
  assert (/ 2 ^ 22 * 4 = / 2 ^ 20) as H22 by (field).
  apply (ltb_normal x y (X * p) (Y * q) Fx Fy).
  assert (X * p <= X * (1 + a)) by (apply Rmult_le_compat_l; lra).
  assert (Y * (1 - a) <= Y * q) by (apply Rmult_le_compat_l; lra).
  assert (X * (1 + a) < Y * (1 - a)); [|lra].
  assert (X * (1 + / 2 ^ 20) * (1 - a) <= Y * (1 - a))
    by (apply Rmult_le_compat_r; lra).
  assert (X * (1 + a) < X * ((1 + / 2 ^ 20) * (1 - a))); [|lra].
  apply Rmult_lt_compat_l; [exact HX|]. nra.
Qed.

End Approx.

Section Pipeline.
Local Open Scope R_scope.

Lemma pow2_neg_nat (n : nat) : pow2 (- Z.of_nat n) = / 2 ^ n.
Proof. unfold pow2. rewrite powerRZ_neg', <- pow_powerRZ. reflexivity. Qed.

Lemma pow2_nat (n : nat) : pow2 (Z.of_nat n) = 2 ^ n.
Proof. unfold pow2. rewrite <- pow_powerRZ. reflexivity. Qed.

(** Targets between 2^-100 and 2^100 are far inside the normal range. *)
Lemma safe_range (X : R) :
  / 2 ^ 100 <= X <= 2 ^ 100 ->
  (pow2 (-1021) <= X <= pow2 1022) /\ (pow2 (-1019) <= X <= pow2 1022).
Proof.
  intros [Hlo Hhi].
  assert (pow2 (-1019) <= / 2 ^ 100) as L1
    by (replace (/ 2 ^ 100) with (pow2 (-100)) by exact (pow2_neg_nat 100);
        apply pow2_le; lia).
  assert (pow2 (-1021) <= pow2 (-1019)) as L2 by (apply pow2_le; lia).
  assert (2 ^ 100 <= pow2 1022) as L3
    by (replace (2 ^ 100) with (pow2 100) by exact (pow2_nat 100);
        apply pow2_le; lia).
  lra.
Qed.

Lemma approx_const (x : float) (m : positive) (e : Z) (V : R) :
  Prim2SF x = S754_finite false m e ->
  (2 ^ 52 <= Zpos m < 2 ^ 53)%Z -> (-1074 <= e <= 971)%Z ->
  V = IZR (Zpos m) * pow2 e ->
  approx 0 x V.
Proof. intros Hx Hm He ->. apply approx_exact; assumption. Qed.

Lemma approx_two : approx 0 (float_of_int 2) 2.
Proof.
  apply (approx_const _ 4503599627370496 (-51)); try reflexivity; try lia.
  replace (pow2 (-51)) with (/ 2 ^ 51) by (symmetry; exact (pow2_neg_nat 51)). lra.
Qed.

Lemma approx_half : approx 0 0.5%float (/ 2).
Proof.
  apply (approx_const _ 4503599627370496 (-53)); try reflexivity; try lia.
  replace (pow2 (-53)) with (/ 2 ^ 53) by (symmetry; exact (pow2_neg_nat 53)). lra.
Qed.

Lemma approx_four_thirds_pi :
  approx 0 (int_truediv 4 3 * math_pi)%float Ideal.four_thirds_pi.
Proof.
  apply (approx_const _ 4716158501352293 (-50)); try reflexivity; lia.
Qed.

Lemma approx_megaton : approx 0 4.184e15%float 4184000000000000.
Proof.
  apply (approx_const _ 8368000000000000 (-1)); try reflexivity; try lia.
  replace (pow2 (-1)) with (/ 2 ^ 1) by (symmetry; exact (pow2_neg_nat 1)). lra.
Qed.

Lemma mul_bounds (a b c d X Y : R) :
  0 <= a -> a <= X <= b -> 0 <= c -> c <= Y <= d ->
  a * c <= X * Y <= b * d.
Proof. intros. split; apply Rmult_le_compat; lra. Qed.

Lemma slider_IZR (s : slider) (z : Z) :
  in_slider s z -> IZR (s_min s) <= IZR z <= IZR (s_max s).
Proof. intros [H1 H2]. split; apply IZR_le; assumption. Qed.

Lemma four_thirds_pi_bounds : 4 <= Ideal.four_thirds_pi <= 5.
Proof. unfold Ideal.four_thirds_pi. lra. Qed.

Lemma radius_bounds (d : Z) :
  in_slider diameter_slider d -> 5 <= Ideal.radius d <= 1000.
Proof.
  intros H. apply slider_IZR in H. cbn in H. unfold Ideal.radius. lra.
Qed.

Lemma cube_bounds (d : Z) :
  in_slider diameter_slider d -> 125 <= Ideal.radius d ^ 3 <= 1000000000.
Proof.
  intros H. apply radius_bounds in H. set (r := Ideal.radius d) in *. clearbody r.
  pose proof (mul_bounds 5 1000 5 1000 r r ltac:(lra) H ltac:(lra) H) as H2.
  pose proof (mul_bounds 5 1000 (5 * 5) (1000 * 1000) r (r * r)
                ltac:(lra) H ltac:(lra) H2) as H3.
  replace (r ^ 3) with (r * (r * r)) by ring. lra.
Qed.

Lemma volume_bounds (d : Z) :
  in_slider diameter_slider d -> 500 <= Ideal.volume d <= 5000000000.
Proof.
  intros H. apply cube_bounds in H. unfold Ideal.volume.
  pose proof (mul_bounds 4 5 125 1000000000 _ _ ltac:(lra) four_thirds_pi_bounds
                ltac:(lra) H). lra.
Qed.

Lemma mass_bounds (d rho : Z) :
  in_slider diameter_slider d -> in_slider density_slider rho ->
  250000 <= Ideal.mass d rho <= 40000000000000.
Proof.
  intros Hd Hr. apply volume_bounds in Hd. apply slider_IZR in Hr. cbn in Hr.
  unfold Ideal.mass.
  pose proof (mul_bounds 500 5000000000 500 8000 _ _ ltac:(lra) Hd ltac:(lra) Hr). lra.
Qed.

Lemma speed_square (v : Z) : IZR (vel_ms v ^ 2) = (IZR v * 1000) ^ 2.
Proof. unfold vel_ms. rewrite Z.pow_2_r, !mult_IZR. ring. Qed.

Lemma speed_square_bounds (v : Z) :
  in_slider velocity_slider v -> 25000000 <= IZR (vel_ms v ^ 2) <= 1600000000.
Proof.
  intros H. apply slider_IZR in H. cbn in H. rewrite speed_square.
  pose proof (mul_bounds 5000 40000 5000 40000 (IZR v * 1000) (IZR v * 1000)
                ltac:(lra) ltac:(lra) ltac:(lra) ltac:(lra)) as H2.
  replace ((IZR v * 1000) ^ 2) with (IZR v * 1000 * (IZR v * 1000)) by ring. lra.
Qed.

Lemma energy_joules_bounds (d v rho : Z) :
  valid_parameters d v rho ->
  3000000000000 <= Ideal.energy_joules d v rho <= 32000000000000000000000.
Proof.
  intros (Hd & Hv & Hr).
  pose proof (mass_bounds d rho Hd Hr) as Hm.
  pose proof (speed_square_bounds v Hv) as Hs.
  unfold Ideal.energy_joules.
  pose proof (mul_bounds 125000 20000000000000 25000000 1600000000
                (/ 2 * Ideal.mass d rho) _ ltac:(lra) ltac:(lra) ltac:(lra) Hs). lra.
Qed.

Lemma energy_megatons_bounds (d v rho : Z) :
  valid_parameters d v rho ->
  / 2000 <= Ideal.energy_megatons d v rho <= 8000000.
Proof.
  intros H. apply energy_joules_bounds in H. unfold Ideal.energy_megatons. lra.
Qed.

Lemma approx_radius (d : Z) :
  in_slider diameter_slider d -> approx (/ 2 ^ 50) (radius d) (Ideal.radius d).
Proof.
  intros H. pose proof (radius_bounds d H) as B.
  pose proof (slider_IZR _ _ H) as Hd. cbn in Hd.
  assert (approx u53 (float_of_int d) (IZR d)) as A.
  { apply approx_int; [destruct H; cbn in *; lia|].
    apply (proj2 (proj1 (safe_range (IZR d) ltac:(lra)))). }
  unfold u53 in *.
  eapply approx_weaken.
  - unfold radius, int_truediv, Ideal.radius.
    apply (approx_div _ _ _ _ _ _ A approx_two); try lra.
    apply safe_range. unfold Ideal.radius in B. lra.
  - lra.
Qed.

Lemma approx_volume (d : Z) :
  in_slider diameter_slider d -> approx (/ 2 ^ 46) (volume d) (Ideal.volume d).
Proof.
  intros H. pose proof (cube_bounds d H) as B. pose proof (volume_bounds d H) as Bv.
  pose proof four_thirds_pi_bounds as Bk.
  assert (approx (/ 2 ^ 47) (float_pow (radius d) 3) (Ideal.radius d ^ 3)) as A.
  { eapply approx_weaken.
    - apply (approx_pow3 _ _ _ (approx_radius d H)); [lra|]. apply safe_range. lra.
    - lra. }
  eapply approx_weaken.
  - unfold volume, Ideal.volume.
    apply (approx_mul _ _ _ _ _ _ approx_four_thirds_pi A); try lra.
    apply safe_range. unfold Ideal.volume in Bv. lra.
  - lra.
Qed.

Lemma approx_mass (d rho : Z) :
  in_slider diameter_slider d -> in_slider density_slider rho ->
  approx (/ 2 ^ 45) (mass d rho) (Ideal.mass d rho).
Proof.
  intros Hd Hr. pose proof (mass_bounds d rho Hd Hr) as B.
  pose proof (slider_IZR _ _ Hr) as Br. cbn in Br.
  assert (approx u53 (float_of_int rho) (IZR rho)) as A.
  { apply approx_int; [destruct Hr; cbn in *; lia|].
    apply (proj2 (proj1 (safe_range (IZR rho) ltac:(lra)))). }
  unfold u53 in *.
  eapply approx_weaken.
  - unfold mass, Ideal.mass.
    apply (approx_mul _ _ _ _ _ _ (approx_volume d Hd) A); try lra.
    apply safe_range. unfold Ideal.mass in B. lra.
  - lra.
Qed.

Lemma approx_energy_joules (d v rho : Z) :
  valid_parameters d v rho ->
  approx (/ 2 ^ 43) (energy_joules d v rho) (Ideal.energy_joules d v rho).
Proof.
  intros H. pose proof (energy_joules_bounds d v rho H) as B.
  destruct H as (Hd & Hv & Hr).
  pose proof (mass_bounds d rho Hd Hr) as Bm.
  pose proof (speed_square_bounds v Hv) as Bs.
  assert (approx (/ 2 ^ 44) (0.5 * mass d rho)%float (/ 2 * Ideal.mass d rho)) as A1.
  { eapply approx_weaken.
    - apply (approx_mul _ _ _ _ _ _ approx_half (approx_mass d rho Hd Hr)); try lra.
      apply safe_range. lra.
    - lra. }
  assert (approx u53 (float_of_int (vel_ms v ^ 2)) (IZR (vel_ms v ^ 2))) as A2.
  { apply approx_int; [apply lt_IZR; lra|].
    apply (proj2 (proj1 (safe_range (IZR (vel_ms v ^ 2)) ltac:(lra)))). }
  unfold u53 in *.
  eapply approx_weaken.
  - unfold energy_joules, Ideal.energy_joules.
    apply (approx_mul _ _ _ _ _ _ A1 A2); try lra.
    apply safe_range. unfold Ideal.energy_joules in B. lra.
  - lra.
Qed.

Lemma approx_energy_megatons (d v rho : Z) :
  valid_parameters d v rho ->
  approx (/ 2 ^ 42) (energy_megatons d v rho) (Ideal.energy_megatons d v rho).
Proof.
  intros H. pose proof (energy_megatons_bounds d v rho H) as B.
  eapply approx_weaken.
  - unfold energy_megatons, Ideal.energy_megatons.
    apply (approx_div _ _ _ _ _ _ (approx_energy_joules d v rho H) approx_megaton);
      try lra.
    apply safe_range. unfold Ideal.energy_megatons in B. lra.
  - lra.
Qed.

(** *** Gaps between the exact values at distinct slider positions *)

Lemma gap_scale (F X Y : R) :
  0 <= F -> X * (1 + / 2 ^ 20) <= Y -> F * X * (1 + / 2 ^ 20) <= F * Y.
Proof. intros HF H. rewrite Rmult_assoc. apply Rmult_le_compat_l; assumption. Qed.

Lemma density_gap (rho rho' : Z) :
  in_slider density_slider rho -> (rho < rho')%Z ->
  IZR rho * (1 + / 2 ^ 20) <= IZR rho'.
Proof.
  intros H Hlt. apply slider_IZR in H. cbn in H.
  assert (IZR rho + 1 <= IZR rho') by (rewrite <- plus_IZR; apply IZR_le; lia).
  lra.
Qed.

Lemma cube_gap (d d' : Z) :
  in_slider diameter_slider d -> (d < d')%Z ->
  Ideal.radius d ^ 3 * (1 + / 2 ^ 20) <= Ideal.radius d' ^ 3.
Proof.
  intros H Hlt. pose proof (radius_bounds d H) as B.
  assert (Ideal.radius d + / 2 <= Ideal.radius d') as G.
  { unfold Ideal.radius.
    assert (IZR d + 1 <= IZR d') by (rewrite <- plus_IZR; apply IZR_le; lia). lra. }
  set (r := Ideal.radius d) in *. set (r' := Ideal.radius d') in *. clearbody r r'.
  assert ((r + / 2) ^ 3 <= r' ^ 3) as M by (apply pow_incr; lra).
  assert (r ^ 3 * (1 + / 2 ^ 20) <= (r + / 2) ^ 3); [|lra].
  assert (0 <= r * r) as S by nra.
  assert (r * (r * r) * / 2 ^ 20 <= 1 * (r * r)) as T.
  { replace (r * (r * r) * / 2 ^ 20) with (r * / 2 ^ 20 * (r * r)) by ring.
    apply Rmult_le_compat_r; lra. }
  replace (r ^ 3) with (r * (r * r)) by ring.
  replace ((r + / 2) ^ 3) with (r * (r * r) + 3 / 2 * (r * r) + 3 / 4 * r + / 8) by field.
  lra.
Qed.

Lemma speed_gap (v v' : Z) :
  in_slider velocity_slider v -> (v < v')%Z ->
  IZR (vel_ms v ^ 2) * (1 + / 2 ^ 20) <= IZR (vel_ms v' ^ 2).
Proof.
  intros H Hlt. apply slider_IZR in H. cbn in H. rewrite !speed_square.
  assert (IZR v + 1 <= IZR v') as G by (rewrite <- plus_IZR; apply IZR_le; lia).
  set (x := IZR v) in *. set (x' := IZR v') in *. clearbody x x'.
  assert (((x + 1) * 1000) ^ 2 <= (x' * 1000) ^ 2) as M by (apply pow_incr; lra).
  assert ((x * 1000) ^ 2 * (1 + / 2 ^ 20) <= ((x + 1) * 1000) ^ 2); [|lra].
  assert (0 <= x * x <= 40 * x) as S by nra.
  replace ((x * 1000) ^ 2) with (1000000 * (x * x)) by ring.
  replace (((x + 1) * 1000) ^ 2) with (1000000 * (x * x) + 2000000 * x + 1000000) by ring.
  lra.
Qed.

Lemma mass_gap_diameter (d d' rho : Z) :
  in_slider diameter_slider d -> in_slider density_slider rho -> (d < d')%Z ->
  Ideal.mass d rho * (1 + / 2 ^ 20) <= Ideal.mass d' rho.
Proof.
  intros Hd Hr Hlt. pose proof (cube_gap d d' Hd Hlt) as G.
  apply slider_IZR in Hr. cbn in Hr. pose proof four_thirds_pi_bounds as Bk.
  unfold Ideal.mass, Ideal.volume.
  replace (Ideal.four_thirds_pi * Ideal.radius d ^ 3 * IZR rho)
    with (Ideal.four_thirds_pi * IZR rho * Ideal.radius d ^ 3) by ring.
  replace (Ideal.four_thirds_pi * Ideal.radius d' ^ 3 * IZR rho)
    with (Ideal.four_thirds_pi * IZR rho * Ideal.radius d' ^ 3) by ring.
  apply gap_scale; [|exact G]. apply Rmult_le_pos; lra.
Qed.

Lemma mass_gap_density (d rho rho' : Z) :
  in_slider diameter_slider d -> in_slider density_slider rho -> (rho < rho')%Z ->
  Ideal.mass d rho * (1 + / 2 ^ 20) <= Ideal.mass d rho'.
Proof.
  intros Hd Hr Hlt. pose proof (density_gap rho rho' Hr Hlt) as G.
  pose proof (volume_bounds d Hd) as Bv.
  unfold Ideal.mass. apply gap_scale; [lra|exact G].
Qed.

Lemma energy_gap_mass (m m' s : R) :
  0 <= s -> m * (1 + / 2 ^ 20) <= m' ->
  (/ 2 * m * s) * (1 + / 2 ^ 20) <= / 2 * m' * s /\
  (/ 2 * m * s / 4184000000000000) * (1 + / 2 ^ 20)
    <= / 2 * m' * s / 4184000000000000.
Proof.
  intros Hs G.
  assert (/ 2 * m * s * (1 + / 2 ^ 20) <= / 2 * m' * s) as E.
  { replace (/ 2 * m * s) with (/ 2 * s * m) by ring.
    replace (/ 2 * m' * s) with (/ 2 * s * m') by ring.
    apply gap_scale; [|exact G]. apply Rmult_le_pos; lra. }
  split; [exact E|]. lra.
Qed.

Lemma energy_gap_speed (m s s' : R) :
  0 <= m -> s * (1 + / 2 ^ 20) <= s' ->
  (/ 2 * m * s) * (1 + / 2 ^ 20) <= / 2 * m * s' /\
  (/ 2 * m * s / 4184000000000000) * (1 + / 2 ^ 20)
    <= / 2 * m * s' / 4184000000000000.
Proof.
  intros Hm G.
  assert (/ 2 * m * s * (1 + / 2 ^ 20) <= / 2 * m * s') as E.
  { apply gap_scale; [|exact G]. apply Rmult_le_pos; lra. }
  split; [exact E|]. lra.
Qed.

End Pipeline.

Local Open Scope Z_scope.

(** C7. On the slider ranges the computed mass strictly increases with the
    diameter and with the density, and the computed energy (in joules and
    in megatons) strictly increases with the diameter, the density and the
    speed, the other two inputs being held fixed. *)
Theorem computeImpact_strictly_increasing (d v rho d' v' rho' : Z) :
  valid_parameters d v rho -> valid_parameters d' v' rho' ->
  (d < d' ->
     (mass_kg (computeImpact d v rho) <? mass_kg (computeImpact d' v rho))%float = true /\
     (energy_j (computeImpact d v rho) <? energy_j (computeImpact d' v rho))%float = true /\
     (energy_mt (computeImpact d v rho) <? energy_mt (computeImpact d' v rho))%float = true) /\
  (rho < rho' ->
     (mass_kg (computeImpact d v rho) <? mass_kg (computeImpact d v rho'))%float = true /\
     (energy_j (computeImpact d v rho) <? energy_j (computeImpact d v rho'))%float = true /\
     (energy_mt (computeImpact d v rho) <? energy_mt (computeImpact d v rho'))%float = true) /\
  (v < v' ->
     (energy_j (computeImpact d v rho) <? energy_j (computeImpact d v' rho))%float = true /\
     (energy_mt (computeImpact d v rho) <? energy_mt (computeImpact d v' rho))%float = true).
Proof.
  intros H H'. pose proof H as (Hd & Hv & Hr). pose proof H' as (Hd' & Hv' & Hr').
  cbn [computeImpact mass_kg energy_j energy_mt].
  pose proof (speed_square_bounds v Hv) as Bs.
  assert (/ 2 ^ 42 <= / 2 ^ 30)%R as E42 by (apply Rinv_le_contravar; lra).
  assert (/ 2 ^ 43 <= / 2 ^ 30)%R as E43 by (apply Rinv_le_contravar; lra).
  assert (/ 2 ^ 45 <= / 2 ^ 30)%R as E45 by (apply Rinv_le_contravar; lra).
  assert (0 < / 2 ^ 45)%R as P45 by (apply Rinv_0_lt_compat; lra).
  assert (0 < / 2 ^ 43)%R as P43 by (apply Rinv_0_lt_compat; lra).
  assert (0 < / 2 ^ 42)%R as P42 by (apply Rinv_0_lt_compat; lra).
  split; [|split].
  - intros Hlt.
    assert (valid_parameters d' v rho) as Hn by exact (conj Hd' (conj Hv Hr)).
    pose proof (mass_gap_diameter d d' rho Hd Hr Hlt) as G.
    destruct (energy_gap_mass _ _ (IZR (vel_ms v ^ 2)) ltac:(lra) G) as (Gj & Gm).
    split; [|split].
    + apply (approx_ltb _ _ _ _ _ (approx_mass d rho Hd Hr) (approx_mass d' rho Hd' Hr));
        [lra|exact G].
    + apply (approx_ltb _ _ _ _ _ (approx_energy_joules d v rho H)
               (approx_energy_joules d' v rho Hn)); [lra|exact Gj].
    + apply (approx_ltb _ _ _ _ _ (approx_energy_megatons d v rho H)
               (approx_energy_megatons d' v rho Hn)); [lra|exact Gm].
  - intros Hlt.
    assert (valid_parameters d v rho') as Hn by exact (conj Hd (conj Hv Hr')).
    pose proof (mass_gap_density d rho rho' Hd Hr Hlt) as G.
    destruct (energy_gap_mass _ _ (IZR (vel_ms v ^ 2)) ltac:(lra) G) as (Gj & Gm).
    split; [|split].
    + apply (approx_ltb _ _ _ _ _ (approx_mass d rho Hd Hr) (approx_mass d rho' Hd Hr'));
        [lra|exact G].
    + apply (approx_ltb _ _ _ _ _ (approx_energy_joules d v rho H)
               (approx_energy_joules d v rho' Hn)); [lra|exact Gj].
    + apply (approx_ltb _ _ _ _ _ (approx_energy_megatons d v rho H)
               (approx_energy_megatons d v rho' Hn)); [lra|exact Gm].
  - intros Hlt.
    assert (valid_parameters d v' rho) as Hn by exact (conj Hd (conj Hv' Hr)).
    pose proof (speed_gap v v' Hv Hlt) as G.
    pose proof (mass_bounds d rho Hd Hr) as Bm.
    destruct (energy_gap_speed (Ideal.mass d rho) _ _ ltac:(lra) G) as (Gj & Gm).
    split.
    + apply (approx_ltb _ _ _ _ _ (approx_energy_joules d v rho H)
               (approx_energy_joules d v' rho Hn)); [lra|exact Gj].
    + apply (approx_ltb _ _ _ _ _ (approx_energy_megatons d v rho H)
               (approx_energy_megatons d v' rho Hn)); [lra|exact Gm].
Qed.

Lemma computeImpact_strictly_increasing_witness :
  valid_parameters 300 20 3000 /\ valid_parameters 301 21 3001 /\
  (mass_kg (computeImpact 300 20 3000) <? mass_kg (computeImpact 301 20 3000))%float = true /\
  (energy_mt (computeImpact 300 20 3000) <? energy_mt (computeImpact 300 21 3000))%float = true.
Proof.
  assert (H : valid_parameters 300 20 3000)
    by (unfold valid_parameters, in_slider; cbn; lia).
  assert (H' : valid_parameters 301 21 3001)
    by (unfold valid_parameters, in_slider; cbn; lia).
  destruct (computeImpact_strictly_increasing 300 20 3000 301 21 3001 H H')
    as (Hd & _ & Hv).
  split; [exact H|]. split; [exact H'|]. split.
  - exact (proj1 (Hd ltac:(lia))).
  - exact (proj2 (Hv ltac:(lia))).
Defined.


(** ** Magnitudes of a negative energy *)

(** A number at most -2^-1006 is minus infinity or a negative normal number
    of absolute value at least 2^-1006. *)
Lemma below_minus_tiny (e : float) :
  (e <=? -0x1p-1006)%float = true ->
  Prim2SF e = S754_infinity true \/
  exists (mx : positive) (ex : Z),
    Prim2SF e = S754_finite true mx ex /\
    2 ^ 52 <= Zpos mx < 2 ^ 53 /\ ex <= 971 /\
    (pow2 (-1006) <= IZR (Zpos mx) * pow2 ex)%R.
Proof.
  intros H. apply leb_key in H as (k & k' & He & Hc & H).
  vm_compute in Hc. injection Hc as <-.
  pose proof (Prim2SF_valid e) as V. unfold fkey in He.
  destruct (Prim2SF e) as [s|s| |s mx ex]; cbn in He.
  - injection He as <-. unfold key_lt in H. destruct H as [H|[=]]; lia.
  - destruct s; [left; reflexivity|].
    injection He as <-. unfold key_lt in H. destruct H as [H|[=]]; lia.
  - discriminate.
  - right. destruct s.
    2:{ injection He as <-. unfold key_lt in H. destruct H as [H|[=]]; lia. }
    injection He as <-.
    assert (-1058 < ex \/ (ex = -1058 /\ 2 ^ 52 <= Zpos mx)) as Hex.
    { unfold key_lt in H. destruct H as [H|H]; [lia|]. injection H; intros; lia. }
    unfold SpecFloat.valid_binary, SpecFloat.bounded, SpecFloat.canonical_mantissa in V.
    apply andb_true_iff in V as [V1 V2]. apply Z.eqb_eq in V1. apply Z.leb_le in V2.
    unfold fexp, SpecFloat.emin, prec, emax in V1, V2.
    pose proof (digits2_pos_bounds mx) as D.
    assert (Zpos (digits2_pos mx) = 53) as D53 by lia.
    rewrite D53 in D. change (53 - 1) with 52 in D.
    exists mx, ex. split; [reflexivity|]. split; [exact D|]. split; [lia|].
    apply Rle_trans with (pow2 52 * pow2 ex)%R.
    + rewrite <- pow2_add. apply pow2_le. lia.
    + apply Rmult_le_compat_r; [apply Rlt_le, pow2_pos|].
      rewrite <- pow2_IZR by lia. apply IZR_le. lia.
Qed.

(** Dividing such a number by a constant between 2 and 2^14 gives a number
    strictly below zero. *)
Lemma div_strictly_negative (e c : float) (my : positive) (ey : Z) :
  Prim2SF c = S754_finite false my ey ->
  2 ^ 52 <= Zpos my < 2 ^ 53 ->
  (2 <= IZR (Zpos my) * pow2 ey <= 2 ^ 14)%R ->
  (e <=? -0x1p-1006)%float = true ->
  (e / c <? 0)%float = true.
Proof.
  intros Hc Hmy Hvc He.
  destruct (below_minus_tiny e He) as [Hinf|(mx & ex & Hx & Hmx & Hex & Hvx)].
  - apply (ltb_keys _ 0 (-2, 0, 0) (0, 0, 0)); [|reflexivity|unfold key_lt; lia].
    unfold fkey. rewrite div_spec, Hinf, Hc. reflexivity.
  - destruct (SFdiv_normal true mx my ex ey Hmx Hmy) as (m & e' & Hres & _).
    { set (vx := (IZR (Zpos mx) * pow2 ex)%R) in *.
      set (vc := (IZR (Zpos my) * pow2 ey)%R) in *.
      assert (vx < pow2 1024)%R as Hhi.
      { subst vx. change 1024 with (53 + 971). rewrite pow2_add.
        apply Rle_lt_trans with (IZR (Zpos mx) * pow2 971)%R.
        - apply Rmult_le_compat_l; [apply IZR_le; lia|apply pow2_le; lia].
        - apply Rmult_lt_compat_r; [apply pow2_pos|].
          rewrite <- pow2_IZR by lia. apply IZR_lt. lia. }
      assert (pow2 1024 = 2 * pow2 1023)%R as E1
        by (change 1024 with (1 + 1023); rewrite pow2_add; f_equal; exact (powerRZ_1 2)).
      assert (pow2 (-1006) = pow2 (-1020) * 2 ^ 14)%R as E2.
      { change (-1006) with (-1020 + Z.of_nat 14). rewrite pow2_add. reflexivity. }
      pose proof (pow2_pos (-1020)) as P1. pose proof (pow2_pos 1023) as P2.
      clearbody vx vc. split.
      - apply Rmult_le_reg_r with vc; [lra|].
        replace (vx / vc * vc)%R with vx by (field; lra). nra.
      - apply Rmult_lt_reg_r with vc; [lra|].
        replace (vx / vc * vc)%R with vx by (field; lra). nra. }
    apply (ltb_keys _ 0 (-1, - e', Zneg m) (0, 0, 0)); [|reflexivity|unfold key_lt; lia].
    unfold fkey. rewrite div_spec, Hx, Hc. unfold SF64div. rewrite Hres. reflexivity.
Qed.

Lemma hundred_range (k : nat) (m : positive) :
  (2 <= IZR (Zpos m) / 2 ^ k <= 2 ^ 14)%R ->
  (2 <= IZR (Zpos m) * pow2 (- Z.of_nat k) <= 2 ^ 14)%R.
Proof.
  intros H. unfold pow2. rewrite powerRZ_neg', <- pow_powerRZ. exact H.
Qed.

(** C9 (as stated, refuted).  The smallest negative binary64, -2^-1074
    (written -5e-324 in Python), is negative, yet its three magnitudes are
    the zero -0.0, which is not below zero. *)
Lemma values_tiny_negative_not_negative :
  (-0x1p-1074 <? 0)%float = true /\
  values (-0x1p-1074) = [PyFloat (-0); PyFloat (-0); PyFloat (-0)]%float /\
  ~ Forall (fun v => (pynum_float v <? 0)%float = true) (values (-0x1p-1074)).
Proof.
  split; [reflexivity|]. split; [reflexivity|].
  intros H. inversion H as [|v l H1 _]. vm_compute in H1. discriminate H1.
Qed.

(** C9 (amended).  For a negative energy no magnitude is clamped: the three
    values are the quotients e/100, e/1000 and e/10000 themselves, each of
    them at most zero and carrying the minus sign, so that none is ever
    raised to 0 or to a positive number; and as soon as the energy is at
    most -2^-1006 (about -1.5e-303, far from the underflow threshold) all
    three are strictly negative. *)
Theorem values_negative_unclamped :
  (forall e : float, (e <? 0)%float = true ->
     values e = [PyFloat (e / 100); PyFloat (e / 1000); PyFloat (e / 10000)]%float /\
     Forall (fun v => (pynum_float v <=? 0)%float = true /\
                      SFsign_is true (Prim2SF (pynum_float v))) (values e)) /\
  (forall e : float, (e <=? -0x1p-1006)%float = true ->
     Forall (fun v => (pynum_float v <? 0)%float = true) (values e)).
Proof.
  assert (forall e : float, (e <? 0)%float = true ->
     values e = [PyFloat (e / 100); PyFloat (e / 1000); PyFloat (e / 10000)]%float /\
     Forall (fun v => (pynum_float v <=? 0)%float = true /\
                      SFsign_is true (Prim2SF (pynum_float v))) (values e)) as Hneg.
  { intros e H.
    destruct (div_negative e 100 _ _ eq_refl H) as (M1 & L1 & S1).
    destruct (div_negative e 1000 _ _ eq_refl H) as (M2 & L2 & S2).
    destruct (div_negative e 10000 _ _ eq_refl H) as (M3 & L3 & S3).
    unfold values. rewrite M1, M2, M3. split; [reflexivity|].
    repeat constructor; assumption. }
  split; [exact Hneg|].
  intros e H.
  assert ((e <? 0)%float = true) as H0.
  { apply leb_key in H as (k & k' & He & Hc & H).
    vm_compute in Hc. injection Hc as <-.
    apply (ltb_keys e 0 k (0, 0, 0) He fkey_0).
    destruct k as [[a b] c]. unfold key_lt in *.
    destruct H as [H|H]; [lia|]. injection H; intros; lia. }
  rewrite (proj1 (Hneg e H0)). cbn [pynum_float].
  repeat constructor.
  - apply (div_strictly_negative e 100 7036874417766400 (-46) eq_refl); [lia| |exact H].
    apply (hundred_range 46). lra.
  - apply (div_strictly_negative e 1000 8796093022208000 (-43) eq_refl); [lia| |exact H].
    apply (hundred_range 43). lra.
  - apply (div_strictly_negative e 10000 5497558138880000 (-39) eq_refl); [lia| |exact H].
    apply (hundred_range 39). lra.
Qed.

Lemma values_negative_unclamped_witness :
  (-250 <? 0)%float = true /\ (-250 <=? -0x1p-1006)%float = true /\
  values (-250) = [PyFloat (-250 / 100); PyFloat (-250 / 1000); PyFloat (-250 / 10000)]%float /\
  Forall (fun v => (pynum_float v <? 0)%float = true) (values (-250)).
Proof.
  split; [reflexivity|]. split; [reflexivity|]. split.
  - exact (proj1 (proj1 values_negative_unclamped (-250)%float eq_refl)).
  - exact (proj2 values_negative_unclamped (-250)%float eq_refl).
Defined.

(** ** Further properties of the energy calculation *)

Lemma ltb_leb (x y : float) : (x <? y)%float = true -> (x <=? y)%float = true.
Proof.
  intros H. apply ltb_key in H as (k & k' & Hx & Hy & H).
  apply leb_key. exists k, k'. auto.
Qed.

Lemma leb_trans (x y z : float) :
  (x <=? y)%float = true -> (y <=? z)%float = true -> (x <=? z)%float = true.
Proof.
  intros H1 H2.
  apply leb_key in H1 as (k1 & k2 & Hx & Hy & H1).
  apply leb_key in H2 as (k2' & k3 & Hy' & Hz & H2).
  rewrite Hy in Hy'. injection Hy' as <-.
  apply leb_key. exists k1, k3. repeat split; try assumption.
  destruct H1 as [H1| ->]; [|exact H2].
  destruct H2 as [H2| <-]; [|left; exact H1].
  left. exact (key_lt_trans _ _ _ H1 H2).
Qed.

Lemma ltb_leb_trans (x y z : float) :
  (x <? y)%float = true -> (y <=? z)%float = true -> (x <? z)%float = true.
Proof.
  intros H1 H2.
  apply ltb_key in H1 as (k1 & k2 & Hx & Hy & H1).
  apply leb_key in H2 as (k2' & k3 & Hy' & Hz & H2).
  rewrite Hy in Hy'. injection Hy' as <-.
  apply ltb_key. exists k1, k3. repeat split; try assumption.
  destruct H2 as [H2| <-]; [|exact H1].
  exact (key_lt_trans _ _ _ H1 H2).
Qed.

Lemma leb_ltb_trans (x y z : float) :
  (x <=? y)%float = true -> (y <? z)%float = true -> (x <? z)%float = true.
Proof.
  intros H1 H2.
  apply leb_key in H1 as (k1 & k2 & Hx & Hy & H1).
  apply ltb_key in H2 as (k2' & k3 & Hy' & Hz & H2).
  rewrite Hy in Hy'. injection Hy' as <-.
  apply ltb_key. exists k1, k3. repeat split; try assumption.
  destruct H1 as [H1| ->]; [|exact H2].
  exact (key_lt_trans _ _ _ H1 H2).
Qed.

Lemma approx_leb_refl (eps : R) (x : float) (X : R) :
  approx eps x X -> (x <=? x)%float = true.
Proof.
  intros (_ & v & (m & e & Hx & _) & _).
  apply leb_key. exists (1, e, Zpos m), (1, e, Zpos m).
  unfold fkey. rewrite Hx. auto.
Qed.

Lemma approx_positive (eps : R) (x : float) (X : R) :
  approx eps x X -> (0 <? x)%float = true /\ (x <? infinity)%float = true.
Proof.
  intros (_ & v & (m & e & Hx & _) & _). split.
  - apply (ltb_keys 0 x (0, 0, 0) (1, e, Zpos m)); [reflexivity| |unfold key_lt; lia].
    unfold fkey. rewrite Hx. reflexivity.
  - apply (ltb_keys x infinity (1, e, Zpos m) (2, 0, 0)); [|reflexivity|unfold key_lt; lia].
    unfold fkey. rewrite Hx. reflexivity.
Qed.

(** *** One slider moved, the other two fixed *)

Section OneSlider.
Variables (d v rho : Z).
Hypothesis Hd : in_slider diameter_slider d.
Hypothesis Hv : in_slider velocity_slider v.
Hypothesis Hr : in_slider density_slider rho.

Let H : valid_parameters d v rho := conj Hd (conj Hv Hr).

Lemma eps_facts :
  (0 <= / 2 ^ 45 <= / 2 ^ 30 /\ 0 <= / 2 ^ 43 <= / 2 ^ 30 /\
   0 <= / 2 ^ 42 <= / 2 ^ 30)%R.
Proof.
  assert (/ 2 ^ 42 <= / 2 ^ 30)%R by (apply Rinv_le_contravar; lra).
  assert (/ 2 ^ 43 <= / 2 ^ 30)%R by (apply Rinv_le_contravar; lra).
  assert (/ 2 ^ 45 <= / 2 ^ 30)%R by (apply Rinv_le_contravar; lra).
  assert (0 < / 2 ^ 45)%R by (apply Rinv_0_lt_compat; lra).
  assert (0 < / 2 ^ 43)%R by (apply Rinv_0_lt_compat; lra).
  assert (0 < / 2 ^ 42)%R by (apply Rinv_0_lt_compat; lra).
  lra.
Qed.

Lemma outputs_le_diameter (d' : Z) :
  in_slider diameter_slider d' -> d <= d' ->
  (mass d rho <=? mass d' rho)%float = true /\
  (energy_joules d v rho <=? energy_joules d' v rho)%float = true /\
  (energy_megatons d v rho <=? energy_megatons d' v rho)%float = true.
Proof.
  intros Hd' Hle. destruct eps_facts as (E45 & E43 & E42).
  destruct (Z.eq_dec d d') as [<-|Hne].
  - split; [|split].
    + exact (approx_leb_refl _ _ _ (approx_mass d rho Hd Hr)).
    + exact (approx_leb_refl _ _ _ (approx_energy_joules d v rho H)).
    + exact (approx_leb_refl _ _ _ (approx_energy_megatons d v rho H)).
  - assert (d < d') as Hlt by lia.
    assert (valid_parameters d' v rho) as Hn by exact (conj Hd' (conj Hv Hr)).
    pose proof (speed_square_bounds v Hv) as Bs.
    pose proof (mass_gap_diameter d d' rho Hd Hr Hlt) as G.
    destruct (energy_gap_mass _ _ (IZR (vel_ms v ^ 2)) ltac:(lra) G) as (Gj & Gm).
    split; [|split]; apply ltb_leb.
    + exact (approx_ltb _ _ _ _ _ (approx_mass d rho Hd Hr)
               (approx_mass d' rho Hd' Hr) E45 G).
    + exact (approx_ltb _ _ _ _ _ (approx_energy_joules d v rho H)
               (approx_energy_joules d' v rho Hn) E43 Gj).
    + exact (approx_ltb _ _ _ _ _ (approx_energy_megatons d v rho H)
               (approx_energy_megatons d' v rho Hn) E42 Gm).
Qed.

Lemma outputs_le_density (rho' : Z) :
  in_slider density_slider rho' -> rho <= rho' ->
  (mass d rho <=? mass d rho')%float = true /\
  (energy_joules d v rho <=? energy_joules d v rho')%float = true /\
  (energy_megatons d v rho <=? energy_megatons d v rho')%float = true.
Proof.
  intros Hr' Hle. destruct eps_facts as (E45 & E43 & E42).
  destruct (Z.eq_dec rho rho') as [<-|Hne].
  - split; [|split].
    + exact (approx_leb_refl _ _ _ (approx_mass d rho Hd Hr)).
    + exact (approx_leb_refl _ _ _ (approx_energy_joules d v rho H)).
    + exact (approx_leb_refl _ _ _ (approx_energy_megatons d v rho H)).
  - assert (rho < rho') as Hlt by lia.
    assert (valid_parameters d v rho') as Hn by exact (conj Hd (conj Hv Hr')).
    pose proof (speed_square_bounds v Hv) as Bs.
    pose proof (mass_gap_density d rho rho' Hd Hr Hlt) as G.
    destruct (energy_gap_mass _ _ (IZR (vel_ms v ^ 2)) ltac:(lra) G) as (Gj & Gm).
    split; [|split]; apply ltb_leb.
    + exact (approx_ltb _ _ _ _ _ (approx_mass d rho Hd Hr)
               (approx_mass d rho' Hd Hr') E45 G).
    + exact (approx_ltb _ _ _ _ _ (approx_energy_joules d v rho H)
               (approx_energy_joules d v rho' Hn) E43 Gj).
    + exact (approx_ltb _ _ _ _ _ (approx_energy_megatons d v rho H)
               (approx_energy_megatons d v rho' Hn) E42 Gm).
Qed.

Lemma outputs_le_speed (v' : Z) :
  in_slider velocity_slider v' -> v <= v' ->
  (energy_joules d v rho <=? energy_joules d v' rho)%float = true /\
  (energy_megatons d v rho <=? energy_megatons d v' rho)%float = true.
Proof.
  intros Hv' Hle. destruct eps_facts as (E45 & E43 & E42).
  destruct (Z.eq_dec v v') as [<-|Hne].
  - split.
    + exact (approx_leb_refl _ _ _ (approx_energy_joules d v rho H)).
    + exact (approx_leb_refl _ _ _ (approx_energy_megatons d v rho H)).
  - assert (v < v') as Hlt by lia.
    assert (valid_parameters d v' rho) as Hn by exact (conj Hd (conj Hv' Hr)).
    pose proof (speed_gap v v' Hv Hlt) as G.
    pose proof (mass_bounds d rho Hd Hr) as Bm.
    destruct (energy_gap_speed (Ideal.mass d rho) _ _ ltac:(lra) G) as (Gj & Gm).
    split; apply ltb_leb.
    + exact (approx_ltb _ _ _ _ _ (approx_energy_joules d v rho H)
               (approx_energy_joules d v' rho Hn) E43 Gj).
    + exact (approx_ltb _ _ _ _ _ (approx_energy_megatons d v rho H)
               (approx_energy_megatons d v' rho Hn) E42 Gm).
Qed.

End OneSlider.

(** All three sliders moved upwards together. *)
Lemma outputs_le (d v rho d' v' rho' : Z) :
  valid_parameters d v rho -> valid_parameters d' v' rho' ->
  d <= d' -> v <= v' -> rho <= rho' ->
  (mass d rho <=? mass d' rho')%float = true /\
  (energy_joules d v rho <=? energy_joules d' v' rho')%float = true /\
  (energy_megatons d v rho <=? energy_megatons d' v' rho')%float = true.
Proof.
  intros (Hd & Hv & Hr) (Hd' & Hv' & Hr') Ld Lv Lr.
  destruct (outputs_le_diameter d v rho Hd Hv Hr d' Hd' Ld) as (M1 & J1 & E1).
  destruct (outputs_le_speed d' v rho Hd' Hv Hr v' Hv' Lv) as (J2 & E2).
  destruct (outputs_le_density d' v' rho Hd' Hv' Hr rho' Hr' Lr) as (M3 & J3 & E3).
  split; [|split].
  - exact (leb_trans _ _ _ M1 M3).
  - exact (leb_trans _ _ _ (leb_trans _ _ _ J1 J2) J3).
  - exact (leb_trans _ _ _ (leb_trans _ _ _ E1 E2) E3).
Qed.

(** X1. Whatever the three sliders show, the mass and the two energies are
    positive finite numbers lying between their values at the lowest and at
    the highest slider positions: the mass between 2.6e5 and 3.4e13 kg, the
    energy between 3.2e12 and 2.7e22 J, that is between 7.8e-4 and 6.5e6
    megatons. *)
Theorem computeImpact_range (d v rho : Z) :
  valid_parameters d v rho ->
  let r := computeImpact d v rho in
  let lo := computeImpact (s_min diameter_slider) (s_min velocity_slider)
              (s_min density_slider) in
  let hi := computeImpact (s_max diameter_slider) (s_max velocity_slider)
              (s_max density_slider) in
  ((mass_kg lo <=? mass_kg r) && (mass_kg r <=? mass_kg hi))%float = true /\
  ((energy_j lo <=? energy_j r) && (energy_j r <=? energy_j hi))%float = true /\
  ((energy_mt lo <=? energy_mt r) && (energy_mt r <=? energy_mt hi))%float = true /\
  ((2.6e5 <? mass_kg r) && (mass_kg r <? 3.4e13))%float = true /\
  ((3.2e12 <? energy_j r) && (energy_j r <? 2.7e22))%float = true /\
  ((7.8e-4 <? energy_mt r) && (energy_mt r <? 6.5e6))%float = true.
Proof.
  intros Hval. cbn zeta. cbn [computeImpact mass_kg energy_j energy_mt].
  cbn [s_min s_max diameter_slider velocity_slider density_slider].
  assert (valid_parameters 10 5 500) as Hlo
    by (unfold valid_parameters, in_slider; cbn; lia).
  assert (valid_parameters 2000 40 8000) as Hhi
    by (unfold valid_parameters, in_slider; cbn; lia).
  pose proof Hval as ((D1 & D2) & (V1 & V2) & (R1 & R2)).
  cbn [s_min s_max diameter_slider velocity_slider density_slider] in *.
  destruct (outputs_le 10 5 500 d v rho Hlo Hval D1 V1 R1) as (M1 & J1 & E1).
  destruct (outputs_le d v rho 2000 40 8000 Hval Hhi D2 V2 R2) as (M2 & J2 & E2).
  rewrite M1, M2, J1, J2, E1, E2.
  repeat split; apply andb_true_iff; split.
  - apply (ltb_leb_trans _ (mass 10 500)); [reflexivity|exact M1].
  - apply (leb_ltb_trans _ (mass 2000 8000)); [exact M2|reflexivity].
  - apply (ltb_leb_trans _ (energy_joules 10 5 500)); [reflexivity|exact J1].
  - apply (leb_ltb_trans _ (energy_joules 2000 40 8000)); [exact J2|reflexivity].
  - apply (ltb_leb_trans _ (energy_megatons 10 5 500)); [reflexivity|exact E1].
  - apply (leb_ltb_trans _ (energy_megatons 2000 40 8000)); [exact E2|reflexivity].
Qed.

Lemma computeImpact_range_witness :
  valid_parameters 300 20 3000 /\
  ((7.8e-4 <? energy_mt (computeImpact 300 20 3000))
   && (energy_mt (computeImpact 300 20 3000) <? 6.5e6))%float = true.
Proof.
  assert (H : valid_parameters 300 20 3000)
    by (unfold valid_parameters, in_slider; cbn; lia).
  split; [exact H|].
  exact (proj2 (proj2 (proj2 (proj2 (proj2 (computeImpact_range 300 20 3000 H)))))).
Defined.

(** The tier never decreases with the energy (for a non-negative energy). *)
Lemma tier_rank_monotone (e1 e2 : float) :
  (0 <=? e1)%float = true -> (e1 <=? e2)%float = true ->
  tier_rank (classifySeverity e1) <= tier_rank (classifySeverity e2).
Proof.
  intros H0 H12.
  destruct (fkey_nonneg e1 H0) as (a & b & c & He1 & Ha & Hz).
  apply leb_key in H12 as (k1 & k2 & K1 & He2 & H).
  rewrite He1 in K1. injection K1 as <-.
  destruct k2 as [[a' b'] c'].
  assert (forall k, key_lt (a', b', c') k -> key_lt (a, b, c) k) as T.
  { intros k Hk. destruct H as [H| ->]; [exact (key_lt_trans _ _ _ H Hk)|exact Hk]. }
  destruct (classifySeverity_key e1 a b c He1) as [(P1 & ->)|[(P1 & P2 & ->)|(P2 & ->)]];
    destruct (classifySeverity_key e2 a' b' c' He2) as [(Q1 & ->)|[(Q1 & Q2 & ->)|(Q2 & ->)]];
    cbn; try lia; exfalso; auto.
  apply P2, T, (key_lt_trans _ _ _ Q1 key_100_10000).
Qed.

(** X2. Moving any of the three sliders upwards never lowers the severity
    tier shown in the second tab; the tier is Regional at the lowest slider
    positions, Continental at the defaults and Global at the highest ones,
    so that each of the three banners can be reached. *)
Theorem severity_monotone_in_sliders :
  (forall d v rho d' v' rho' : Z,
     valid_parameters d v rho -> valid_parameters d' v' rho' ->
     d <= d' -> v <= v' -> rho <= rho' ->
     tier_rank (classifySeverity (energy_mt (computeImpact d v rho)))
     <= tier_rank (classifySeverity (energy_mt (computeImpact d' v' rho')))) /\
  classifySeverity (energy_mt (computeImpact 10 5 500)) = Regional /\
  classifySeverity (energy_mt (computeImpact 300 20 3000)) = Continental /\
  classifySeverity (energy_mt (computeImpact 2000 40 8000)) = Global.
Proof.
  split; [|repeat split; reflexivity].
  intros d v rho d' v' rho' Hval Hval' Ld Lv Lr.
  cbn [computeImpact energy_mt].
  apply tier_rank_monotone.
  - apply ltb_leb.
    exact (proj1 (approx_positive _ _ _ (approx_energy_megatons d v rho Hval))).
  - exact (proj2 (proj2 (outputs_le d v rho d' v' rho' Hval Hval' Ld Lv Lr))).
Qed.

Lemma severity_monotone_in_sliders_witness :
  valid_parameters 300 20 3000 /\ valid_parameters 1200 20 3000 /\
  tier_rank (classifySeverity (energy_mt (computeImpact 300 20 3000)))
  <= tier_rank (classifySeverity (energy_mt (computeImpact 1200 20 3000))).
Proof.
  assert (H : valid_parameters 300 20 3000)
    by (unfold valid_parameters, in_slider; cbn; lia).
  assert (H' : valid_parameters 1200 20 3000)
    by (unfold valid_parameters, in_slider; cbn; lia).
  split; [exact H|]. split; [exact H'|].
  exact (proj1 severity_monotone_in_sliders 300 20 3000 1200 20 3000 H H'
           ltac:(lia) ltac:(lia) ltac:(lia)).
Defined.

(** ** The effect magnitudes of a computed energy *)

Lemma approx_hundred : approx 0 100%float 100.
Proof.
  apply (approx_const _ 7036874417766400 (-46)); try reflexivity; try lia.
  replace (pow2 (-46)) with (/ 2 ^ 46)%R by (symmetry; exact (pow2_neg_nat 46)). lra.
Qed.

Lemma approx_thousand : approx 0 1000%float 1000.
Proof.
  apply (approx_const _ 8796093022208000 (-43)); try reflexivity; try lia.
  replace (pow2 (-43)) with (/ 2 ^ 43)%R by (symmetry; exact (pow2_neg_nat 43)). lra.
Qed.

Lemma approx_ten_thousand : approx 0 10000%float 10000.
Proof.
  apply (approx_const _ 5497558138880000 (-39)); try reflexivity; try lia.
  replace (pow2 (-39)) with (/ 2 ^ 39)%R by (symmetry; exact (pow2_neg_nat 39)). lra.
Qed.

Lemma approx_fkey (eps : R) (x : float) (X : R) :
  approx eps x X -> exists (m : positive) (e : Z), fkey x = Some (1, e, Zpos m).
Proof.
  intros (_ & v & (m & e & Hx & _) & _). exists m, e.
  unfold fkey. rewrite Hx. reflexivity.
Qed.

(** A quotient of the computed energy by one of the three divisors. *)
Lemma approx_magnitude (d v rho : Z) (c : float) (C : R) :
  valid_parameters d v rho -> approx 0 c C -> (100 <= C <= 10000)%R ->
  approx (/ 2 ^ 41) (energy_megatons d v rho / c)
    (Ideal.energy_megatons d v rho / C).
Proof.
  intros H Hc HC. pose proof (energy_megatons_bounds d v rho H) as B.
  assert (/ 2 ^ 42 <= / 2 ^ 30)%R by (apply Rinv_le_contravar; lra).
  assert (0 < / 2 ^ 42)%R by (apply Rinv_0_lt_compat; lra).
  set (X := Ideal.energy_megatons d v rho) in *.
  assert (/ 20000000 <= X / C <= 80000)%R as BQ.
  { split.
    - apply Rmult_le_reg_r with C; [lra|].
      replace (X / C * C)%R with X by (field; lra). nra.
    - apply Rmult_le_reg_r with C; [lra|].
      replace (X / C * C)%R with X by (field; lra). nra. }
  eapply approx_weaken.
  - apply (approx_div _ _ _ _ _ _ (approx_energy_megatons d v rho H) Hc); try lra.
    apply safe_range. fold X. lra.
  - lra.
Qed.

Lemma fmin_100_monotone (q q' : float) :
  (q <=? q')%float = true ->
  (fmin q 100 <=? fmin q' 100)%float = true.
Proof.
  intros Hle. unfold fmin.
  destruct (q' <=? 100)%float eqn:A, (q <=? 100)%float eqn:B;
    try assumption; try reflexivity.
  rewrite (leb_trans _ _ _ Hle A) in B. discriminate.
Qed.

(** X3. For every slider position the three effect magnitudes are positive,
    at most 100, and ordered: the local effect is at least the continental
    one, which is at least the global one. *)
Theorem values_ordered_on_sliders (d v rho : Z) :
  valid_parameters d v rho ->
  exists loc cont glob : float,
    map pynum_float (values (energy_mt (computeImpact d v rho))) = [loc; cont; glob] /\
    (0 <? glob)%float = true /\ (glob <=? cont)%float = true /\
    (cont <=? loc)%float = true /\ (loc <=? 100)%float = true.
Proof.
  intros H. cbn [computeImpact energy_mt]. unfold values. cbn [map].
  pose proof (energy_megatons_bounds d v rho H) as B.
  pose proof (approx_magnitude d v rho _ _ H approx_hundred ltac:(lra)) as A1.
  pose proof (approx_magnitude d v rho _ _ H approx_thousand ltac:(lra)) as A2.
  pose proof (approx_magnitude d v rho _ _ H approx_ten_thousand ltac:(lra)) as A3.
  set (e := energy_megatons d v rho) in *.
  set (X := Ideal.energy_megatons d v rho) in *.
  assert (0 <= / 2 ^ 41 <= / 2 ^ 30)%R as E41.
  { assert (/ 2 ^ 41 <= / 2 ^ 30)%R by (apply Rinv_le_contravar; lra).
    assert (0 < / 2 ^ 41)%R by (apply Rinv_0_lt_compat; lra). lra. }
  assert (/ 2 ^ 20 <= 1)%R as E20.
  { rewrite <- Rinv_1. apply Rinv_le_contravar; lra. }
  assert ((e / 1000 <? e / 100)%float = true) as L12
    by (apply (approx_ltb _ _ _ _ _ A2 A1 E41); lra).
  assert ((e / 10000 <? e / 1000)%float = true) as L23
    by (apply (approx_ltb _ _ _ _ _ A3 A2 E41); lra).
  destruct (approx_fkey _ _ _ A1) as (m1 & e1 & K1).
  destruct (approx_fkey _ _ _ A2) as (m2 & e2 & K2).
  destruct (approx_fkey _ _ _ A3) as (m3 & e3 & K3).
  destruct (py_min_100 _ _ _ _ K1) as (M1 & B1 & _).
  destruct (py_min_100 _ _ _ _ K2) as (M2 & B2 & _).
  destruct (py_min_100 _ _ _ _ K3) as (M3 & B3 & _).
  exists (fmin (e / 100) 100), (fmin (e / 1000) 100), (fmin (e / 10000) 100).
  rewrite M1, M2, M3. split; [reflexivity|].
  split; [|split; [|split]].
  - unfold fmin. destruct (e / 10000 <=? 100)%float; [|reflexivity].
    exact (proj1 (approx_positive _ _ _ A3)).
  - apply fmin_100_monotone. exact (ltb_leb _ _ L23).
  - apply fmin_100_monotone. exact (ltb_leb _ _ L12).
  - rewrite <- M1. exact B1.
Qed.

Lemma values_ordered_on_sliders_witness :
  valid_parameters 300 20 3000 /\
  exists loc cont glob : float,
    map pynum_float (values (energy_mt (computeImpact 300 20 3000))) = [loc; cont; glob] /\
    (0 <? glob)%float = true /\ (glob <=? cont)%float = true /\
    (cont <=? loc)%float = true /\ (loc <=? 100)%float = true.
Proof.
  assert (H : valid_parameters 300 20 3000)
    by (unfold valid_parameters, in_slider; cbn; lia).
  split; [exact H|]. exact (values_ordered_on_sliders 300 20 3000 H).
Defined.

(** ** Mitigation *)

(** X4. A larger deflection or a longer lead time never turns a saved
    scenario into an impact; on the two sliders of the fourth tab the impact
    message is shown exactly when one of them stands at its lowest position,
    which is the case when the page opens (the deflection defaults to 0). *)
Theorem evaluateMitigation_monotone :
  (forall delta_v lead_time delta_v' lead_time' : Z,
     delta_v <= delta_v' -> lead_time <= lead_time' ->
     evaluateMitigation delta_v lead_time = true ->
     evaluateMitigation delta_v' lead_time' = true) /\
  (forall delta_v lead_time : Z,
     in_slider delta_v_slider delta_v -> in_slider lead_time_slider lead_time ->
     (evaluateMitigation delta_v lead_time = false <->
      delta_v = s_min delta_v_slider \/ lead_time = s_min lead_time_slider)) /\
  evaluateMitigation (s_default delta_v_slider) (s_default lead_time_slider) = false.
Proof.
  split; [|split; [|reflexivity]].
  - intros dv lt dv' lt' Hd Hl. unfold evaluateMitigation.
    rewrite !andb_true_iff, !Z.ltb_lt. lia.
  - intros dv lt [Hd _] [Hl _]. unfold evaluateMitigation.
    cbn [s_min delta_v_slider lead_time_slider] in *.
    rewrite andb_false_iff, !Z.ltb_ge. lia.
Qed.

Lemma evaluateMitigation_monotone_witness :
  evaluateMitigation 3 1 = true /\ evaluateMitigation 50 10 = true /\
  (evaluateMitigation 7 0 = false <->
   7 = s_min delta_v_slider \/ 0 = s_min lead_time_slider).
Proof.
  assert (H : evaluateMitigation 3 1 = true) by reflexivity.
  split; [exact H|]. split.
  - exact (proj1 evaluateMitigation_monotone 3 1 50 10 ltac:(lia) ltac:(lia) H).
  - apply (proj1 (proj2 evaluateMitigation_monotone) 7 0);
      unfold in_slider; cbn; lia.
Defined.

(** ** The banner of the second tab against its chart *)

Section Threshold.
Local Open Scope R_scope.

(** The order of the values of two normal numbers is the order of their
    (exponent, mantissa) pairs. *)
Lemma normal_value_lt (m m' : positive) (e e' : Z) :
  (2 ^ 52 <= Zpos m < 2 ^ 53)%Z -> (2 ^ 52 <= Zpos m' < 2 ^ 53)%Z ->
  (e < e' \/ (e = e' /\ Zpos m < Zpos m'))%Z ->
  IZR (Zpos m) * pow2 e < IZR (Zpos m') * pow2 e'.
Proof.
  intros Hm Hm' H.
  pose proof (pow2_pos e) as Pe. pose proof (pow2_pos e') as Pe'.
  assert (pow2 52 <= IZR (Zpos m') /\ IZR (Zpos m) < pow2 53) as (B1 & B2).
  { rewrite <- !pow2_IZR by lia. split; [apply IZR_le|apply IZR_lt]; lia. }
  assert (pow2 53 = 2 * pow2 52) as E53.
  { change 53%Z with (1 + 52)%Z. rewrite pow2_add. f_equal. exact (powerRZ_1 2). }
  pose proof (pow2_pos 52) as P52.
  destruct H as [L|[-> L]].
  - assert (pow2 (e + 1) <= pow2 e') as P by (apply pow2_le; lia).
    rewrite pow2_add in P. assert (pow2 1 = 2) as E1 by exact (powerRZ_1 2).
    rewrite E1 in P.
    assert (IZR (Zpos m) * pow2 e < 2 * pow2 52 * pow2 e) by nra.
    assert (pow2 52 * (pow2 e * 2) <= IZR (Zpos m') * pow2 e').
    { apply Rmult_le_compat; lra. }
    lra.
  - apply Rmult_lt_compat_r; [exact Pe'|]. apply IZR_lt. exact L.
Qed.

Lemma normal_value_inj (m m' : positive) (e e' : Z) :
  (2 ^ 52 <= Zpos m < 2 ^ 53)%Z -> (2 ^ 52 <= Zpos m' < 2 ^ 53)%Z ->
  IZR (Zpos m) * pow2 e = IZR (Zpos m') * pow2 e' -> m = m' /\ e = e'.
Proof.
  intros Hm Hm' E.
  destruct (Z.lt_trichotomy e e') as [L|[L|L]].
  - pose proof (normal_value_lt m m' e e' Hm Hm' (or_introl L)). lra.
  - destruct (Z.lt_trichotomy (Zpos m) (Zpos m')) as [M|[M|M]].
    + pose proof (normal_value_lt m m' e e' Hm Hm' (or_intror (conj L M))). lra.
    + split; [congruence|exact L].
    + pose proof (normal_value_lt m' m e' e Hm' Hm (or_intror (conj (eq_sym L) M))). lra.
  - pose proof (normal_value_lt m' m e' e Hm' Hm (or_introl L)). lra.
Qed.

(** A normal number is determined by its value, and conversely. *)
Lemma fnormal_inj (x y : float) (v : R) : fnormal x v -> fnormal y v -> x = y.
Proof.
  intros (m & e & Hx & Hm & _ & ->) (m' & e' & Hy & Hm' & _ & E).
  destruct (normal_value_inj m m' e e' Hm Hm' E) as (<- & <-).
  apply Prim2SF_inj. congruence.
Qed.

Lemma fnormal_value (x : float) (v v' : R) : fnormal x v -> fnormal x v' -> v = v'.
Proof.
  intros (m & e & Hx & _ & _ & ->) (m' & e' & Hx' & _ & _ & ->).
  rewrite Hx in Hx'. injection Hx' as <- <-. reflexivity.
Qed.

(** Comparisons of normal numbers are the comparisons of their values. *)
Lemma ltb_normal_iff (x y : float) (vx vy : R) :
  fnormal x vx -> fnormal y vy -> ((x <? y)%float = true <-> vx < vy).
Proof.
  intros Hx Hy. split; [|exact (ltb_normal x y vx vy Hx Hy)].
  destruct Hx as (mx & ex & Hx & Hmx & _ & ->), Hy as (my & ey & Hy & Hmy & _ & ->).
  intros H.
  apply (ltb_keys x y (1, ex, Zpos mx) (1, ey, Zpos my))%Z in H;
    [|unfold fkey; rewrite Hx; reflexivity|unfold fkey; rewrite Hy; reflexivity].
  apply normal_value_lt; try assumption. unfold key_lt in H. lia.
Qed.

Lemma leb_normal_iff (x y : float) (vx vy : R) :
  fnormal x vx -> fnormal y vy -> ((x <=? y)%float = true <-> vx <= vy).
Proof.
  intros Hx Hy.
  pose proof (ltb_normal_iff y x vy vx Hy Hx) as L.
  destruct Hx as (mx & ex & Hx & Hmx & _ & ->), Hy as (my & ey & Hy & Hmy & _ & ->).
  assert (fkey x = Some (1, ex, Zpos mx)%Z) as Kx by (unfold fkey; rewrite Hx; reflexivity).
  assert (fkey y = Some (1, ey, Zpos my)%Z) as Ky by (unfold fkey; rewrite Hy; reflexivity).
  pose proof (ltb_false_leb y x _ _ Ky Kx) as F.
  split.
  - intros H. apply F in H. apply Rnot_lt_le. intros N. apply L in N. congruence.
  - intros H. apply F. apply not_true_iff_false. intros N. apply L in N. lra.
Qed.

(** The neighbours of a normal number whose mantissa is not the first of
    its binade: no normal number lies strictly between [(m-1) 2^e] and
    [(m+1) 2^e] except [m 2^e] itself. *)
Lemma normal_gap (x : float) (v : R) (m : positive) (e : Z) :
  fnormal x v -> (2 ^ 52 < Zpos m < 2 ^ 53)%Z ->
  (v < IZR (Zpos m) * pow2 e -> v <= (IZR (Zpos m) - 1) * pow2 e) /\
  (IZR (Zpos m) * pow2 e < v -> (IZR (Zpos m) + 1) * pow2 e <= v).
Proof.
  intros (mx & ex & Hx & Hmx & _ & ->) Hm.
  pose proof (pow2_pos e) as Pe. pose proof (pow2_pos ex) as Pex.
  assert (pow2 53 = 2 * pow2 52) as E53.
  { change 53%Z with (1 + 52)%Z. rewrite pow2_add. f_equal. exact (powerRZ_1 2). }
  assert (pow2 1 = 2) as E1 by exact (powerRZ_1 2).
  pose proof (pow2_pos 52) as P52.
  assert (pow2 52 <= IZR (Zpos mx) /\ IZR (Zpos mx) + 1 <= pow2 53) as (X1 & X2).
  { rewrite <- !pow2_IZR by lia. rewrite <- plus_IZR. split; apply IZR_le; lia. }
  assert (pow2 52 + 1 <= IZR (Zpos m) /\ IZR (Zpos m) + 1 <= pow2 53) as (M1 & M2).
  { rewrite <- !pow2_IZR by lia. rewrite <- !plus_IZR. split; apply IZR_le; lia. }
  destruct (Z.lt_trichotomy ex e) as [L|[L|L]].
  - assert (pow2 (ex + 1) <= pow2 e) as P by (apply pow2_le; lia).
    rewrite pow2_add, E1 in P. split.
    + intros _.
      apply Rle_trans with (pow2 52 * pow2 e); [|apply Rmult_le_compat_r; lra].
      apply Rle_trans with (pow2 53 * pow2 ex); [apply Rmult_le_compat_r; lra|].
      rewrite E53. nra.
    + intros H. exfalso.
      assert (IZR (Zpos mx) * pow2 ex <= pow2 53 * pow2 ex)
        by (apply Rmult_le_compat_r; lra).
      assert (pow2 52 * pow2 e <= IZR (Zpos m) * pow2 e)
        by (apply Rmult_le_compat_r; lra).
      rewrite E53 in *. nra.
  - subst ex. split; intros H.
    + apply Rmult_lt_reg_r in H; [|exact Pe]. apply lt_IZR in H.
      apply Rmult_le_compat_r; [lra|]. rewrite <- minus_IZR. apply IZR_le. lia.
    + apply Rmult_lt_reg_r in H; [|exact Pe]. apply lt_IZR in H.
      apply Rmult_le_compat_r; [lra|]. rewrite <- plus_IZR. apply IZR_le. lia.
  - assert (pow2 (e + 1) <= pow2 ex) as P by (apply pow2_le; lia).
    rewrite pow2_add, E1 in P. split.
    + intros H. exfalso.
      assert (IZR (Zpos m) * pow2 e <= pow2 53 * pow2 e)
        by (apply Rmult_le_compat_r; lra).
      assert (pow2 52 * pow2 ex <= IZR (Zpos mx) * pow2 ex)
        by (apply Rmult_le_compat_r; lra).
      rewrite E53 in *. nra.
    + intros _.
      apply Rle_trans with (pow2 53 * pow2 e); [apply Rmult_le_compat_r; lra|].
      apply Rle_trans with (pow2 52 * pow2 ex); [|apply Rmult_le_compat_r; lra].
      rewrite E53. nra.
Qed.

End Threshold.

Section Threshold2.
Local Open Scope R_scope.

Lemma u53_pos : 0 < u53.
Proof. unfold u53. apply Rinv_0_lt_compat. lra. Qed.

Lemma fnormal_pos (x : float) (v : R) : fnormal x v -> 0 < v.
Proof.
  intros (m & e & _ & _ & _ & ->). apply Rmult_lt_0_compat; [|apply pow2_pos].
  apply IZR_lt. lia.
Qed.

(** Dividing by [c] keeps a number on its side of a threshold [t] whose own
    quotient [t / c] is exact, although the division rounds. *)
Lemma div_threshold (e t c : float) (v C : R) (mt : positive) (et : Z) :
  fnormal e v -> fnormal c C ->
  Prim2SF t = S754_finite false mt et ->
  (2 ^ 52 < Zpos mt < 2 ^ 53 - 1)%Z -> (-1074 <= et <= 971)%Z ->
  fnormal (t / c) (IZR (Zpos mt) * pow2 et / C) ->
  pow2 (-1020) <= v / C < pow2 1023 ->
  (e / c <? t / c)%float = (e <? t)%float /\
  (t / c <=? e / c)%float = (t <=? e)%float.
Proof.
  intros He Hc Ht Hmt Het Hq HV.
  set (T := IZR (Zpos mt) * pow2 et) in *.
  assert (fnormal t T) as HT by (exists mt, et; repeat split; try lia; exact Ht).
  destruct (div_normal e c v C He Hc HV) as (vq & Hvq & Herr).
  pose proof (fnormal_pos _ _ Hc) as Cpos.
  pose proof (fnormal_pos _ _ He) as vpos.
  pose proof u53_pos as Upos.
  pose proof (pow2_pos et) as Pet.
  assert ((IZR (Zpos mt) + 1) * u53 < 1) as HU.
  { unfold u53. apply Rmult_lt_reg_r with (2 ^ 53); [lra|].
    rewrite Rmult_assoc, Rinv_l, Rmult_1_r, Rmult_1_l by lra.
    replace (2 ^ 53) with (IZR (2 ^ 53)) by (rewrite pow_IZR; reflexivity).
    rewrite <- plus_IZR. apply IZR_lt. lia. }
  destruct (normal_gap e v mt et He ltac:(lia)) as (Gb & Ga). fold T in Gb, Ga.
  apply Rabs_le_bounds in Herr.
  set (W := v / C) in *. set (Q := T / C) in *. set (D := pow2 et / C).
  assert (0 < D) as Dpos by (apply Rdiv_lt_0_compat; assumption).
  assert (Q = IZR (Zpos mt) * D) as EQ by (unfold Q, D, T; field; lra).
  assert (0 < IZR (Zpos mt)) as Mpos by (apply IZR_lt; lia).
  assert (v < T <-> vq < Q) as Main.
  { split.
    - intros L. apply Gb in L.
      assert (W <= Q - D) as LW.
      { unfold W, Q, D. apply Rmult_le_reg_r with C; [exact Cpos|].
        replace (v / C * C) with v by (field; lra).
        replace ((T / C - pow2 et / C) * C) with (T - pow2 et) by (field; lra).
        unfold T. lra. }
      assert (0 < W) as Wpos by (apply Rdiv_lt_0_compat; assumption).
      assert (vq <= (Q - D) * (1 + u53)) by nra.
      assert (IZR (Zpos mt) * u53 * D < (1 - u53) * D) by (apply Rmult_lt_compat_r; lra).
      rewrite EQ in *. nra.
    - intros L. apply Rnot_le_lt. intros N. destruct N as [N|N].
      + apply Ga in N.
        assert (Q + D <= W) as LW.
        { unfold W, Q, D. apply Rmult_le_reg_r with C; [exact Cpos|].
          replace (v / C * C) with v by (field; lra).
          replace ((T / C + pow2 et / C) * C) with (T + pow2 et) by (field; lra).
          unfold T. lra. }
        assert ((Q + D) * (1 - u53) <= vq) by nra.
        assert (IZR (Zpos mt) * u53 * D < (1 - u53) * D) by (apply Rmult_lt_compat_r; lra).
        rewrite EQ in *. nra.
      + subst v. pose proof (fnormal_inj _ _ _ HT He) as <-.
        pose proof (fnormal_value _ _ _ Hvq Hq). fold T Q in H. lra. }
  split; apply eq_iff_eq_true.
  - rewrite (ltb_normal_iff _ _ _ _ Hvq Hq), (ltb_normal_iff _ _ _ _ He HT).
    symmetry. exact Main.
  - rewrite (leb_normal_iff _ _ _ _ Hq Hvq), (leb_normal_iff _ _ _ _ HT He).
    split; intros L; apply Rnot_lt_le; intros N; apply Main in N; lra.
Qed.

(** Numbers between 2^-1000 and 2^1000 are normal. *)
Lemma fnormal_of_range (e : float) :
  (0x1p-1000 <=? e)%float = true -> (e <=? 0x1p1000)%float = true ->
  exists v, fnormal e v /\ pow2 (-1000) <= v <= pow2 1000.
Proof.
  intros Hlo Hhi.
  apply leb_key in Hlo as (k0 & [[a b] c] & K0 & Ke & Hlo).
  apply leb_key in Hhi as (k & k1 & Ke' & K1 & Hhi).
  rewrite Ke in Ke'. injection Ke' as <-.
  vm_compute in K0. injection K0 as <-. vm_compute in K1. injection K1 as <-.
  assert (a = 1 /\ -1052 <= b /\ (b < 948 \/ (b = 948 /\ c <= 4503599627370496)))%Z
    as (-> & Hb & Hc).
  { unfold key_lt in Hlo, Hhi.
    destruct Hlo as [Hlo|Hlo]; [|injection Hlo as <- <- <-; lia].
    destruct Hhi as [Hhi|Hhi]; [|injection Hhi as -> -> ->; lia]. lia. }
  unfold fkey in Ke. pose proof (Prim2SF_valid e) as V.
  destruct (Prim2SF e) as [s|s| |s m ex] eqn:E;
    try discriminate; try (destruct s; discriminate).
  destruct s; [discriminate|]. cbn in Ke. injection Ke as <- <-.
  unfold valid_binary, SpecFloat.bounded, SpecFloat.canonical_mantissa in V.
  apply andb_true_iff in V as (V1 & V2). apply Z.eqb_eq in V1.
  pose proof (digits2_pos_bounds m) as Dg. cbn [Zdigits2] in *.
  unfold fexp, SpecFloat.emin, prec, emax in V1.
  assert (Z.pos (digits2_pos m) = 53)%Z as D53 by lia.
  rewrite D53 in Dg. change (53 - 1)%Z with 52%Z in Dg.
  assert (pow2 52 <= IZR (Zpos m) /\ IZR (Zpos m) < pow2 53) as (B1 & B2).
  { rewrite <- !pow2_IZR by lia. split; [apply IZR_le|apply IZR_lt]; lia. }
  pose proof (pow2_pos ex) as Pex. pose proof (pow2_pos 52) as P52.
  exists (IZR (Zpos m) * pow2 ex). split.
  - exists m, ex. repeat split; try lia; try exact E.
  - split.
    + replace (-1000)%Z with (52 + -1052)%Z by lia. rewrite pow2_add.
      apply Rmult_le_compat; try lra; [apply Rlt_le, pow2_pos|apply pow2_le; lia].
    + replace 1000%Z with (52 + 948)%Z by lia. rewrite pow2_add.
      destruct Hc as [Hc|[-> Hc]].
      * assert (pow2 (ex + 1) <= pow2 948) as P by (apply pow2_le; lia).
        rewrite pow2_add in P. assert (pow2 1 = 2) as E1 by exact (powerRZ_1 2).
        rewrite E1 in P.
        assert (pow2 53 = 2 * pow2 52) as E53.
        { change 53%Z with (1 + 52)%Z. rewrite pow2_add. f_equal. exact E1. }
        nra.
      * apply Rmult_le_compat_r; [apply Rlt_le, pow2_pos|].
        rewrite <- pow2_IZR by lia. apply IZR_le. exact Hc.
Qed.

End Threshold2.

Section Banner.
Local Open Scope R_scope.

Lemma fnormal_1 : fnormal 1 1.
Proof.
  exists 4503599627370496%positive, (-52)%Z. repeat split; try lia.
  replace (pow2 (-52)) with (/ 2 ^ 52) by (symmetry; exact (pow2_neg_nat 52)). lra.
Qed.

Lemma fnormal_100 : fnormal 100 100.
Proof.
  exists 7036874417766400%positive, (-46)%Z. repeat split; try lia.
  replace (pow2 (-46)) with (/ 2 ^ 46) by (symmetry; exact (pow2_neg_nat 46)). lra.
Qed.

Lemma fnormal_10000 : fnormal 10000 10000.
Proof.
  exists 5497558138880000%positive, (-39)%Z. repeat split; try lia.
  replace (pow2 (-39)) with (/ 2 ^ 39) by (symmetry; exact (pow2_neg_nat 39)). lra.
Qed.

(** Clamping at 100 does not move a number across 1 or across 100. *)
Lemma fmin_100_compare (q : float) (vq : R) :
  fnormal q vq ->
  (fmin q 100 <? 1)%float = (q <? 1)%float /\
  (1 <=? fmin q 100)%float = (1 <=? q)%float /\
  (fmin q 100 <? 100)%float = (q <? 100)%float /\
  (100 <=? fmin q 100)%float = (100 <=? q)%float.
Proof.
  intros Hq. unfold fmin.
  destruct (q <=? 100)%float eqn:L; [repeat split; reflexivity|].
  assert (100 < vq) as G.
  { apply Rnot_le_lt. intros N.
    apply (leb_normal_iff _ _ _ _ Hq fnormal_100) in N. congruence. }
  repeat split; symmetry.
  - apply not_true_iff_false. intros N.
    apply (ltb_normal_iff _ _ _ _ Hq fnormal_1) in N. lra.
  - apply (leb_normal_iff _ _ _ _ fnormal_1 Hq). lra.
  - apply not_true_iff_false. intros N.
    apply (ltb_normal_iff _ _ _ _ Hq fnormal_100) in N. lra.
  - apply (leb_normal_iff _ _ _ _ fnormal_100 Hq). lra.
Qed.

(** The tests of the banner, read on the quotients of the chart. *)
Lemma banner_quotients (e : float) :
  (0x1p-1000 <=? e)%float = true -> (e <=? 0x1p1000)%float = true ->
  (exists v1, fnormal (e / 100) v1) /\ (exists v3, fnormal (e / 10000) v3) /\
  (e / 100 <? 1)%float = (e <? 100)%float /\
  (1 <=? e / 100)%float = negb (e <? 100)%float /\
  (e / 100 <? 100)%float = (e <? 10000)%float /\
  (100 <=? e / 100)%float = negb (e <? 10000)%float /\
  (1 <=? e / 10000)%float = negb (e <? 10000)%float /\
  ((e <? 100)%float = true -> (e <? 10000)%float = true).
Proof.
  intros Hlo Hhi. destruct (fnormal_of_range e Hlo Hhi) as (v & He & Bv).
  pose proof (fnormal_pos _ _ He) as vpos.
  assert (pow2 (-1020) <= v / 100 < pow2 1023 /\
          pow2 (-1020) <= v / 10000 < pow2 1023) as (R1 & R3).
  { assert (pow2 (-1000) = pow2 (-1020) * 2 ^ 20) as E1.
    { replace (-1000)%Z with (-1020 + 20)%Z by lia. rewrite pow2_add.
      f_equal; exact (pow2_nat 20). }
    assert (pow2 1000 < pow2 1023) as E2.
    { replace 1023%Z with (1000 + 23)%Z by lia. rewrite pow2_add.
      replace (pow2 23) with (2 ^ 23) by (symmetry; exact (pow2_nat 23)).
      pose proof (pow2_pos 1000). nra. }
    pose proof (pow2_pos (-1020)) as P.
    repeat split.
    - apply Rmult_le_reg_r with 100; [lra|].
      replace (v / 100 * 100) with v by field. nra.
    - apply Rmult_lt_reg_r with 100; [lra|].
      replace (v / 100 * 100) with v by field. nra.
    - apply Rmult_le_reg_r with 10000; [lra|].
      replace (v / 10000 * 10000) with v by field. nra.
    - apply Rmult_lt_reg_r with 10000; [lra|].
      replace (v / 10000 * 10000) with v by field. nra. }
  destruct (div_normal _ _ _ _ He fnormal_100 R1) as (v1 & Hv1 & _).
  destruct (div_normal _ _ _ _ He fnormal_10000 R3) as (v3 & Hv3 & _).
  assert (forall m k, IZR (Zpos m) * pow2 (- Z.of_nat k) = IZR (Zpos m) / 2 ^ k) as PW.
  { intros m k. rewrite pow2_neg_nat. reflexivity. }
  destruct (div_threshold e 100 100 v 100 7036874417766400 (-46) He fnormal_100
              eq_refl ltac:(lia) ltac:(lia)) as (A1 & A2); [|exact R1|].
  { change (100 / 100)%float with 1%float.
    replace (IZR (Zpos 7036874417766400) * pow2 (-46) / 100) with 1; [exact fnormal_1|].
    rewrite (PW _ 46%nat). lra. }
  destruct (div_threshold e 10000 100 v 100 5497558138880000 (-39) He fnormal_100
              eq_refl ltac:(lia) ltac:(lia)) as (B1 & B2); [|exact R1|].
  { change (10000 / 100)%float with 100%float.
    replace (IZR (Zpos 5497558138880000) * pow2 (-39) / 100) with 100; [exact fnormal_100|].
    rewrite (PW _ 39%nat). lra. }
  destruct (div_threshold e 10000 10000 v 10000 5497558138880000 (-39) He fnormal_10000
              eq_refl ltac:(lia) ltac:(lia)) as (C1 & C2); [|exact R3|].
  { change (10000 / 10000)%float with 1%float.
    replace (IZR (Zpos 5497558138880000) * pow2 (-39) / 10000) with 1; [exact fnormal_1|].
    rewrite (PW _ 39%nat). lra. }
  change (100 / 100)%float with 1%float in A1, A2.
  change (10000 / 100)%float with 100%float in B1, B2.
  change (10000 / 10000)%float with 1%float in C1, C2.
  assert (forall t T, fnormal t T -> (t <=? e)%float = negb (e <? t)%float) as NEG.
  { intros t T Ht. apply eq_iff_eq_true.
    rewrite negb_true_iff, <- not_true_iff_false.
    rewrite (leb_normal_iff _ _ _ _ Ht He), (ltb_normal_iff _ _ _ _ He Ht). lra. }
  rewrite (NEG _ _ fnormal_100) in A2.
  rewrite (NEG _ _ fnormal_10000) in B2, C2.
  split; [exists v1; exact Hv1|]. split; [exists v3; exact Hv3|].
  repeat split; try assumption.
  rewrite (ltb_normal_iff _ _ _ _ He fnormal_100), (ltb_normal_iff _ _ _ _ He fnormal_10000).
  lra.
Qed.

End Banner.

(** X8. The banner can be read off the chart.  For an energy between 2^-1000
    and 2^1000 the tier is Regional exactly when the local magnitude is
    below 1, Continental when it lies in [1, 100), and Global when it has
    reached 100; and it is Global exactly when the global magnitude is at
    least 1.  The roundings of the three divisions never move a quotient
    across one of these marks. *)
Theorem severity_matches_magnitudes (e loc cont glob : float) :
  (0x1p-1000 <=? e)%float = true -> (e <=? 0x1p1000)%float = true ->
  map pynum_float (values e) = [loc; cont; glob] ->
  (classifySeverity e = Regional <-> (loc <? 1)%float = true) /\
  (classifySeverity e = Continental <-> ((1 <=? loc) && (loc <? 100))%float = true) /\
  (classifySeverity e = Global <-> (100 <=? loc)%float = true) /\
  (classifySeverity e = Global <-> (1 <=? glob)%float = true).
Proof.
  intros Hlo Hhi Hv.
  destruct (banner_quotients e Hlo Hhi)
    as ((v1 & Hv1) & (v3 & Hv3) & A1 & A2 & B1 & B2 & C2 & Ord).
  assert (forall q v, fnormal q v -> pynum_float (py_min q 100) = fmin q 100) as PM.
  { intros q v (m & ex & Hq & _). 
    apply (py_min_100 q 1 ex (Zpos m)). unfold fkey. rewrite Hq. reflexivity. }
  unfold values in Hv. cbn [map] in Hv.
  rewrite (PM _ _ Hv1), (PM _ _ Hv3) in Hv. injection Hv as <- _ <-.
  destruct (fmin_100_compare _ _ Hv1) as (F1 & F2 & F3 & F4).
  destruct (fmin_100_compare _ _ Hv3) as (_ & G2 & _).
  rewrite F1, F2, F3, F4, G2, A1, A2, B1, B2, C2.
  unfold classifySeverity.
  destruct (e <? 100)%float; [rewrite (Ord eq_refl)|destruct (e <? 10000)%float];
    cbn; repeat split; intros; congruence.
Qed.

Lemma severity_matches_magnitudes_witness :
  classifySeverity 2027.25 = Continental <->
  ((1 <=? 20.2725) && (20.2725 <? 100))%float = true.
Proof.
  exact (proj1 (proj2 (severity_matches_magnitudes 2027.25 20.2725 2.02725 0.202725
                          eq_refl eq_refl eq_refl))).
Defined.

(** ** Exact scaling of the energy calculation *)

Lemma shr_fst (mrs : shr_record) (e n : Z) :
  fst (shr mrs e n) = fst (shr mrs 0 n).
Proof. destruct n; reflexivity. Qed.

Lemma renormalise_form (s : bool) (m1 T : Z) :
  2 ^ 52 <= m1 <= 2 ^ 53 -> -1074 <= T <= 970 ->
  (let '(mrs, e'') := shr_fexp prec emax m1 T loc_Exact in
   match shr_m mrs with
   | 0 => S754_zero s
   | Zpos m => if e'' <=? emax - prec then S754_finite s m e'' else S754_infinity s
   | Zneg _ => S754_nan
   end) = renormalised s m1 T.
Proof.
  intros Hm HT. unfold renormalised.
  destruct (Z.eqb_spec m1 (2 ^ 53)) as [->|Hne].
  - unfold shr_fexp. change (Zdigits2 (2 ^ 53)) with 54.
    rewrite fexp_normal by lia.
    replace (54 + T - 53 - T) with 1 by lia.
    cbn [shr_record_of_loc shr SpecFloat.iter_pos].
    change (shr_1 {| shr_m := 2 ^ 53; shr_r := false; shr_s := false |})
      with {| shr_m := 2 ^ 52; shr_r := false; shr_s := false |}.
    cbn [shr_m]. change (2 ^ 52) with (Zpos (Z.to_pos (2 ^ 52))) at 1.
    cbv iota beta.
    replace (T + 1 <=? emax - prec) with true
      by (symmetry; apply Z.leb_le; unfold emax, prec; lia).
    reflexivity.
  - assert (0 < m1) as Hpos by lia.
    destruct m1 as [|p|p]; try lia.
    unfold shr_fexp.
    rewrite (Zdigits2_unique (Zpos p) 53) by (try lia; change (53 - 1) with 52; lia).
    rewrite fexp_normal by lia.
    replace (53 + T - 53 - T) with 0 by lia.
    cbn [shr_record_of_loc shr shr_m].
    replace (T <=? emax - prec) with true
      by (symmetry; apply Z.leb_le; unfold emax, prec; lia).
    reflexivity.
Qed.

(** The result of rounding in the normal range, as a function of the
    mantissa alone, up to the exponent. *)
Lemma binary_round_aux_form (s : bool) (m0 e0 : Z) (l0 : location) (N D : Z) :
  0 < m0 -> 0 <= N -> 0 < D ->
  shr_code (shr_record_of_loc m0 l0) = sticky N D ->
  53 <= Zdigits2 m0 ->
  -1074 <= Zdigits2 m0 + e0 - 53 ->
  Zdigits2 m0 + e0 <= 1023 ->
  binary_round_aux prec emax s m0 e0 l0
    = renormalised s (round_mantissa m0 l0) (e0 + (Zdigits2 m0 - 53)) /\
  2 ^ 52 <= round_mantissa m0 l0 <= 2 ^ 53 /\
  Z.abs (2 * (D * 2 ^ (Zdigits2 m0 - 53)) * round_mantissa m0 l0 - N)
    <= D * 2 ^ (Zdigits2 m0 - 53).
Proof.
  intros Hm0 HN HD Hcode Hd53 Hlo Hhi.
  assert (2 ^ (Zdigits2 m0 - 1) <= m0 < 2 ^ Zdigits2 m0) as Hdig.
  { destruct m0 as [|p|p]; try lia. apply digits2_pos_bounds. }
  unfold round_mantissa.
  remember (Zdigits2 m0) as d eqn:Hd.
  set (n := d - 53).
  assert (0 <= n) as Hn by (subst n; lia).
  assert (0 < 2 ^ n) as Hpn by (apply Z.pow_pos_nonneg; lia).
  assert (2 ^ (d - 1) = 2 ^ 52 * 2 ^ n) as P1
    by (rewrite <- Z.pow_add_r by lia; f_equal; subst n; lia).
  assert (2 ^ d = 2 ^ 53 * 2 ^ n) as P2
    by (rewrite <- Z.pow_add_r by lia; f_equal; subst n; lia).
  assert (m0 = N / (2 * D)) as Hm0N.
  { rewrite <- (shr_m_of_loc m0 l0). apply shr_m_sticky; assumption. }
  unfold binary_round_aux, shr_fexp at 1.
  rewrite <- Hd, fexp_normal by lia.
  replace (d + e0 - 53 - e0) with n by (subst n; lia).
  rewrite <- (shr_fst (shr_record_of_loc m0 l0) e0 n).
  destruct (shr_sticky (shr_record_of_loc m0 l0) e0 n N D HN HD
              ltac:(rewrite shr_m_of_loc; lia) Hn Hcode) as (He' & Hc' & Hm').
  destruct (shr (shr_record_of_loc m0 l0) e0 n) as [mrs' e'].
  cbn [fst snd] in *. subst e'.
  assert (0 < D * 2 ^ n) as HD' by nia.
  pose proof (shr_m_sticky mrs' N (D * 2 ^ n) HN HD' Hc') as Hm.
  destruct (round_nearest_even_sticky mrs' N (D * 2 ^ n) HN HD' Hc') as (Hr & Herr).
  set (m1 := round_nearest_even (shr_m mrs') (loc_of_shr_record mrs')) in *.
  clearbody m1.
  assert (shr_m mrs' = m0 / 2 ^ n) as Hm_div.
  { rewrite Hm, Hm0N, Z.div_div by lia. f_equal. ring. }
  assert (2 ^ 52 <= shr_m mrs' < 2 ^ 53) as Hmb.
  { rewrite Hm_div. split.
    - apply Z.div_le_lower_bound; lia.
    - apply Z.div_lt_upper_bound; lia. }
  assert (2 ^ 52 <= m1 <= 2 ^ 53) as Hm1 by lia.
  assert (-1074 <= e0 + n <= 970) as HT by (subst n; lia).
  split; [exact (renormalise_form s m1 (e0 + n) Hm1 HT)|].
  split; [exact Hm1|exact Herr].
Qed.

Lemma renormalised_finite (m1 T k : Z) :
  0 < m1 ->
  exists (m : positive) (e : Z),
    renormalised false m1 T = S754_finite false m e /\
    renormalised false m1 (T + k) = S754_finite false m (e + k).
Proof.
  intros H. unfold renormalised. destruct (m1 =? 2 ^ 53).
  - exists (Z.to_pos (2 ^ 52)), (T + 1). split; [reflexivity|]. f_equal. lia.
  - exists (Z.to_pos m1), T. split; reflexivity.
Qed.

Lemma Zdigits2_le (m k : Z) : 0 < m -> m < 2 ^ k -> Zdigits2 m <= k.
Proof.
  intros Hm H. destruct m as [|p|p]; try lia. cbn [Zdigits2].
  pose proof (digits2_pos_bounds p) as [Blo _].
  destruct (Z_lt_le_dec k (Zpos (digits2_pos p))) as [L|L]; [|lia].
  assert (2 ^ k <= 2 ^ (Zpos (digits2_pos p) - 1)) by (apply Z.pow_le_mono_r; lia). lia.
Qed.

(** The product of two normal numbers away from the ends of the range. *)
Lemma mul_form (x y : float) (mx my : positive) (ex ey : Z) :
  Prim2SF x = S754_finite false mx ex -> Prim2SF y = S754_finite false my ey ->
  2 ^ 52 <= Zpos mx < 2 ^ 53 -> 2 ^ 52 <= Zpos my < 2 ^ 53 ->
  -1000 <= ex + ey <= 800 ->
  let m0 := Zpos (mx * my) in
  Prim2SF (x * y)
    = renormalised false (round_mantissa m0 loc_Exact) (ex + ey + (Zdigits2 m0 - 53)) /\
  2 ^ 52 <= round_mantissa m0 loc_Exact <= 2 ^ 53 /\
  Z.abs (2 * 2 ^ (Zdigits2 m0 - 53) * round_mantissa m0 loc_Exact - 2 * m0)
    <= 2 ^ (Zdigits2 m0 - 53).
Proof.
  intros Hx Hy Hmx Hmy He m0.
  assert (2 ^ 104 <= m0 < 2 ^ 106) as HM.
  { subst m0. rewrite Pos2Z.inj_mul.
    change (2 ^ 104) with (2 ^ 52 * 2 ^ 52). change (2 ^ 106) with (2 ^ 53 * 2 ^ 53).
    split; [apply Z.mul_le_mono_nonneg; lia|apply Z.mul_lt_mono_nonneg; lia]. }
  pose proof (Zdigits2_ge m0 104 ltac:(lia) (proj1 HM)) as D1.
  pose proof (Zdigits2_le m0 106 ltac:(lia) (proj2 HM)) as D2.
  destruct (binary_round_aux_form false m0 (ex + ey) loc_Exact (2 * m0) 1)
    as (F & B & E); try lia.
  - rewrite sticky_exact. loc_simpl. lia.
  - split; [|split; [exact B|]].
    + rewrite mul_spec, Hx, Hy. exact F.
    + rewrite Z.mul_1_l in E. exact E.
Qed.

(** The quotient of two normal numbers away from the ends of the range. *)
Lemma div_form (x y : float) (mx my : positive) (ex ey : Z) :
  Prim2SF x = S754_finite false mx ex -> Prim2SF y = S754_finite false my ey ->
  2 ^ 52 <= Zpos mx < 2 ^ 53 -> 2 ^ 52 <= Zpos my < 2 ^ 53 ->
  -900 <= ex - ey <= 900 ->
  let q := Zpos mx * 2 ^ 53 / Zpos my in
  let l := new_location (Zpos my) ((Zpos mx * 2 ^ 53) mod Zpos my) in
  Prim2SF (x / y)
    = renormalised false (round_mantissa q l) (ex - ey - 53 + (Zdigits2 q - 53)) /\
  0 < round_mantissa q l.
Proof.
  intros Hx Hy Hmx Hmy He q l.
  set (m' := Zpos mx * 2 ^ 53) in *.
  assert (2 ^ 52 <= q < 2 ^ 54) as Hq.
  { subst q. split.
    - apply Z.div_le_lower_bound; [lia|]. subst m'. nia.
    - apply Z.div_lt_upper_bound; [lia|]. subst m'. nia. }
  pose proof (Zdigits2_ge q 52 ltac:(lia) (proj1 Hq)) as D1.
  pose proof (Zdigits2_le q 54 ltac:(lia) (proj2 Hq)) as D2.
  destruct (binary_round_aux_form false q (ex - ey - 53) l (2 * m') (Zpos my))
    as (F & B & _); try lia.
  - apply new_location_sticky; subst m'; lia.
  - split; [|lia].
    rewrite div_spec, Hx, Hy. unfold SF64div, SFdiv. cbn [xorb].
    rewrite (SFdiv_core_binary_normal mx my ex ey Hmx Hmy ltac:(lia)). exact F.
Qed.

Lemma scaledb_spec (k : Z) (x y : float) : scaledb k x y = true -> scaled k x y.
Proof.
  unfold scaledb, scaled.
  destruct (Prim2SF x) as [| | |[] m e]; try discriminate.
  destruct (Prim2SF y) as [| | |[] m' e']; try discriminate.
  intros H. apply andb_true_iff in H as (H1 & H2).
  apply Z.eqb_eq in H1, H2. injection H1 as <-. subst e'.
  exists m, e. split; reflexivity.
Qed.

Section Scaling.
Variables (k : Z) (a b y : float).
Hypothesis Hk : -50 <= k <= 50.
Hypothesis Hab : scaled k a b.
Hypothesis Ha : moderate a.
Hypothesis Hy : moderate y.

Lemma mul_scaled_l : scaled k (a * y) (b * y).
Proof.
  destruct Hab as (m & e & A & B), Ha as (m' & e' & A' & Hm & He),
    Hy as (my & ey & Y & Hmy & Hey).
  rewrite A in A'. injection A' as <- <-.
  destruct (mul_form a y m my e ey A Y Hm Hmy ltac:(lia)) as (F1 & B1 & _).
  destruct (mul_form b y m my (e + k) ey B Y Hm Hmy ltac:(lia)) as (F2 & _).
  destruct (renormalised_finite (round_mantissa (Zpos (m * my)) loc_Exact)
              (e + ey + (Zdigits2 (Zpos (m * my)) - 53)) k ltac:(lia))
    as (M & E & R1 & R2).
  exists M, E. split; [rewrite F1; exact R1|].
  rewrite F2, <- R2. f_equal. lia.
Qed.

Lemma mul_scaled_r : scaled k (y * a) (y * b).
Proof.
  destruct Hab as (m & e & A & B), Ha as (m' & e' & A' & Hm & He),
    Hy as (my & ey & Y & Hmy & Hey).
  rewrite A in A'. injection A' as <- <-.
  destruct (mul_form y a my m ey e Y A Hmy Hm ltac:(lia)) as (F1 & B1 & _).
  destruct (mul_form y b my m ey (e + k) Y B Hmy Hm ltac:(lia)) as (F2 & _).
  destruct (renormalised_finite (round_mantissa (Zpos (my * m)) loc_Exact)
              (ey + e + (Zdigits2 (Zpos (my * m)) - 53)) k ltac:(lia))
    as (M & E & R1 & R2).
  exists M, E. split; [rewrite F1; exact R1|].
  rewrite F2, <- R2. f_equal. lia.
Qed.

Lemma div_scaled : scaled k (a / y) (b / y).
Proof.
  destruct Hab as (m & e & A & B), Ha as (m' & e' & A' & Hm & He),
    Hy as (my & ey & Y & Hmy & Hey).
  rewrite A in A'. injection A' as <- <-.
  destruct (div_form a y m my e ey A Y Hm Hmy ltac:(lia)) as (F1 & B1).
  destruct (div_form b y m my (e + k) ey B Y Hm Hmy ltac:(lia)) as (F2 & _).
  set (q := Zpos m * 2 ^ 53 / Zpos my) in *.
  set (l := new_location (Zpos my) ((Zpos m * 2 ^ 53) mod Zpos my)) in *.
  destruct (renormalised_finite (round_mantissa q l)
              (e - ey - 53 + (Zdigits2 q - 53)) k B1) as (M & E & R1 & R2).
  exists M, E. split; [rewrite F1; exact R1|].
  rewrite F2, <- R2. f_equal. lia.
Qed.

End Scaling.

(** Multiplying by a power of two is exact. *)
Lemma mul_pow2_exact (c x y : float) (k : Z) :
  Prim2SF c = S754_finite false (Z.to_pos (2 ^ 52)) (k - 52) ->
  -50 <= k <= 50 -> moderate x -> scaled k x y -> y = (c * x)%float.
Proof.
  intros Hc Hk (m & e & X & Hm & He) (m' & e' & X' & Y).
  rewrite X in X'. injection X' as <- <-.
  destruct (mul_form c x (Z.to_pos (2 ^ 52)) m (k - 52) e Hc X ltac:(cbn; lia) Hm
              ltac:(lia)) as (F & B & E).
  set (m0 := Zpos (Z.to_pos (2 ^ 52) * m)) in *.
  assert (m0 = 2 ^ 52 * Zpos m) as E0 by (subst m0; rewrite Pos2Z.inj_mul; reflexivity).
  assert (Zdigits2 m0 = 105) as D.
  { apply Zdigits2_unique; [lia|]. rewrite E0.
    change (2 ^ (105 - 1)) with (2 ^ 52 * 2 ^ 52). change (2 ^ 105) with (2 ^ 52 * 2 ^ 53).
    lia. }
  rewrite D in *. change (105 - 53) with 52 in *.
  set (m1 := round_mantissa m0 loc_Exact) in *. clearbody m1.
  assert (m1 = Zpos m) as -> by lia.
  apply Prim2SF_inj. rewrite Y, F. unfold renormalised.
  destruct (Z.eqb_spec (Zpos m) (2 ^ 53)) as [E1|_]; [lia|].
  cbn [Z.to_pos]. f_equal. lia.
Qed.

Section Moderate.
Local Open Scope R_scope.

Lemma approx_moderate (eps : R) (x : float) (X : R) :
  approx eps x X -> eps <= / 2 -> / 2 ^ 100 <= X <= 2 ^ 100 -> moderate x.
Proof.
  intros (Xpos & v & (m & e & Hx & Hm & He & ->) & Herr) Heps [Xlo Xhi].
  apply Rabs_le_bounds in Herr.
  assert (eps * X <= / 2 * X) as EX by (apply Rmult_le_compat_r; lra).
  set (v := IZR (Zpos m) * pow2 e) in *.
  assert (pow2 (-101) <= v < pow2 101) as [Vlo Vhi].
  { replace (pow2 (-101)) with (/ 2 * / 2 ^ 100).
    2:{ change (-101)%Z with (-1 + - Z.of_nat 100)%Z.
        rewrite pow2_add, pow2_neg_nat. f_equal.
        change (-1)%Z with (- Z.of_nat 1)%Z. rewrite pow2_neg_nat. f_equal. ring. }
    replace (pow2 101) with (2 * 2 ^ 100).
    2:{ change 101%Z with (1 + Z.of_nat 100)%Z.
        rewrite pow2_add, pow2_nat. f_equal. symmetry. exact (powerRZ_1 2). }
    lra. }
  assert (pow2 52 <= IZR (Zpos m) /\ IZR (Zpos m) < pow2 53) as (B1 & B2).
  { rewrite <- !pow2_IZR by lia. split; [apply IZR_le|apply IZR_lt]; lia. }
  pose proof (pow2_pos e) as Pe.
  assert (pow2 (52 + e) < pow2 101) as U.
  { rewrite pow2_add. eapply Rle_lt_trans; [|exact Vhi].
    unfold v. apply Rmult_le_compat_r; lra. }
  assert (pow2 (-101) < pow2 (53 + e)) as L.
  { rewrite pow2_add. eapply Rle_lt_trans; [exact Vlo|].
    unfold v. apply Rmult_lt_compat_r; lra. }
  apply pow2_lt_inv in U, L.
  exists m, e. repeat split; try lia. exact Hx.
Qed.

End Moderate.

(** The numbers met by the energy calculation are all moderate. *)
Lemma pipeline_moderate (d v rho : Z) :
  valid_parameters d v rho ->
  moderate (volume d) /\ moderate (float_of_int rho) /\ moderate (mass d rho) /\
  moderate 0.5 /\ moderate (0.5 * mass d rho) /\
  moderate (float_of_int (vel_ms v ^ 2)) /\
  moderate (energy_joules d v rho) /\ moderate 4.184e15.
Proof.
  intros H. pose proof H as (Hd & Hv & Hr).
  pose proof (volume_bounds d Hd) as Bv.
  pose proof (mass_bounds d rho Hd Hr) as Bm.
  pose proof (speed_square_bounds v Hv) as Bs.
  pose proof (energy_joules_bounds d v rho H) as Bj.
  pose proof (slider_IZR _ _ Hr) as Br. cbn in Br.
  assert (/ 2 ^ 30 <= / 2)%R as E30 by (apply Rinv_le_contravar; lra).
  assert (0 < / 2 ^ 45 <= / 2 ^ 30)%R as E45
    by (split; [apply Rinv_0_lt_compat|apply Rinv_le_contravar]; lra).
  assert (/ 2 ^ 46 <= / 2 ^ 30)%R as E46 by (apply Rinv_le_contravar; lra).
  assert (/ 2 ^ 43 <= / 2 ^ 30)%R as E43 by (apply Rinv_le_contravar; lra).
  assert (/ 2 ^ 52 <= / 2 ^ 30)%R as E52 by (apply Rinv_le_contravar; lra).
  assert (u53 <= / 2 ^ 30)%R as E53 by (apply Rinv_le_contravar; lra).
  assert (approx u53 (float_of_int rho) (IZR rho)) as Ar.
  { apply approx_int; [destruct Hr; cbn in *; lia|].
    apply (proj2 (proj1 (safe_range (IZR rho) ltac:(lra)))). }
  assert (approx u53 (float_of_int (vel_ms v ^ 2)) (IZR (vel_ms v ^ 2))) as As.
  { apply approx_int; [apply lt_IZR; lra|].
    apply (proj2 (proj1 (safe_range (IZR (vel_ms v ^ 2)) ltac:(lra)))). }
  assert (approx (0 + / 2 ^ 45 + / 2 ^ 52) (0.5 * mass d rho)%float
            (/ 2 * Ideal.mass d rho)) as Ah.
  { apply (approx_mul _ _ _ _ _ _ approx_half (approx_mass d rho Hd Hr)); try lra.
    apply safe_range. lra. }
  repeat split.
  - apply (approx_moderate _ _ _ (approx_volume d Hd)); lra.
  - apply (approx_moderate _ _ _ Ar); lra.
  - apply (approx_moderate _ _ _ (approx_mass d rho Hd Hr)); lra.
  - apply (approx_moderate _ _ _ approx_half); lra.
  - apply (approx_moderate _ _ _ Ah); lra.
  - apply (approx_moderate _ _ _ As); lra.
  - apply (approx_moderate _ _ _ (approx_energy_joules d v rho H)); lra.
  - apply (approx_moderate _ _ _ approx_megaton); lra.
Qed.

(** *** Doubling one slider *)

Lemma volume_doubled (d : Z) :
  10 <= d <= 1000 -> scaled 3 (volume d) (volume (2 * d)).
Proof.
  intros H. apply scaledb_spec.
  apply (forall_range_spec 991 (fun d => scaledb 3 (volume d) (volume (2 * d))) 10);
    [vm_compute; reflexivity|lia].
Qed.

Lemma density_doubled (rho : Z) :
  500 <= rho <= 4000 -> scaled 1 (float_of_int rho) (float_of_int (2 * rho)).
Proof.
  intros H. apply scaledb_spec.
  apply (forall_range_spec 3501
           (fun rho => scaledb 1 (float_of_int rho) (float_of_int (2 * rho))) 500);
    [vm_compute; reflexivity|lia].
Qed.

Lemma speed_doubled (v : Z) :
  5 <= v <= 20 ->
  scaled 2 (float_of_int (vel_ms v ^ 2)) (float_of_int (vel_ms (2 * v) ^ 2)).
Proof.
  intros H. apply scaledb_spec.
  apply (forall_range_spec 16
           (fun v => scaledb 2 (float_of_int (vel_ms v ^ 2))
                       (float_of_int (vel_ms (2 * v) ^ 2))) 5);
    [vm_compute; reflexivity|lia].
Qed.

(** How a scaling of one factor goes through the rest of the calculation. *)
Lemma scaled_mass_energy (k : Z) (d v rho d' rho' : Z) :
  -50 <= k <= 50 -> valid_parameters d v rho ->
  scaled k (mass d rho) (mass d' rho') ->
  scaled k (energy_joules d v rho) (energy_joules d' v rho') /\
  scaled k (energy_megatons d v rho) (energy_megatons d' v rho').
Proof.
  intros Hk H S.
  destruct (pipeline_moderate d v rho H) as (Mv & Mr & Mm & Mh & Mhm & Ms & Mj & Mc).
  pose proof (mul_scaled_r k _ _ 0.5%float Hk S Mm Mh) as S1.
  pose proof (mul_scaled_l k _ _ (float_of_int (vel_ms v ^ 2)) Hk S1 Mhm Ms) as S2.
  split; [exact S2|].
  exact (div_scaled k _ _ 4.184e15%float Hk S2 Mj Mc).
Qed.

(** X9. The cube law, the linear law and the square law hold exactly:
    doubling the diameter multiplies the mass and both energies by exactly
    8, doubling the density by exactly 2, and doubling the velocity
    multiplies both energies by exactly 4, in binary64 and for every
    position from which the doubled slider is still in range. *)
Theorem computeImpact_doubling (d v rho : Z) :
  valid_parameters d v rho ->
  (in_slider diameter_slider (2 * d) ->
   mass_kg (computeImpact (2 * d) v rho) = (8 * mass_kg (computeImpact d v rho))%float /\
   energy_j (computeImpact (2 * d) v rho) = (8 * energy_j (computeImpact d v rho))%float /\
   energy_mt (computeImpact (2 * d) v rho) = (8 * energy_mt (computeImpact d v rho))%float) /\
  (in_slider density_slider (2 * rho) ->
   mass_kg (computeImpact d v (2 * rho)) = (2 * mass_kg (computeImpact d v rho))%float /\
   energy_j (computeImpact d v (2 * rho)) = (2 * energy_j (computeImpact d v rho))%float /\
   energy_mt (computeImpact d v (2 * rho)) = (2 * energy_mt (computeImpact d v rho))%float) /\
  (in_slider velocity_slider (2 * v) ->
   mass_kg (computeImpact d (2 * v) rho) = mass_kg (computeImpact d v rho) /\
   energy_j (computeImpact d (2 * v) rho) = (4 * energy_j (computeImpact d v rho))%float /\
   energy_mt (computeImpact d (2 * v) rho) = (4 * energy_mt (computeImpact d v rho))%float).
Proof.
  intros H. pose proof H as (Hd & Hv & Hr).
  destruct (pipeline_moderate d v rho H) as (Mv & Mr & Mm & Mh & Mhm & Ms & Mj & Mc).
  assert (moderate (energy_megatons d v rho)) as Me.
  { pose proof (energy_megatons_bounds d v rho H) as B.
    apply (approx_moderate _ _ _ (approx_energy_megatons d v rho H)); [|lra].
    apply Rle_trans with (/ 2 ^ 30)%R; apply Rinv_le_contravar; lra. }
  cbn [computeImpact mass_kg energy_j energy_mt].
  split; [|split].
  - intros [_ Hd2]. cbn [s_max diameter_slider] in Hd2.
    assert (scaled 3 (mass d rho) (mass (2 * d) rho)) as S.
    { apply (mul_scaled_l 3 _ _ (float_of_int rho)); try assumption; try lia.
      apply volume_doubled. destruct Hd as [Hd1 _].
      cbn [s_min diameter_slider] in Hd1. lia. }
    destruct (scaled_mass_energy 3 d v rho (2 * d) rho ltac:(lia) H S) as (Sj & Se).
    repeat split; apply (mul_pow2_exact _ _ _ 3); try assumption; try reflexivity; lia.
  - intros [_ Hr2]. cbn [s_max density_slider] in Hr2.
    assert (scaled 1 (mass d rho) (mass d (2 * rho))) as S.
    { apply (mul_scaled_r 1 _ _ (volume d)); try assumption; try lia.
      apply density_doubled. destruct Hr as [Hr1 _].
      cbn [s_min density_slider] in Hr1. lia. }
    destruct (scaled_mass_energy 1 d v rho d (2 * rho) ltac:(lia) H S) as (Sj & Se).
    repeat split; apply (mul_pow2_exact _ _ _ 1); try assumption; try reflexivity; lia.
  - intros [_ Hv2]. cbn [s_max velocity_slider] in Hv2.
    assert (scaled 2 (energy_joules d v rho) (energy_joules d (2 * v) rho)) as Sj.
    { apply (mul_scaled_r 2 _ _ (0.5 * mass d rho)%float); try assumption; try lia.
      apply speed_doubled. destruct Hv as [Hv1 _].
      cbn [s_min velocity_slider] in Hv1. lia. }
    pose proof (div_scaled 2 _ _ 4.184e15%float ltac:(lia) Sj Mj Mc) as Se.
    split; [reflexivity|].
    split; apply (mul_pow2_exact _ _ _ 2); try assumption; try reflexivity; lia.
Qed.

Lemma computeImpact_doubling_witness :
  valid_parameters 300 20 3000 /\ in_slider diameter_slider (2 * 300) /\
  energy_mt (computeImpact (2 * 300) 20 3000)
  = (8 * energy_mt (computeImpact 300 20 3000))%float.
Proof.
  assert (H : valid_parameters 300 20 3000)
    by (unfold valid_parameters, in_slider; cbn; lia).
  assert (H2 : in_slider diameter_slider (2 * 300))
    by (unfold in_slider; cbn; lia).
  split; [exact H|]. split; [exact H2|].
  exact (proj2 (proj2 (proj1 (computeImpact_doubling 300 20 3000 H) H2))).
Defined.

(** ** Accuracy of the energy calculation *)

Section Accuracy.
Local Open Scope R_scope.

Lemma PI_digits : 3.141592653589793238 <= PI <= 3.141592653589793239.
Proof.
  pose proof (PI_2_3_7_ineq 9) as [L U].
  unfold sum_f_R0, tg_alt, PI_2_3_7_tg, Ratan_seq in L, U.
  simpl in L, U.
  split; lra.
Qed.

(** The binary64 product [4/3 * math.pi] lies just below the real number
    4 pi / 3, within a relative distance of 2^-52. *)
Lemma four_thirds_pi_error :
  (1 - / 2 ^ 52) * (4 / 3 * PI) <= Ideal.four_thirds_pi <= 4 / 3 * PI.
Proof. pose proof PI_digits. unfold Ideal.four_thirds_pi. lra. Qed.

(** An approximation of [k X] with [k] close to 1 is an approximation of
    [X]. *)
Lemma approx_rescale (eps del : R) (x : float) (X Y k : R) :
  approx eps x Y -> Y = k * X -> 0 < X -> 0 <= eps <= 1 ->
  1 - del <= k <= 1 -> 0 <= del ->
  approx (eps + del) x X.
Proof.
  intros (HY & v & Hv & Herr) -> HX Heps Hk Hdel.
  split; [exact HX|]. exists v. split; [exact Hv|].
  apply Rabs_le_bounds in Herr.
  assert (0 <= eps * X) as P1 by (apply Rmult_le_pos; lra).
  assert (0 <= k * X <= X) as P2 by (split; nra).
  assert (eps * (k * X) <= eps * X) as P3 by (apply Rmult_le_compat_l; lra).
  assert (0 <= eps * (k * X)) as P4 by (apply Rmult_le_pos; lra).
  assert ((1 - k) * X <= del * X) as P5 by (apply Rmult_le_compat_r; lra).
  apply Rabs_le. lra.
Qed.

Lemma exact_ideal (d v rho : Z) :
  let k := Ideal.four_thirds_pi / (4 / 3 * PI) in
  1 - / 2 ^ 52 <= k <= 1 /\
  Ideal.mass d rho = k * Exact.mass d rho /\
  Ideal.energy_joules d v rho = k * Exact.energy_joules d v rho /\
  Ideal.energy_megatons d v rho = k * Exact.energy_megatons d v rho.
Proof.
  intros k. pose proof four_thirds_pi_error as [E1 E2]. pose proof PI_RGT_0 as Ppos.
  assert (0 < 4 / 3 * PI) as Tpos by lra.
  split.
  - unfold k. split.
    + apply Rmult_le_reg_r with (4 / 3 * PI); [exact Tpos|].
      replace (Ideal.four_thirds_pi / (4 / 3 * PI) * (4 / 3 * PI))
        with Ideal.four_thirds_pi by (field; lra). exact E1.
    + apply Rmult_le_reg_r with (4 / 3 * PI); [exact Tpos|].
      replace (Ideal.four_thirds_pi / (4 / 3 * PI) * (4 / 3 * PI))
        with Ideal.four_thirds_pi by (field; lra). lra.
  - unfold k, Ideal.energy_megatons, Exact.energy_megatons,
      Ideal.energy_joules, Exact.energy_joules, Ideal.mass, Exact.mass,
      Ideal.volume, Exact.volume, Ideal.radius, Exact.radius.
    rewrite pow_IZR. change (Z.of_nat 2) with 2%Z.
    assert (0.5 = / 2) as -> by lra.
    assert (4.184e15 = 4184000000000000) as -> by lra.
    split; [|split]; field; lra.
Qed.

(** X10. The binary64 results agree with the formulas of the script
    evaluated over the real numbers, with the real pi and no rounding: for
    every slider position the computed mass is within a relative distance of
    2^-44 of (4/3) pi (d/2)^3 rho, the energy in joules within 2^-42 and the
    energy in megatons within 2^-41, that is to twelve significant digits. *)
Theorem computeImpact_accuracy (d v rho : Z) :
  valid_parameters d v rho ->
  approx (/ 2 ^ 44) (mass_kg (computeImpact d v rho)) (Exact.mass d rho) /\
  approx (/ 2 ^ 42) (energy_j (computeImpact d v rho)) (Exact.energy_joules d v rho) /\
  approx (/ 2 ^ 41) (energy_mt (computeImpact d v rho)) (Exact.energy_megatons d v rho).
Proof.
  intros H. pose proof H as (Hd & Hv & Hr).
  destruct (exact_ideal d v rho) as (Hk & Em & Ej & Ee).
  set (k := Ideal.four_thirds_pi / (4 / 3 * PI)) in *.
  assert (0 < k) as Kpos.
  { assert (/ 2 ^ 52 <= / 2)%R by (apply Rinv_le_contravar; lra). lra. }
  pose proof (mass_bounds d rho Hd Hr) as Bm.
  pose proof (energy_joules_bounds d v rho H) as Bj.
  pose proof (energy_megatons_bounds d v rho H) as Be.
  assert (forall Y X : R, Y = k * X -> 0 < Y -> 0 < X) as Pos.
  { intros Y X -> HY. apply Rmult_lt_reg_l with k; [exact Kpos|]. lra. }
  assert (0 < / 2 ^ 52 /\ / 2 ^ 45 + / 2 ^ 52 <= / 2 ^ 44 /\
          / 2 ^ 43 + / 2 ^ 52 <= / 2 ^ 42 /\ / 2 ^ 42 + / 2 ^ 52 <= / 2 ^ 41 /\
          0 < / 2 ^ 45 <= 1 /\ 0 < / 2 ^ 43 <= 1 /\ 0 < / 2 ^ 42 <= 1)%R
    as (U0 & U1 & U2 & U3 & U4 & U5 & U6).
  { assert (0 < / 2 ^ 52)%R by (apply Rinv_0_lt_compat; lra).
    assert (0 < / 2 ^ 45)%R by (apply Rinv_0_lt_compat; lra).
    assert (0 < / 2 ^ 43)%R by (apply Rinv_0_lt_compat; lra).
    assert (0 < / 2 ^ 42)%R by (apply Rinv_0_lt_compat; lra).
    lra. }
  cbn [computeImpact mass_kg energy_j energy_mt].
  split; [|split].
  - apply approx_weaken with (/ 2 ^ 45 + / 2 ^ 52)%R; [|lra].
    apply (approx_rescale _ _ _ _ _ k (approx_mass d rho Hd Hr) Em); try lra.
    apply (Pos _ _ Em). lra.
  - apply approx_weaken with (/ 2 ^ 43 + / 2 ^ 52)%R; [|lra].
    apply (approx_rescale _ _ _ _ _ k (approx_energy_joules d v rho H) Ej); try lra.
    apply (Pos _ _ Ej). lra.
  - apply approx_weaken with (/ 2 ^ 42 + / 2 ^ 52)%R; [|lra].
    apply (approx_rescale _ _ _ _ _ k (approx_energy_megatons d v rho H) Ee); try lra.
    apply (Pos _ _ Ee). lra.
Qed.

Lemma computeImpact_accuracy_witness :
  valid_parameters 300 20 3000 /\
  approx (/ 2 ^ 41) (energy_mt (computeImpact 300 20 3000))
    (Exact.energy_megatons 300 20 3000).
Proof.
  assert (H : valid_parameters 300 20 3000)
    by (unfold valid_parameters, in_slider; cbn; lia).
  split; [exact H|].
  exact (proj2 (proj2 (computeImpact_accuracy 300 20 3000 H))).
Defined.

End Accuracy.

(** ** Section 4.4: orbit sampling *)

(** ** Rounding near zero *)

Lemma Zdigits2_nonneg (m : Z) : 0 <= Zdigits2 m.
Proof. destruct m; cbn; lia. Qed.

Lemma Zdigits2_pos (m : Z) : 0 < m -> 0 < Zdigits2 m.
Proof. destruct m; cbn; lia. Qed.

Lemma Zdigits2_bounds (m : Z) :
  0 < m -> 2 ^ (Zdigits2 m - 1) <= m < 2 ^ Zdigits2 m.
Proof. intros H. destruct m as [|p|p]; try lia. apply digits2_pos_bounds. Qed.

(** Second pass of [binary_round_aux] on a mantissa of at most 53 digits,
    or equal to 2^53, at an exponent not below the least one. *)
Lemma second_pass (s : bool) (m1 T : Z) :
  0 <= m1 <= 2 ^ 53 -> -1074 <= T <= 970 ->
  exists r : spec_float,
    (let '(mrs, e'') := shr_fexp prec emax m1 T loc_Exact in
     match shr_m mrs with
     | 0 => S754_zero s
     | Zpos m => if e'' <=? emax - prec then S754_finite s m e'' else S754_infinity s
     | Zneg _ => S754_nan
     end) = r /\
    SFfinite r = true /\
    SFval r = ((if s then - IZR m1 else IZR m1) * pow2 T)%R.
Proof.
  intros Hm HT.
  destruct (Z.eq_dec m1 (2 ^ 53)) as [->|Hne].
  - eexists. split; [exact (renormalise_form s (2 ^ 53) T ltac:(lia) HT)|].
    unfold renormalised. rewrite Z.eqb_refl. split; [reflexivity|].
    cbn [SFval]. rewrite pow2_add.
    assert (pow2 1 = 2)%R as -> by exact (powerRZ_1 2).
    change (Zpos (Z.to_pos (2 ^ 52))) with (2 ^ 52). change (2 ^ 53) with (2 * 2 ^ 52).
    rewrite !mult_IZR. destruct s; ring.
  - destruct m1 as [|p|p]; try lia.
    + exists (S754_zero s). split; [|split].
      * unfold shr_fexp. cbn [Zdigits2 Z.add]. unfold fexp, SpecFloat.emin, prec, emax.
        replace (Z.max (T - 53) (3 - 1024 - 53) - T) with (- (T - Z.max (T - 53) (-1074)))
          by lia.
        assert (0 <= T - Z.max (T - 53) (-1074)) as Hn by lia.
        destruct (T - Z.max (T - 53) (-1074)) as [|q|q]; try lia; reflexivity.
      * reflexivity.
      * cbn [SFval]. destruct s; rewrite ?Ropp_0; ring.
    + pose proof (Zdigits2_bounds (Zpos p) ltac:(lia)) as Hd.
      assert (Zdigits2 (Zpos p) <= 53) as Hd53.
      { destruct (Z_lt_le_dec 53 (Zdigits2 (Zpos p))) as [L|L]; [|exact L].
        assert (2 ^ 53 <= 2 ^ (Zdigits2 (Zpos p) - 1)) by (apply Z.pow_le_mono_r; lia).
        lia. }
      exists (S754_finite s p T). split; [|split; reflexivity].
      unfold shr_fexp. unfold fexp, SpecFloat.emin, prec, emax.
      set (n := Z.max (Zdigits2 (Zpos p) + T - 53) (3 - 1024 - 53) - T).
      assert (n <= 0) as Hn by (subst n; lia).
      destruct n as [|q|q]; try lia; cbn [shr shr_record_of_loc shr_m];
        replace (T <=? 1024 - 53) with true by (symmetry; apply Z.leb_le; lia);
        reflexivity.
Qed.

(** Rounding an exact positive number below 4: the result is finite and
    within 2^-52 of it, whether it is normal, subnormal or rounds to zero. *)
Lemma binary_round_aux_near (s : bool) (m0 e0 : Z) :
  0 < m0 -> Zdigits2 m0 + e0 <= 2 ->
  SFfinite (binary_round_aux prec emax s m0 e0 loc_Exact) = true /\
  (Rabs (SFval (binary_round_aux prec emax s m0 e0 loc_Exact)
         - (if s then - IZR m0 else IZR m0) * pow2 e0) <= / 2 ^ 52)%R.
Proof.
  intros Hm0 Hd.
  pose proof (Zdigits2_bounds m0 Hm0) as Hdig.
  pose proof (Zdigits2_pos m0 Hm0) as Hdpos.
  set (d := Zdigits2 m0) in *.
  set (e1 := Z.max (d + e0 - 53) (-1074)).
  assert (fexp prec emax (d + e0) = e1) as Hfexp
    by (unfold fexp, SpecFloat.emin, prec, emax; subst e1; lia).
  destruct (Z_le_gt_dec (e1 - e0) 0) as [Hn|Hn].
  - (* no shift: the number is representable *)
    assert (d <= 53) as Hd53 by (subst e1; lia).
    assert (m0 < 2 ^ 53).
    { assert (2 ^ d <= 2 ^ 53) by (apply Z.pow_le_mono_r; lia). lia. }
    destruct (second_pass s m0 e0 ltac:(lia) ltac:(subst e1; lia)) as (r & Er & Fr & Vr).
    assert (binary_round_aux prec emax s m0 e0 loc_Exact = r) as ->.
    { unfold binary_round_aux, shr_fexp at 1. fold d. rewrite Hfexp.
      replace (shr (shr_record_of_loc m0 loc_Exact) e0 (e1 - e0))
        with (shr_record_of_loc m0 loc_Exact, e0)
        by (destruct (e1 - e0) as [|q|q]; try lia; reflexivity).
      exact Er. }
    split; [exact Fr|]. rewrite Vr.
    replace (_ - _)%R with 0%R by ring. rewrite Rabs_R0.
    apply Rlt_le, Rinv_0_lt_compat. lra.
  - set (n := e1 - e0) in *.
    assert (0 <= n) as Hn0 by lia.
    assert (0 < 2 ^ n) as Hpn by (apply Z.pow_pos_nonneg; lia).
    destruct (shr_sticky (shr_record_of_loc m0 loc_Exact) e0 n (2 * m0) 1
                ltac:(lia) ltac:(lia) ltac:(cbn; lia) Hn0
                ltac:(rewrite sticky_exact; loc_simpl; lia)) as (He' & Hc' & Hm').
    remember (shr (shr_record_of_loc m0 loc_Exact) e0 n) as p eqn:Ep.
    destruct p as [mrs' e'].
    cbn [fst snd] in *. subst e'. rewrite Z.mul_1_l in Hc'.
    pose proof (shr_m_sticky mrs' (2 * m0) (2 ^ n) ltac:(lia) Hpn Hc') as Hm.
    destruct (round_nearest_even_sticky mrs' (2 * m0) (2 ^ n) ltac:(lia) Hpn Hc')
      as (Hr & Herr).
    set (m1 := round_nearest_even (shr_m mrs') (loc_of_shr_record mrs')) in *.
    assert (shr_m mrs' = m0 / 2 ^ n) as Hm_div.
    { rewrite Hm. apply Z.div_mul_cancel_l; lia. }
    assert (shr_m mrs' < 2 ^ 53) as Hmb.
    { rewrite Hm_div. apply Z.div_lt_upper_bound; [lia|].
      rewrite <- Z.pow_add_r by lia.
      assert (2 ^ d <= 2 ^ (n + 53)) by (apply Z.pow_le_mono_r; subst n e1; lia). lia. }
    assert (0 <= m1 <= 2 ^ 53) as Hm1 by lia.
    assert (e0 + n = e1) as He1 by (subst n; lia).
    destruct (second_pass s m1 e1 Hm1 ltac:(subst e1; lia)) as (r & Er & Fr & Vr).
    assert (binary_round_aux prec emax s m0 e0 loc_Exact = r) as ->.
    { unfold binary_round_aux, shr_fexp at 1. fold d. rewrite Hfexp. fold n.
      rewrite <- Ep. rewrite He1. exact Er. }
    clearbody m1.
    split; [exact Fr|]. rewrite Vr.
    (* error: half a unit at exponent e1 <= -51 *)
    assert (Rabs (IZR m1 * pow2 e1 - IZR m0 * pow2 e0) <= / 2 ^ 52)%R as E.
    { assert (pow2 e1 = IZR (2 ^ n) * pow2 e0)%R as P1.
      { rewrite pow2_IZR by lia. rewrite <- pow2_add. f_equal. subst n. lia. }
      assert (pow2 e1 <= pow2 (-51))%R as P2 by (apply pow2_le; subst e1; lia).
      assert (pow2 (-51) = 2 * / 2 ^ 52)%R as P3.
      { change (-51) with (1 + - Z.of_nat 52). rewrite pow2_add, pow2_neg_nat.
        f_equal. exact (powerRZ_1 2). }
      pose proof (pow2_pos e0) as Pe0. pose proof (pow2_pos e1) as Pe1.
      assert (Rabs (2 * IZR (2 ^ n) * IZR m1 - IZR (2 * m0)) <= IZR (2 ^ n))%R as E1.
      { rewrite <- !mult_IZR, <- minus_IZR, <- abs_IZR. apply IZR_le. exact Herr. }
      rewrite mult_IZR in E1. apply Rabs_le_bounds in E1.
      apply Rabs_le. rewrite P1 in *.
      set (a := IZR (2 ^ n)) in *. set (b := pow2 e0) in *.
      assert (0 < a)%R by (apply IZR_lt; exact Hpn).
      assert (- (a * b) <= 2 * (IZR m1 * (a * b) - IZR m0 * b) <= a * b)%R.
      { split; nra. }
      lra. }
    destruct s; [|exact E].
    replace (- IZR m1 * pow2 e1 - - IZR m0 * pow2 e0)%R
      with (- (IZR m1 * pow2 e1 - IZR m0 * pow2 e0))%R by ring.
    rewrite Rabs_Ropp. exact E.
Qed.

(** The product of a constant in [1/2, 2) with a finite number of
    magnitude at most 2 is finite and within 2^-52 of the exact product,
    whatever the sign and the size of the number. *)
Lemma mul_const_near (c x : float) (mc : positive) (ec : Z) :
  Prim2SF c = S754_finite false mc ec ->
  Zpos mc < 2 ^ 53 -> -53 <= ec <= -52 ->
  finite64 x = true -> (Rabs (fval x) <= 2)%R ->
  finite64 (c * x) = true /\
  (Rabs (fval (c * x) - fval c * fval x) <= / 2 ^ 52)%R.
Proof.
  unfold finite64, fval. intros Hc Hmc Hec Fx Bx.
  rewrite mul_spec, Hc. destruct (Prim2SF x) as [sx|sx| |sx mx ex]; try discriminate.
  - cbn. split; [reflexivity|]. rewrite Rmult_0_r, Rminus_0_r, Rabs_R0.
    apply Rlt_le, Rinv_0_lt_compat. lra.
  - cbn [SFval] in *. unfold SF64mul, SFmul. cbn [xorb].
    assert (Rabs ((if sx then - IZR (Zpos mx) else IZR (Zpos mx)) * pow2 ex)
            = IZR (Zpos mx) * pow2 ex)%R as EA.
    { pose proof (pow2_pos ex). assert (0 < IZR (Zpos mx))%R by (apply IZR_lt; lia).
      destruct sx.
      - replace (- IZR (Zpos mx) * pow2 ex)%R with (- (IZR (Zpos mx) * pow2 ex))%R by ring.
        rewrite Rabs_Ropp. apply Rabs_pos_eq. nra.
      - apply Rabs_pos_eq. nra. }
    rewrite EA in Bx.
    assert (ex <= 1 /\ Zpos mx <= 2 ^ (1 - ex)) as (Hex & Hmx).
    { assert (1 <= IZR (Zpos mx))%R as M1 by (apply IZR_le; lia).
      assert (pow2 1 = 2)%R as E1 by exact (powerRZ_1 2).
      assert (ex <= 1) as Hex.
      { destruct (Z_le_gt_dec ex 1) as [L|L]; [exact L|exfalso].
        assert (pow2 2 <= pow2 ex)%R as P by (apply pow2_le; lia).
        change 2 with (1 + 1) in P at 1. rewrite pow2_add, E1 in P.
        pose proof (pow2_pos ex). nra. }
      split; [exact Hex|]. apply le_IZR. rewrite pow2_IZR by lia.
      replace (1 - ex) with (1 + - ex) by lia. rewrite pow2_add, E1.
      pose proof (pow2_pos ex) as Pe. pose proof (pow2_pos (- ex)) as Pe'.
      assert (pow2 ex * pow2 (- ex) = 1)%R as I.
      { rewrite <- pow2_add. replace (ex + - ex) with 0 by lia. apply pow2_0. }
      apply Rmult_le_reg_r with (pow2 ex); [exact Pe|].
      rewrite Rmult_assoc, (Rmult_comm (pow2 (- ex))), I. lra. }
    assert (0 < 2 ^ (1 - ex)) as P1 by (apply Z.pow_pos_nonneg; lia).
    assert (2 ^ 53 <= 2 ^ (1 - ec)) as P2 by (apply Z.pow_le_mono_r; lia).
    assert (Zpos mc * Zpos mx < 2 ^ (2 - (ec + ex))) as HM.
    { replace (2 - (ec + ex)) with ((1 - ec) + (1 - ex)) by lia.
      rewrite Z.pow_add_r by lia. nia. }
    pose proof (Zdigits2_le (Zpos mc * Zpos mx) (2 - (ec + ex)) ltac:(lia) HM) as Hd.
    destruct (binary_round_aux_near sx (Zpos mc * Zpos mx) (ec + ex) ltac:(lia) ltac:(lia))
      as (F & E).
    split; [exact F|].
    replace (IZR (Zpos mc) * pow2 ec
             * ((if sx then - IZR (Zpos mx) else IZR (Zpos mx)) * pow2 ex))%R
      with ((if sx then - IZR (Zpos mc * Zpos mx) else IZR (Zpos mc * Zpos mx))
            * pow2 (ec + ex))%R; [exact E|].
    rewrite pow2_add, mult_IZR. destruct sx; ring.
Qed.

Section Angles.
Local Open Scope R_scope.

Lemma angle_near (t : Z) :
  (0 <= t < 360)%Z ->
  finite64 (Orbit.radians (float_of_int t)) = true /\
  0 <= fval (Orbit.radians (float_of_int t)) <= 2 * PI /\
  Rabs (fval (Orbit.radians (float_of_int t)) - degrees t) <= / 2 ^ 50.
Proof.
  intros Ht.
  assert (angle_check t = true) as C.
  { apply (forall_range_spec 360 angle_check 0); [vm_compute; reflexivity|lia]. }
  unfold angle_check in C. unfold finite64, fval, degrees.
  pose proof PI_digits as [Plo Phi].
  destruct (Prim2SF (Orbit.radians (float_of_int t))) as [s|s| |[] m e]; try discriminate.
  - apply Z.eqb_eq in C. subst t. cbn [SFfinite SFval].
    split; [reflexivity|]. split; [lra|].
    rewrite Rmult_0_l, Rminus_0_r, Rabs_R0. apply Rlt_le, Rinv_0_lt_compat. lra.
  - apply andb_true_iff in C as (C1 & C2). apply Z.leb_le in C1, C2.
    cbn [SFfinite SFval]. split; [reflexivity|].
    assert (0 < 2 ^ (- e))%Z as Kz by (apply Z.pow_pos_nonneg; lia).
    assert (pow2 e = / IZR (2 ^ (- e))) as Pe.
    { rewrite pow2_IZR by lia. apply Rmult_eq_reg_r with (pow2 (- e)).
      - rewrite <- pow2_add, Rinv_l.
        + replace (e + - e)%Z with 0%Z by lia. apply pow2_0.
        + apply Rgt_not_eq, pow2_pos.
      - apply Rgt_not_eq, pow2_pos. }
    rewrite Pe.
    set (K := IZR (2 ^ (- e))) in *.
    assert (0 < K) as Kpos by (apply IZR_lt; exact Kz).
    set (A := IZR (Zpos m)) in *.
    assert (0 < A) as Apos by (apply IZR_lt; lia).
    assert (0 <= IZR t <= 359) as Tb by (split; apply IZR_le; lia).
    apply IZR_le in C2.
    rewrite !mult_IZR, abs_IZR, minus_IZR, !mult_IZR in C2.
    fold K A in C2.
    replace (IZR (10 ^ 16)) with (10 ^ 16) in C2 by (rewrite pow_IZR; reflexivity).
    replace (IZR (10 ^ 18)) with (10 ^ 18) in C2 by (rewrite pow_IZR; reflexivity).
    assert (Rabs (A * (180 * 10 ^ 18) - IZR t * 3141592653589793238 * K)
            <= 6 * (180 * 10 ^ 18) / 10 ^ 16 * K) as C3 by lra.
    apply Rabs_le_bounds in C3.
    set (X := A * / K).
    assert (A = X * K) as EA by (unfold X; field; lra).
    rewrite EA in C3.
    assert (0 < X) as Xpos by (unfold X; apply Rmult_lt_0_compat;
                               [exact Apos|apply Rinv_0_lt_compat; exact Kpos]).
    assert (- (6 * (180 * 10 ^ 18) / 10 ^ 16)
            <= X * (180 * 10 ^ 18) - IZR t * 3141592653589793238
            <= 6 * (180 * 10 ^ 18) / 10 ^ 16) as C4.
    { split; apply Rmult_le_reg_r with K; try exact Kpos; lra. }
    assert (IZR t * 3.141592653589793238 <= IZR t * PI <= IZR t * 3.141592653589793239)
      as TP by (split; apply Rmult_le_compat_l; lra).
    assert (/ 2 ^ 50 <= / 1000) as U50 by (apply Rinv_le_contravar; lra).
    assert (- / 2 ^ 50 <= X - IZR t * (PI / 180) <= / 2 ^ 50) as Fin by lra.
    split; [lra|]. apply Rabs_le. exact Fin.
Qed.

End Angles.

Module OrbitFacts.
Import Orbit.

Section Trig.
Local Open Scope R_scope.

Lemma sin_abs_le (y : R) : Rabs (sin y) <= Rabs y.
Proof.
  assert (forall z, 0 <= z -> Rabs (sin z) <= z) as P.
  { intros z Hz. destruct Hz as [Hz|<-]; [|rewrite sin_0, Rabs_R0; lra].
    pose proof (sin_lt_x z Hz) as U. apply Rabs_le. split; [|lra].
    destruct (Rle_dec z PI) as [L|L].
    - pose proof (sin_ge_0 z ltac:(lra) L). lra.
    - pose proof (SIN_bound z). pose proof PI2_3_2. lra. }
  destruct (Rle_dec 0 y) as [H|H].
  - rewrite (Rabs_pos_eq y) by exact H. apply P. exact H.
  - rewrite <- (Rabs_Ropp (sin y)), <- sin_neg, <- (Rabs_Ropp y).
    rewrite (Rabs_pos_eq (- y)) by lra. apply P. lra.
Qed.

Lemma cos_lipschitz (a b : R) : Rabs (cos a - cos b) <= Rabs (a - b).
Proof.
  rewrite form2, !Rabs_mult.
  pose proof (sin_abs_le ((a - b) / 2)) as S1.
  pose proof (SIN_bound ((a + b) / 2)) as S2.
  assert (Rabs (sin ((a + b) / 2)) <= 1) as S3 by (apply Rabs_le; lra).
  replace (Rabs (-2)) with 2 by (rewrite Rabs_left; lra).
  assert (Rabs ((a - b) / 2) = Rabs (a - b) / 2) as E.
  { unfold Rdiv. rewrite Rabs_mult, (Rabs_pos_eq (/ 2)) by lra. reflexivity. }
  rewrite E in S1.
  pose proof (Rabs_pos (sin ((a - b) / 2))). pose proof (Rabs_pos (sin ((a + b) / 2))).
  nra.
Qed.

Lemma sin_lipschitz (a b : R) : Rabs (sin a - sin b) <= Rabs (a - b).
Proof.
  rewrite form4, !Rabs_mult.
  pose proof (sin_abs_le ((a - b) / 2)) as S1.
  pose proof (COS_bound ((a + b) / 2)) as S2.
  assert (Rabs (cos ((a + b) / 2)) <= 1) as S3 by (apply Rabs_le; lra).
  rewrite (Rabs_pos_eq 2) by lra.
  assert (Rabs ((a - b) / 2) = Rabs (a - b) / 2) as E.
  { unfold Rdiv. rewrite Rabs_mult, (Rabs_pos_eq (/ 2)) by lra. reflexivity. }
  rewrite E in S1.
  pose proof (Rabs_pos (sin ((a - b) / 2))). pose proof (Rabs_pos (cos ((a + b) / 2))).
  nra.
Qed.

Lemma fval_1_5 : fval 1.5 = 1.5.
Proof.
  unfold fval. change (Prim2SF 1.5) with (S754_finite false 6755399441055744 (-52)).
  cbn [SFval]. replace (pow2 (-52)) with (/ 2 ^ 52) by (symmetry; exact (pow2_neg_nat 52)).
  lra.
Qed.

Lemma fval_0_7 : 0.7 - / 2 ^ 54 <= fval 0.7 <= 0.7.
Proof.
  unfold fval. change (Prim2SF 0.7) with (S754_finite false 6305039478318694 (-53)).
  cbn [SFval]. replace (pow2 (-53)) with (/ 2 ^ 53) by (symmetry; exact (pow2_neg_nat 53)).
  lra.
Qed.

End Trig.

Section Samples.
Variable L : libm.
Hypothesis HL : libm_spec L.
Local Open Scope R_scope.

(** The four coordinates computed for t degrees against their exact
    values. *)
Lemma sample_near (t : Z) :
  (0 <= t < 360)%Z ->
  close_to (/ 2 ^ 49) (cos_deg L t) (cos (degrees t)) /\
  close_to (/ 2 ^ 49) (sin_deg L t) (sin (degrees t)) /\
  close_to (/ 2 ^ 49) (1.5 * cos_deg L t) (1.5 * cos (degrees t)) /\
  close_to (/ 2 ^ 49) (0.7 * sin_deg L t) (0.7 * sin (degrees t)).
Proof.
  intros Ht. unfold close_to. destruct HL as (_ & _ & Hc & Hs).
  destruct (angle_near t Ht) as (Fa & Ra & Ea).
  set (a := radians (float_of_int t)) in *.
  destruct (Hc a Fa Ra) as (Fc & Ec). destruct (Hs a Fa Ra) as (Fs & Es).
  fold (cos_deg L t) in Fc, Ec. fold (sin_deg L t) in Fs, Es.
  unfold cos_deg, sin_deg in *. fold a.
  pose proof (cos_lipschitz (fval a) (degrees t)) as Lc.
  pose proof (sin_lipschitz (fval a) (degrees t)) as Ls.
  pose proof (COS_bound (degrees t)) as Bc. pose proof (SIN_bound (degrees t)) as Bs.
  set (c := fval (cos64 L a)) in *. set (s := fval (sin64 L a)) in *.
  set (C := cos (degrees t)) in *. set (S := sin (degrees t)) in *.
  set (C' := cos (fval a)) in *. set (S' := sin (fval a)) in *.
  set (d := fval a - degrees t) in *.
  apply Rabs_le_bounds in Ec, Es, Ea, Lc, Ls.
  pose proof (Rabs_pos d) as Dpos.
  assert (Rabs d <= / 2 ^ 50) as Ea' by (apply Rabs_le; lra).
  assert (/ 2 ^ 53 + / 2 ^ 50 <= / 2 ^ 49 /\ 0 < / 2 ^ 53 /\
          / 2 ^ 52 + 1.5 * (/ 2 ^ 53 + / 2 ^ 50) <= / 2 ^ 49 /\
          / 2 ^ 52 + (/ 2 ^ 53 + / 2 ^ 50) + / 2 ^ 54 <= / 2 ^ 49 /\
          / 2 ^ 49 <= 1 /\ 0 < / 2 ^ 54) as (U1 & U2 & U3 & U4 & U5 & U6).
  { assert (/ 2 ^ 49 = 32 * / 2 ^ 54) as -> by field.
    assert (/ 2 ^ 50 = 16 * / 2 ^ 54) as -> by field.
    assert (/ 2 ^ 52 = 4 * / 2 ^ 54) as -> by field.
    assert (/ 2 ^ 53 = 2 * / 2 ^ 54) as -> by field.
    assert (0 < / 2 ^ 54) by (apply Rinv_0_lt_compat; lra).
    assert (/ 2 ^ 54 <= / 32) by (apply Rinv_le_contravar; lra).
    lra. }
  assert (Rabs (c - C) <= / 2 ^ 53 + / 2 ^ 50) as Nc by (apply Rabs_le; lra).
  assert (Rabs (s - S) <= / 2 ^ 53 + / 2 ^ 50) as Ns by (apply Rabs_le; lra).
  apply Rabs_le_bounds in Nc, Ns.
  assert (Rabs c <= 2) as Bc2 by (apply Rabs_le; lra).
  assert (Rabs s <= 2) as Bs2 by (apply Rabs_le; lra).
  destruct (mul_const_near 1.5 (cos64 L a) 6755399441055744 (-52) eq_refl
              ltac:(lia) ltac:(lia) Fc Bc2) as (F15 & E15).
  destruct (mul_const_near 0.7 (sin64 L a) 6305039478318694 (-53) eq_refl
              ltac:(lia) ltac:(lia) Fs Bs2) as (F07 & E07).
  fold c in E15. fold s in E07. rewrite fval_1_5 in E15.
  pose proof fval_0_7 as B07.
  apply Rabs_le_bounds in E15, E07.
  repeat split; try assumption; apply Rabs_le; try lra.
  set (k := fval 0.7) in *.
  assert (- (/ 2 ^ 53 + / 2 ^ 50) <= k * (s - S) <= / 2 ^ 53 + / 2 ^ 50) by (split; nra).
  assert (- / 2 ^ 54 <= (k - 0.7) * S <= / 2 ^ 54) by (split; nra).
  lra.
Qed.

Lemma sample_finite (t : Z) :
  (0 <= t < 360)%Z ->
  finite_point (cos_deg L t, sin_deg L t, 0%Z) /\
  finite_point ((1.5 * cos_deg L t)%float, (0.7 * sin_deg L t)%float, 0%Z).
Proof.
  intros Ht. destruct (sample_near t Ht) as ((F1 & _) & (F2 & _) & (F3 & _) & (F4 & _)).
  split; split; assumption.
Qed.

End Samples.

Lemma nth_error_combine {A B : Type} (l1 : list A) (l2 : list B) :
  forall n,
    nth_error (combine l1 l2) n =
    match nth_error l1 n, nth_error l2 n with
    | Some a, Some b => Some (a, b)
    | _, _ => None
    end.
Proof.
  revert l2. induction l1 as [|a l1 IH]; intros [|b l2] [|n]; cbn; try reflexivity.
  - destruct (nth_error l1 n); reflexivity.
  - apply IH.
Qed.

Lemma nth_error_theta (t : nat) :
  (t < 360)%nat -> nth_error theta t = Some (Z.of_nat t).
Proof.
  intros Ht. unfold theta. rewrite nth_error_map.
  rewrite (nth_error_nth' _ 0%nat) by (rewrite length_seq; exact Ht).
  rewrite seq_nth by exact Ht. reflexivity.
Qed.

Lemma nth_error_points (f g : Z -> float) (t : nat) :
  (t < 360)%nat ->
  nth_error (points (map f theta) (map g theta) orbit_z) t
  = Some (f (Z.of_nat t), g (Z.of_nat t), 0%Z).
Proof.
  intros Ht. unfold points, orbit_z.
  rewrite !nth_error_combine, !nth_error_map, (nth_error_theta t Ht).
  rewrite nth_error_repeat by exact Ht. reflexivity.
Qed.

Lemma length_points (f g : Z -> float) :
  length (points (map f theta) (map g theta) orbit_z) = 360%nat.
Proof.
  unfold points, orbit_z, theta.
  rewrite !length_combine, !length_map, length_seq, repeat_length. reflexivity.
Qed.

Lemma nth_error_earth (L : libm) (t : nat) :
  (t < 360)%nat ->
  nth_error (earth_points (sampleOrbits L)) t
  = Some (cos_deg L (Z.of_nat t), sin_deg L (Z.of_nat t), 0%Z).
Proof. intros Ht. exact (nth_error_points _ _ t Ht). Qed.

Lemma nth_error_asteroid (L : libm) (t : nat) :
  (t < 360)%nat ->
  nth_error (asteroid_points (sampleOrbits L)) t
  = Some ((1.5 * cos_deg L (Z.of_nat t))%float, (0.7 * sin_deg L (Z.of_nat t))%float, 0%Z).
Proof. intros Ht. exact (nth_error_points _ _ t Ht). Qed.

Section One.
Local Open Scope R_scope.

(** The only finite binary64 number within 2^-53 of 1 is 1. *)
Lemma near_one (f : float) :
  finite64 f = true -> Rabs (fval f - 1) < / 2 ^ 53 -> f = 1%float.
Proof.
  unfold finite64, fval. intros F H. pose proof (Prim2SF_valid f) as V.
  assert (/ 2 ^ 53 <= / 2) as U by (apply Rinv_le_contravar; lra).
  assert (0 < / 2 ^ 53) as U0 by (apply Rinv_0_lt_compat; lra).
  apply Rabs_def2 in H.
  destruct (Prim2SF f) as [s|s| |s m e] eqn:E; try discriminate.
  - cbn [SFval] in H. lra.
  - cbn [SFval] in H. pose proof (pow2_pos e) as Pe.
    assert (0 < IZR (Zpos m)) as Mpos by (apply IZR_lt; lia).
    destruct s; [nra|].
    unfold valid_binary, SpecFloat.bounded, SpecFloat.canonical_mantissa in V.
    apply andb_true_iff in V as (V1 & V2). apply Z.eqb_eq in V1.
    pose proof (digits2_pos_bounds m) as Dg. cbn [Zdigits2] in *.
    set (d := Zpos (digits2_pos m)) in *.
    assert (pow2 1 = 2) as E1 by exact (powerRZ_1 2).
    assert (pow2 (-1) = / 2) as Em1.
    { change (-1)%Z with (- Z.of_nat 1)%Z. rewrite pow2_neg_nat. f_equal. ring. }
    assert (0 <= d + e)%Z as Hde.
    { destruct (Z_le_gt_dec 0 (d + e)) as [L|L]; [exact L|exfalso].
      assert (IZR (Zpos m) < pow2 d) by (rewrite <- pow2_IZR by lia; apply IZR_lt; lia).
      assert (pow2 (d + e) <= pow2 (-1)) as P by (apply pow2_le; lia).
      rewrite pow2_add in P. nra. }
    unfold fexp, SpecFloat.emin, prec, emax in V1.
    assert (d = 53)%Z as D53 by lia.
    rewrite D53 in Dg. change (53 - 1)%Z with 52%Z in Dg.
    assert (pow2 52 <= IZR (Zpos m) /\ IZR (Zpos m) + 1 <= pow2 53) as (B1 & B2).
    { rewrite <- !pow2_IZR by lia. rewrite <- plus_IZR. split; apply IZR_le; lia. }
    assert (pow2 53 = 2 * pow2 52) as E53.
    { change 53%Z with (1 + 52)%Z. rewrite pow2_add, E1. reflexivity. }
    assert (pow2 52 * pow2 (-52) = 1) as I52.
    { rewrite <- pow2_add. apply pow2_0. }
    assert (pow2 (-52) = 2 * / 2 ^ 53) as P52.
    { change (-52)%Z with (1 + - Z.of_nat 53)%Z. rewrite pow2_add, pow2_neg_nat, E1.
      reflexivity. }
    pose proof (pow2_pos 52) as Q52. pose proof (pow2_pos (-52)) as Q52'.
    assert (e = -52)%Z as ->.
    { destruct (Z.lt_trichotomy e (-52)) as [L|[L|L]]; [exfalso|exact L|exfalso].
      - assert (pow2 (e + 1) <= pow2 (-52)) as P by (apply pow2_le; lia).
        rewrite pow2_add, E1 in P.
        assert ((IZR (Zpos m) + 1) * pow2 e <= pow2 53 * pow2 e)
          by (apply Rmult_le_compat_r; lra).
        rewrite E53 in *. nra.
      - assert (pow2 (-52 + 1) <= pow2 e) as P by (apply pow2_le; lia).
        rewrite pow2_add, E1 in P.
        assert (pow2 52 * pow2 e <= IZR (Zpos m) * pow2 e)
          by (apply Rmult_le_compat_r; lra).
        nra. }
    assert (Zpos m = 2 ^ 52)%Z as Hm.
    { destruct (Z.eq_dec (Zpos m) (2 ^ 52)) as [Q|Q]; [exact Q|exfalso].
      assert (pow2 52 + 1 <= IZR (Zpos m)).
      { rewrite <- pow2_IZR by lia. rewrite <- plus_IZR. apply IZR_le. lia. }
      assert ((pow2 52 + 1) * pow2 (-52) <= IZR (Zpos m) * pow2 (-52))
        by (apply Rmult_le_compat_r; lra).
      nra. }
    apply Prim2SF_inj. rewrite E.
    change (Prim2SF 1) with (S754_finite false 4503599627370496 (-52)).
    f_equal. lia.
Qed.

(** A binary64 number whose mantissa is not a power of two is at least one
    unit in the last place away from every other finite binary64 number. *)
Lemma near_normal (f : float) (m : positive) (e : Z) :
  (2 ^ 52 < Zpos m < 2 ^ 53)%Z -> (-1074 <= e)%Z ->
  finite64 f = true ->
  Rabs (fval f - IZR (Zpos m) * pow2 e) < pow2 e ->
  Prim2SF f = S754_finite false m e.
Proof.
  unfold finite64, fval. intros Hm He F H. pose proof (Prim2SF_valid f) as V.
  pose proof (pow2_pos e) as Pe.
  assert (pow2 52 + 1 <= IZR (Zpos m) /\ IZR (Zpos m) + 1 <= pow2 53) as (M1 & M2).
  { rewrite <- !pow2_IZR by lia. rewrite <- !plus_IZR. split; apply IZR_le; lia. }
  assert (pow2 1 = 2) as E1 by exact (powerRZ_1 2).
  assert (pow2 53 = 2 * pow2 52) as E53.
  { change 53%Z with (1 + 52)%Z. rewrite pow2_add, E1. reflexivity. }
  pose proof (pow2_pos 52) as Q52.
  apply Rabs_def2 in H.
  destruct (Prim2SF f) as [s|s| |s mf ef] eqn:E; try discriminate.
  - cbn [SFval] in H. nra.
  - cbn [SFval] in H. pose proof (pow2_pos ef) as Pf.
    assert (0 < IZR (Zpos mf)) as Mpos by (apply IZR_lt; lia).
    destruct s; [nra|].
    unfold valid_binary, SpecFloat.bounded, SpecFloat.canonical_mantissa in V.
    apply andb_true_iff in V as (V1 & V2). apply Z.eqb_eq in V1.
    pose proof (digits2_pos_bounds mf) as Dg. cbn [Zdigits2] in *.
    set (d := Zpos (digits2_pos mf)) in *.
    unfold fexp, SpecFloat.emin, prec, emax in V1.
    assert (d <= 53)%Z as D53 by lia.
    assert (IZR (Zpos mf) + 1 <= pow2 53) as F2.
    { rewrite <- pow2_IZR by lia. rewrite <- plus_IZR. apply IZR_le.
      assert (2 ^ d <= 2 ^ 53)%Z by (apply Z.pow_le_mono_r; lia). lia. }
    destruct (Z.lt_trichotomy ef e) as [L|[L|L]].
    + exfalso. set (K := pow2 (e - ef)).
      assert (pow2 e = K * pow2 ef) as Ee.
      { unfold K. rewrite <- pow2_add. f_equal. lia. }
      assert (2 <= K) as HK.
      { unfold K. rewrite <- E1. apply pow2_le. lia. }
      assert (pow2 52 * 2 <= (IZR (Zpos m) - 1) * K) as P
        by (apply Rmult_le_compat; lra).
      rewrite Ee in H. destruct H as [_ H].
      assert (0 < pow2 ef * (IZR (Zpos mf) - (IZR (Zpos m) - 1) * K)) as Q by lra.
      assert (IZR (Zpos mf) - (IZR (Zpos m) - 1) * K <= 0 - 1) as Q' by lra.
      nra.
    + subst ef. f_equal.
      assert (-1 < IZR (Zpos mf) - IZR (Zpos m) < 1) as B by (split; nra).
      rewrite <- minus_IZR in B. destruct B as [B1 B2].
      apply lt_IZR in B1, B2. lia.
    + exfalso.
      assert (d = 53)%Z as Dd by lia. rewrite Dd in Dg.
      change (53 - 1)%Z with 52%Z in Dg.
      assert (pow2 52 <= IZR (Zpos mf)) as F1.
      { rewrite <- pow2_IZR by lia. apply IZR_le. lia. }
      assert (2 * pow2 e <= pow2 ef) as P.
      { rewrite <- E1, <- pow2_add. apply pow2_le. lia. }
      assert (pow2 52 * (2 * pow2 e) <= IZR (Zpos mf) * pow2 ef) as P1
        by (apply Rmult_le_compat; lra).
      assert ((IZR (Zpos m) + 1) * pow2 e <= 2 * pow2 52 * pow2 e) as P2
        by (apply Rmult_le_compat_r; lra).
      lra.
Qed.

(** Hence a real within a quarter of that unit of such a number has it as
    its only nearest binary64 number. *)
Lemma nearest_normal (c : float) (m : positive) (e : Z) (v : R) :
  Prim2SF c = S754_finite false m e ->
  (2 ^ 52 < Zpos m < 2 ^ 53)%Z -> (-1074 <= e)%Z ->
  Rabs (v - IZR (Zpos m) * pow2 e) <= pow2 (e - 2) ->
  nearest v c /\ forall f : float, nearest v f -> f = c.
Proof.
  intros Ec Hm He Hv.
  assert (fval c = IZR (Zpos m) * pow2 e) as Vc by (unfold fval; rewrite Ec; reflexivity).
  assert (finite64 c = true) as Fc by (unfold finite64; rewrite Ec; reflexivity).
  pose proof (pow2_pos (e - 2)) as P2.
  assert (pow2 e = 4 * pow2 (e - 2)) as E4.
  { replace e with (2 + (e - 2))%Z at 1 by lia. rewrite pow2_add. f_equal.
    change 2%Z with (Z.of_nat 2). rewrite pow2_nat. ring. }
  rewrite <- Vc in Hv. apply Rabs_le_bounds in Hv.
  split; [split; [exact Fc|]|].
  - intros g Fg.
    destruct (Rlt_le_dec (Rabs (fval g - fval c)) (pow2 e)) as [C|C].
    + rewrite Vc in C. pose proof (near_normal g m e Hm He Fg C) as Eg.
      rewrite <- Ec in Eg. apply Prim2SF_inj in Eg. rewrite Eg. lra.
    + assert (Rabs (fval c - v) <= pow2 (e - 2)) as A1 by (apply Rabs_le; lra).
      pose proof (Rabs_triang (fval g - v) (v - fval c)) as T.
      replace (fval g - v + (v - fval c)) with (fval g - fval c) in T by ring.
      rewrite (Rabs_minus_sym v (fval c)) in T. lra.
  - intros f (Ff & N). specialize (N c Fc).
    assert (Rabs (fval c - v) <= pow2 (e - 2)) as A1 by (apply Rabs_le; lra).
    assert (Rabs (fval f - v) <= pow2 (e - 2)) as A2 by lra.
    apply Rabs_le_bounds in A1, A2.
    assert (Rabs (fval f - IZR (Zpos m) * pow2 e) < pow2 e) as C.
    { rewrite <- Vc. apply Rabs_def1; lra. }
    pose proof (near_normal f m e Hm He Ff C) as Ef.
    rewrite <- Ec in Ef. exact (Prim2SF_inj _ _ Ef).
Qed.

(** [math.radians(90)] lies just below pi / 2, so that its sine is 1 to
    better than 2^-100. *)
Lemma sin_radians_90 :
  1 - / 2 ^ 100 <= sin (fval (radians (float_of_int 90))) <= 1.
Proof.
  unfold fval.
  change (Prim2SF (radians (float_of_int 90)))
    with (S754_finite false 7074237752028440 (-52)).
  cbn [SFval]. replace (pow2 (-52)) with (/ 2 ^ 52) by (symmetry; exact (pow2_neg_nat 52)).
  set (a := 7074237752028440 * / 2 ^ 52).
  pose proof PI_digits as [Plo Phi].
  split; [|apply SIN_bound].
  rewrite <- cos_shift.
  assert (0 <= PI / 2 - a <= / 2 ^ 53) as D by (unfold a; lra).
  pose proof (pre_cos_bound (PI / 2 - a) 0 ltac:(lra) ltac:(lra)) as [B _].
  unfold cos_approx, cos_term in B. simpl in B.
  set (x := PI / 2 - a) in *.
  assert (x * x <= / 2 ^ 53 * / 2 ^ 53) by (apply Rmult_le_compat; lra).
  assert (/ 2 ^ 53 * / 2 ^ 53 <= / 2 ^ 100) as Q.
  { rewrite <- Rinv_mult. apply Rinv_le_contravar; lra. }
  lra.
Qed.

(** A nearest binary64 of that sine is 1. *)
Lemma nearest_sin_90 (f : float) :
  nearest (sin (fval (radians (float_of_int 90)))) f -> f = 1%float.
Proof.
  intros (F & N). apply (near_one _ F).
  specialize (N 1%float eq_refl).
  pose proof sin_radians_90 as B.
  assert (fval 1 = 1) as V1.
  { unfold fval. change (Prim2SF 1) with (S754_finite false 4503599627370496 (-52)).
    cbn [SFval]. replace (pow2 (-52)) with (/ 2 ^ 52)
      by (symmetry; exact (pow2_neg_nat 52)). lra. }
  rewrite V1 in N.
  set (v := sin (fval (radians (float_of_int 90)))) in *.
  assert (Rabs (1 - v) <= / 2 ^ 100) as N1 by (apply Rabs_le; lra).
  assert (Rabs (fval f - v) <= / 2 ^ 100) as N2 by lra.
  assert (/ 2 ^ 100 + / 2 ^ 100 < / 2 ^ 53) as Q.
  { assert (/ 2 ^ 100 = / 2 ^ 53 * / 2 ^ 47) as ->
      by (rewrite <- Rinv_mult; f_equal; ring).
    assert (0 < / 2 ^ 53) by (apply Rinv_0_lt_compat; lra).
    assert (/ 2 ^ 47 <= / 4) by (apply Rinv_le_contravar; lra). nra. }
  apply Rabs_le_bounds in N1, N2. apply Rabs_def1; lra.
Qed.

(** And 1 is a nearest binary64 number to that sine. *)
Lemma one_nearest_sin_90 : nearest (sin (fval (radians (float_of_int 90)))) 1%float.
Proof.
  split; [reflexivity|]. intros g Fg.
  pose proof sin_radians_90 as B.
  assert (fval 1 = 1) as V1.
  { unfold fval. change (Prim2SF 1) with (S754_finite false 4503599627370496 (-52)).
    cbn [SFval]. replace (pow2 (-52)) with (/ 2 ^ 52)
      by (symmetry; exact (pow2_neg_nat 52)). lra. }
  rewrite V1.
  set (v := sin (fval (radians (float_of_int 90)))) in *.
  destruct (Rlt_le_dec (Rabs (fval g - 1)) (/ 2 ^ 53)) as [C|C].
  - rewrite (near_one g Fg C), V1. lra.
  - assert (/ 2 ^ 100 + / 2 ^ 100 < / 2 ^ 53) as Q.
    { assert (/ 2 ^ 100 = / 2 ^ 53 * / 2 ^ 47) as ->
        by (rewrite <- Rinv_mult; f_equal; ring).
      assert (0 < / 2 ^ 53) by (apply Rinv_0_lt_compat; lra).
      assert (/ 2 ^ 47 <= / 4) by (apply Rinv_le_contravar; lra). nra. }
    assert (Rabs (1 - v) <= / 2 ^ 100) as N1 by (apply Rabs_le; lra).
    pose proof (Rabs_triang (fval g - v) (v - 1)) as T.
    replace (fval g - v + (v - 1)) with (fval g - 1) in T by ring.
    rewrite (Rabs_minus_sym v 1) in T. lra.
Qed.

(** Thirty-three decimals of pi. *)
Lemma PI_more_digits :
  3.141592653589793238462643383279502 <= PI <= 3.141592653589793238462643383279503.
Proof.
  pose proof (PI_2_3_7_ineq 17) as [L U].
  unfold sum_f_R0, tg_alt, PI_2_3_7_tg, Ratan_seq in L, U.
  simpl in L, U.
  split; lra.
Qed.

(** [math.radians(90)] lies 6.1e-17 below pi / 2; its cosine is within a
    quarter of a unit in the last place of the binary64 number
    6.123233995736766e-17. *)
Lemma cos_radians_90 :
  Rabs (cos (fval (radians (float_of_int 90))) - 4967757600021511 * pow2 (-106))
    <= pow2 (-106 - 2).
Proof.
  unfold fval.
  change (Prim2SF (radians (float_of_int 90)))
    with (S754_finite false 7074237752028440 (-52)).
  cbn [SFval]. replace (pow2 (-52)) with (/ 2 ^ 52) by (symmetry; exact (pow2_neg_nat 52)).
  replace (pow2 (-106)) with (/ 2 ^ 106) by (symmetry; exact (pow2_neg_nat 106)).
  replace (pow2 (-106 - 2)) with (/ 2 ^ 108) by (symmetry; exact (pow2_neg_nat 108)).
  set (a := 7074237752028440 * / 2 ^ 52).
  pose proof PI_more_digits as [Plo Phi].
  rewrite <- sin_shift.
  assert (0 < PI / 2 - a <= / 2 ^ 53) as D by (unfold a; lra).
  pose proof (pre_sin_bound (PI / 2 - a) 0 ltac:(lra) ltac:(lra)) as [B _].
  pose proof (sin_lt_x (PI / 2 - a) ltac:(lra)) as B'.
  unfold sin_approx, sin_term in B. simpl in B.
  set (x := PI / 2 - a) in *.
  assert (0 < / 2 ^ 53) as U by (apply Rinv_0_lt_compat; lra).
  assert (x * x <= / 2 ^ 53 * / 2 ^ 53) as X2 by (apply Rmult_le_compat; lra).
  assert (x * (x * x) <= / 2 ^ 53 * (/ 2 ^ 53 * / 2 ^ 53)) as X3
    by (apply Rmult_le_compat; nra).
  assert (/ 2 ^ 53 * (/ 2 ^ 53 * / 2 ^ 53) <= / 2 ^ 150) as Q.
  { rewrite <- !Rinv_mult. apply Rinv_le_contravar; lra. }
  assert (x - / 2 ^ 150 <= sin x) as B'' by lra.
  apply Rabs_le. unfold x, a in *. clear X2 X3 B. lra.
Qed.

(** So a nearest binary64 number to that cosine is 6.123233995736766e-17,
    and no other. *)
Lemma cos_90_nearest :
  nearest (cos (fval (radians (float_of_int 90)))) 6.123233995736766e-17%float /\
  forall f : float, nearest (cos (fval (radians (float_of_int 90)))) f ->
    f = 6.123233995736766e-17%float.
Proof.
  apply (nearest_normal _ 4967757600021511 (-106)).
  - reflexivity.
  - lia.
  - lia.
  - exact cos_radians_90.
Qed.

End One.

(** C6. For a C library that is exact at zero and accurate to 2^-53, each
    curve has exactly 360 points; the point of index t (an integer number of
    degrees, 0 <= t < 360) is (cos t°, sin t°, 0) on the reference curve and
    (1.5 cos t°, 0.7 sin t°, 0) on the impactor curve, each coordinate being
    the finite binary64 number that the library and one multiplication
    return, within 2^-49 of the exact value.  At t = 0 the points are
    exactly (1, 0, 0) and (1.5, 0, 0); at t = 90 they are (x, y, 0) with x
    within 2^-49 of 0 and y within 2^-49 of 1 and of 0.7.  When the library
    rounds to nearest there, x is exactly 6.123233995736766e-17 on the
    reference curve and 9.184850993605148e-17 on the impactor curve (the
    angle [math.radians(90)] is not pi / 2), and y is exactly 1 and 0.7.
    Every z is the integer 0. *)
Theorem sampleOrbits_points (L : libm) :
  libm_spec L ->
  length (earth_points (sampleOrbits L)) = 360%nat /\
  length (asteroid_points (sampleOrbits L)) = 360%nat /\
  (forall t : nat, (t < 360)%nat ->
     exists x y x' y' : float,
       nth_error (earth_points (sampleOrbits L)) t = Some (x, y, 0%Z) /\
       nth_error (asteroid_points (sampleOrbits L)) t = Some (x', y', 0%Z) /\
       x = cos64 L (radians (float_of_int (Z.of_nat t))) /\
       y = sin64 L (radians (float_of_int (Z.of_nat t))) /\
       x' = (1.5 * x)%float /\ y' = (0.7 * y)%float /\
       close_to (/ 2 ^ 49) x (cos (degrees (Z.of_nat t))) /\
       close_to (/ 2 ^ 49) y (sin (degrees (Z.of_nat t))) /\
       close_to (/ 2 ^ 49) x' (1.5 * cos (degrees (Z.of_nat t))) /\
       close_to (/ 2 ^ 49) y' (0.7 * sin (degrees (Z.of_nat t)))) /\
  nth_error (earth_points (sampleOrbits L)) 0 = Some (1%float, 0%float, 0%Z) /\
  nth_error (asteroid_points (sampleOrbits L)) 0 = Some (1.5%float, 0%float, 0%Z) /\
  (exists x y x' y' : float,
     nth_error (earth_points (sampleOrbits L)) 90 = Some (x, y, 0%Z) /\
     nth_error (asteroid_points (sampleOrbits L)) 90 = Some (x', y', 0%Z) /\
     close_to (/ 2 ^ 49) x 0 /\ close_to (/ 2 ^ 49) y 1 /\
     close_to (/ 2 ^ 49) x' 0 /\ close_to (/ 2 ^ 49) y' 0.7 /\
     (nearest (cos (fval (radians (float_of_int 90)))) x ->
      x = 6.123233995736766e-17%float /\ x' = 9.184850993605148e-17%float) /\
     (nearest (sin (fval (radians (float_of_int 90)))) y ->
      y = 1%float /\ y' = 0.7%float)) /\
  Forall (fun p => snd p = 0%Z)
    (earth_points (sampleOrbits L) ++ asteroid_points (sampleOrbits L)).
Proof.
  intros HL.
  assert (Le : length (earth_points (sampleOrbits L)) = 360%nat) by apply length_points.
  assert (La : length (asteroid_points (sampleOrbits L)) = 360%nat) by apply length_points.
  split; [exact Le|]. split; [exact La|].
  assert (forall t : nat, (t < 360)%nat ->
     exists x y x' y' : float,
       nth_error (earth_points (sampleOrbits L)) t = Some (x, y, 0%Z) /\
       nth_error (asteroid_points (sampleOrbits L)) t = Some (x', y', 0%Z) /\
       x = cos64 L (radians (float_of_int (Z.of_nat t))) /\
       y = sin64 L (radians (float_of_int (Z.of_nat t))) /\
       x' = (1.5 * x)%float /\ y' = (0.7 * y)%float /\
       close_to (/ 2 ^ 49) x (cos (degrees (Z.of_nat t))) /\
       close_to (/ 2 ^ 49) y (sin (degrees (Z.of_nat t))) /\
       close_to (/ 2 ^ 49) x' (1.5 * cos (degrees (Z.of_nat t))) /\
       close_to (/ 2 ^ 49) y' (0.7 * sin (degrees (Z.of_nat t)))) as Hall.
  { intros t Ht.
    destruct (sample_near L HL (Z.of_nat t) ltac:(lia)) as (E1 & E2 & E3 & E4).
    exists (cos_deg L (Z.of_nat t)), (sin_deg L (Z.of_nat t)),
      (1.5 * cos_deg L (Z.of_nat t))%float, (0.7 * sin_deg L (Z.of_nat t))%float.
    split; [exact (nth_error_earth L t Ht)|].
    split; [exact (nth_error_asteroid L t Ht)|].
    repeat split; try reflexivity; try apply E1; try apply E2; try apply E3; apply E4. }
  split; [exact Hall|].
  destruct HL as (C0 & S0 & Hc & Hs).
  assert (radians (float_of_int 0) = 0%float) as R0 by reflexivity.
  split; [|split; [|split]].
  - rewrite (nth_error_earth L 0) by lia. unfold cos_deg, sin_deg.
    change (Z.of_nat 0) with 0%Z. rewrite R0, C0, S0. reflexivity.
  - rewrite (nth_error_asteroid L 0) by lia. unfold cos_deg, sin_deg.
    change (Z.of_nat 0) with 0%Z. rewrite R0, C0, S0. reflexivity.
  - destruct (Hall 90%nat ltac:(lia))
      as (x & y & x' & y' & P1 & P2 & -> & -> & -> & -> & E1 & E2 & E3 & E4).
    change (Z.of_nat 90) with 90%Z in *.
    assert (degrees 90 = (PI / 2)%R) as D90 by (unfold degrees; lra).
    rewrite D90, cos_PI2, sin_PI2 in *.
    rewrite Rmult_0_r in E3. rewrite Rmult_1_r in E4.
    eexists _, _, _, _. split; [exact P1|]. split; [exact P2|].
    split; [exact E1|]. split; [exact E2|]. split; [exact E3|]. split; [exact E4|].
    split; intros H; split.
    + exact (proj2 cos_90_nearest _ H).
    + rewrite (proj2 cos_90_nearest _ H). reflexivity.
    + exact (nearest_sin_90 _ H).
    + rewrite (nearest_sin_90 _ H). reflexivity.
  - apply Forall_app. split; apply Forall_forall; intros p Hp;
      apply In_nth_error in Hp as [t Ht].
    + assert (t < 360)%nat as Hlt
        by (rewrite <- Le; apply nth_error_Some; congruence).
      rewrite (nth_error_earth L t Hlt) in Ht. injection Ht as <-. reflexivity.
    + assert (t < 360)%nat as Hlt
        by (rewrite <- La; apply nth_error_Some; congruence).
      rewrite (nth_error_asteroid L t Hlt) in Ht. injection Ht as <-. reflexivity.
Qed.

End OrbitFacts.

Lemma Prim2SF_SF2Prim_signed (s : bool) (m : positive) (e : Z) :
  2 ^ 52 <= Zpos m < 2 ^ 53 -> -1074 <= e <= 971 ->
  Prim2SF (SF2Prim (S754_finite s m e)) = S754_finite s m e.
Proof.
  intros Hm He. apply Prim2SF_SF2Prim.
  unfold SpecFloat.valid_binary, SpecFloat.bounded, SpecFloat.canonical_mantissa.
  pose proof (Zdigits2_unique (Zpos m) 53 ltac:(lia)
                ltac:(change (53 - 1) with 52; lia)) as Hd.
  cbn [Zdigits2] in Hd. rewrite Hd, fexp_normal by lia.
  apply andb_true_iff. split; [apply Z.eqb_eq; lia|].
  apply Z.leb_le. unfold emax, prec. lia.
Qed.

Section Grid.
Local Open Scope R_scope.

(** Every multiple of 2^-53 between -1 and 1 is a binary64 number. *)
Lemma grid_float (k : Z) :
  (- 2 ^ 53 <= k <= 2 ^ 53)%Z ->
  exists f : float, finite64 f = true /\ fval f = IZR k * pow2 (-53).
Proof.
  intros Hk.
  destruct (Z.eq_dec k 0) as [->|Hne].
  { exists 0%float. split; [reflexivity|]. unfold fval. cbn. lra. }
  set (a := Z.abs k). set (s := (k <? 0)%Z).
  assert (0 < a <= 2 ^ 53)%Z as Ha by (subst a; lia).
  assert (IZR k = if s then - IZR a else IZR a) as Ek.
  { subst s a. destruct (Z.ltb_spec k 0) as [L|L].
    - rewrite <- opp_IZR. f_equal. lia.
    - f_equal. lia. }
  destruct (Z.eq_dec a (2 ^ 53)) as [E|E].
  - exists (SF2Prim (S754_finite s 4503599627370496 (-52))).
    unfold finite64, fval. rewrite Prim2SF_SF2Prim_signed by lia.
    split; [reflexivity|]. cbn [SFval]. rewrite Ek, E.
    change (-52)%Z with (1 + -53)%Z. rewrite pow2_add.
    assert (pow2 1 = 2) as -> by exact (powerRZ_1 2).
    change (2 ^ 53)%Z with (2 * 4503599627370496)%Z. rewrite mult_IZR.
    destruct s; ring.
  - pose proof (Zdigits2_bounds a ltac:(lia)) as Hd.
    pose proof (Zdigits2_pos a ltac:(lia)) as Hdp.
    set (d := Zdigits2 a) in *.
    assert (d <= 53)%Z as Hd53.
    { destruct (Z_lt_le_dec 53 d) as [L|L]; [|exact L].
      assert (2 ^ 53 <= 2 ^ (d - 1))%Z by (apply Z.pow_le_mono_r; lia). lia. }
    set (m := (a * 2 ^ (53 - d))%Z).
    assert (0 < 2 ^ (53 - d))%Z as Pp by (apply Z.pow_pos_nonneg; lia).
    assert (2 ^ 52 <= m < 2 ^ 53)%Z as Hm.
    { subst m.
      replace (2 ^ 52)%Z with (2 ^ (d - 1) * 2 ^ (53 - d))%Z
        by (rewrite <- Z.pow_add_r by lia; f_equal; lia).
      replace (2 ^ 53)%Z with (2 ^ d * 2 ^ (53 - d))%Z
        by (rewrite <- Z.pow_add_r by lia; f_equal; lia).
      split; nia. }
    exists (SF2Prim (S754_finite s (Z.to_pos m) (d - 106))).
    unfold finite64, fval. rewrite Prim2SF_SF2Prim_signed by (rewrite ?Z2Pos.id; lia).
    split; [reflexivity|]. cbn [SFval]. rewrite Z2Pos.id by lia.
    rewrite Ek. subst m. rewrite mult_IZR, pow2_IZR by lia.
    replace (-53)%Z with ((53 - d) + (d - 106))%Z by lia.
    rewrite (pow2_add (53 - d) (d - 106)).
    destruct s; ring.
Qed.

(** Hence every real between -1 and 1 has a binary64 number within 2^-53. *)
Lemma accurate_exists (v : R) :
  -1 <= v <= 1 ->
  exists f : float, finite64 f = true /\ Rabs (fval f - v) <= / 2 ^ 53.
Proof.
  intros Hv.
  remember (v * 2 ^ 53) as r eqn:Er.
  destruct (archimed r) as [A1 A2].
  set (k := (up r - 1)%Z).
  assert (IZR k <= r < IZR k + 1) as Bk by (subst k; rewrite minus_IZR; lra).
  assert (- 2 ^ 53 <= r <= 2 ^ 53) as Br by (rewrite Er; lra).
  assert (- 2 ^ 53 <= k <= 2 ^ 53)%Z as Hk.
  { split.
    - assert (IZR (- 2 ^ 53 - 1) < IZR k) as Q; [|apply lt_IZR in Q; lia].
      rewrite minus_IZR, opp_IZR.
      replace (IZR (2 ^ 53)) with (2 ^ 53) by (rewrite pow_IZR; reflexivity). lra.
    - apply le_IZR.
      replace (IZR (2 ^ 53)) with (2 ^ 53) by (rewrite pow_IZR; reflexivity). lra. }
  destruct (grid_float k Hk) as (f & Ff & Vf).
  exists f. split; [exact Ff|]. rewrite Vf.
  replace (pow2 (-53)) with (/ 2 ^ 53) by (symmetry; exact (pow2_neg_nat 53)).
  assert (0 < / 2 ^ 53) as U by (apply Rinv_0_lt_compat; lra).
  assert (v = r * / 2 ^ 53) as Ev by (rewrite Er; field).
  clear Er Hv. rewrite Ev.
  replace (IZR k * / 2 ^ 53 - r * / 2 ^ 53) with (- ((r - IZR k) * / 2 ^ 53)) by ring.
  rewrite Rabs_Ropp, Rabs_pos_eq by nra. nra.
Qed.

Lemma well_rounded_exists (v : R) :
  -1 <= v <= 1 -> exists f : float, well_rounded v f.
Proof.
  intros H. destruct (accurate_exists v H) as (f0 & F0 & A0).
  destruct (classic (exists g : float, nearest v g)) as [(g & Ng)|No].
  - exists g. split; [exact (proj1 Ng)|]. split; [|intros _; exact Ng].
    pose proof (proj2 Ng f0 F0). lra.
  - exists f0. split; [exact F0|]. split; [exact A0|]. intros E. contradiction.
Qed.

Lemma some_accurate_spec (F : R -> R) (x : float) :
  -1 <= F (fval x) <= 1 -> well_rounded (F (fval x)) (some_accurate F x).
Proof.
  intros H. unfold some_accurate. apply epsilon_spec.
  exact (well_rounded_exists _ H).
Qed.

Lemma is_zero64_fval (x : float) : is_zero64 x = true -> fval x = 0.
Proof.
  unfold is_zero64, fval. destruct (Prim2SF x); try discriminate. reflexivity.
Qed.

(** The assumptions made of the C library can be met. *)
Lemma model_libm_spec : libm_spec model_libm.
Proof.
  assert (0 < / 2 ^ 53) as U by (apply Rinv_0_lt_compat; lra).
  split; [reflexivity|]. split; [reflexivity|]. split.
  - intros x Fx _. cbn [Orbit.cos64 model_libm].
    destruct (is_zero64 x) eqn:Z.
    + split; [reflexivity|]. rewrite (is_zero64_fval x Z), cos_0.
      replace (fval 1) with 1.
      * rewrite Rminus_diag, Rabs_R0. lra.
      * unfold fval. change (Prim2SF 1) with (S754_finite false 4503599627370496 (-52)).
        cbn [SFval]. replace (pow2 (-52)) with (/ 2 ^ 52)
          by (symmetry; exact (pow2_neg_nat 52)). lra.
    + destruct (some_accurate_spec cos x (COS_bound _)) as (A & B & _).
      split; assumption.
  - intros x Fx _. cbn [Orbit.sin64 model_libm].
    destruct (is_zero64 x) eqn:Z.
    + split; [exact Fx|]. rewrite (is_zero64_fval x Z), sin_0.
      rewrite Rminus_diag, Rabs_R0. lra.
    + destruct (some_accurate_spec sin x (SIN_bound _)) as (A & B & _).
      split; assumption.
Qed.

End Grid.

(** It rounds to nearest wherever a nearest binary64 number exists, as at
    90 degrees. *)
Lemma model_libm_nearest (x : float) :
  is_zero64 x = false ->
  ((exists g : float, nearest (cos (fval x)) g) ->
   nearest (cos (fval x)) (Orbit.cos64 model_libm x)) /\
  ((exists g : float, nearest (sin (fval x)) g) ->
   nearest (sin (fval x)) (Orbit.sin64 model_libm x)).
Proof.
  intros Z. cbn [Orbit.cos64 Orbit.sin64 model_libm]. rewrite Z. split.
  - exact (proj2 (proj2 (some_accurate_spec cos x (COS_bound _)))).
  - exact (proj2 (proj2 (some_accurate_spec sin x (SIN_bound _)))).
Qed.

Lemma sampleOrbits_points_witness :
  libm_spec model_libm /\
  nth_error (Orbit.earth_points (Orbit.sampleOrbits model_libm)) 0
    = Some (1%float, 0%float, 0%Z) /\
  nth_error (Orbit.asteroid_points (Orbit.sampleOrbits model_libm)) 0
    = Some (1.5%float, 0%float, 0%Z) /\
  nth_error (Orbit.earth_points (Orbit.sampleOrbits model_libm)) 90
    = Some (6.123233995736766e-17%float, 1%float, 0%Z) /\
  nth_error (Orbit.asteroid_points (Orbit.sampleOrbits model_libm)) 90
    = Some (9.184850993605148e-17%float, 0.7%float, 0%Z).
Proof.
  split; [exact model_libm_spec|].
  pose proof (OrbitFacts.sampleOrbits_points model_libm model_libm_spec)
    as (_ & _ & Pt & P0 & Q0 &
        (x & y & x' & y' & P90 & Q90 & _ & _ & _ & _ & Ex & Ey) & _).
  split; [exact P0|]. split; [exact Q0|].
  destruct (Pt 90%nat ltac:(lia)) as (a & b & a' & b' & Pa & _ & Ea & Eb & _).
  change (Z.of_nat 90) with 90%Z in Ea, Eb.
  rewrite P90 in Pa. injection Pa as Ha Hb. subst a b.
  destruct (model_libm_nearest (Orbit.radians (float_of_int 90)) eq_refl) as (Nc & Ns).
  rewrite <- Ea in Nc. rewrite <- Eb in Ns.
  destruct (Ex (Nc (ex_intro _ _ (proj1 OrbitFacts.cos_90_nearest)))) as (X1 & X2).
  destruct (Ey (Ns (ex_intro _ _ OrbitFacts.one_nearest_sin_90))) as (Y1 & Y2).
  rewrite <- X1, <- Y1 at 1. rewrite <- X2, <- Y2. split; [exact P90|exact Q90].
Defined.

(** ** Further properties of the orbit figure *)

Module OrbitShape.
Import Orbit Figure OrbitFacts.

(** The samples of a curve are exactly its values at the 360 degrees. *)
Lemma In_points (f g : Z -> float) (p : float * float * Z) :
  In p (points (map f theta) (map g theta) orbit_z) <->
  exists t : nat, (t < 360)%nat /\ p = (f (Z.of_nat t), g (Z.of_nat t), 0%Z).
Proof.
  split.
  - intros Hp. apply In_nth_error in Hp as [t Ht].
    assert (t < 360)%nat as Hlt
      by (rewrite <- (length_points f g); apply nth_error_Some; congruence).
    exists t. split; [exact Hlt|].
    rewrite (nth_error_points f g t Hlt) in Ht. congruence.
  - intros (t & Hlt & ->). apply (nth_error_In _ t).
    exact (nth_error_points f g t Hlt).
Qed.

Section Shape.
Variable L : libm.
Hypothesis HL : libm_spec L.
Local Open Scope R_scope.

Lemma eps49 : 0 < / 2 ^ 49 /\ / 2 ^ 49 <= / 2 ^ 40 /\ 64 * / 2 ^ 49 = / 2 ^ 43
              /\ / 2 ^ 40 <= / 1000000000000.
Proof.
  split; [apply Rinv_0_lt_compat; lra|]. split; [apply Rinv_le_contravar; lra|].
  split; [field|apply Rinv_le_contravar; lra].
Qed.

(** Each sample is within 2^-43 of its conic. *)
Lemma near_conics (t : Z) :
  (0 <= t < 360)%Z ->
  Rabs (fval (cos_deg L t) ^ 2 + fval (sin_deg L t) ^ 2 - 1) <= / 2 ^ 43 /\
  Rabs ((fval (1.5 * cos_deg L t) / 1.5) ^ 2 + (fval (0.7 * sin_deg L t) / 0.7) ^ 2 - 1)
    <= / 2 ^ 43.
Proof.
  intros Ht.
  destruct (sample_near L HL t Ht) as ((_ & E1) & (_ & E2) & (_ & E3) & (_ & E4)).
  pose proof (sin2_cos2 (degrees t)) as I. unfold Rsqr in I.
  pose proof (COS_bound (degrees t)) as Bc. pose proof (SIN_bound (degrees t)) as Bs.
  destruct eps49 as (U0 & U1 & U2 & U3).
  set (C := cos (degrees t)) in *. set (S := sin (degrees t)) in *.
  set (e := / 2 ^ 49) in *. rewrite <- U2.
  apply Rabs_le_bounds in E1, E2, E3, E4.
  set (x := fval (cos_deg L t)) in *. set (y := fval (sin_deg L t)) in *.
  set (x' := fval (1.5 * cos_deg L t)) in *. set (y' := fval (0.7 * sin_deg L t)) in *.
  assert (forall u v U V : R, -1 <= U <= 1 -> -1 <= V <= 1 -> V * V + U * U = 1 ->
            - (2 * e) <= u - U <= 2 * e -> - (2 * e) <= v - V <= 2 * e ->
            Rabs (u ^ 2 + v ^ 2 - 1) <= 64 * e) as Main.
  { intros u v U V HU HV HI Hu Hv.
    replace (u ^ 2 + v ^ 2 - 1)
      with (2 * U * (u - U) + 2 * V * (v - V) + (u - U) * (u - U) + (v - V) * (v - V))
      by (simpl; nra).
    assert (e <= 1) by lra.
    apply Rabs_le. split; nra. }
  split.
  - apply (Main x y C S Bc Bs I); lra.
  - apply (Main (x' / 1.5) (y' / 0.7) C S Bc Bs I); lra.
Qed.

End Shape.

(** X5. For a C library accurate to 2^-53, every plotted sample of the
    reference curve has finite coordinates that lie within 2^-43 of the unit
    circle, and every sample of the impactor curve within 2^-43 of the
    ellipse of semi-axes 1.5 and 0.7, all in the plane z = 0 (the binary64
    coordinates are read at their real values). *)
Theorem samples_on_conics (L : libm) :
  libm_spec L ->
  Forall (fun p => finite_point p /\
                   (Rabs (fval (fst (fst p)) ^ 2 + fval (snd (fst p)) ^ 2 - 1)
                    <= / 2 ^ 43)%R /\ snd p = 0%Z)
    (earth_points (sampleOrbits L)) /\
  Forall (fun p => finite_point p /\
                   (Rabs ((fval (fst (fst p)) / 1.5) ^ 2 + (fval (snd (fst p)) / 0.7) ^ 2 - 1)
                    <= / 2 ^ 43)%R /\ snd p = 0%Z)
    (asteroid_points (sampleOrbits L)).
Proof.
  intros HL.
  split; apply Forall_forall; intros p Hp; apply In_points in Hp as (t & Ht & ->);
    destruct (sample_finite L HL (Z.of_nat t) ltac:(lia)) as (Fe & Fa);
    (split; [assumption|]); cbn [fst snd]; (split; [|reflexivity]).
  - exact (proj1 (near_conics L HL (Z.of_nat t) ltac:(lia))).
  - exact (proj2 (near_conics L HL (Z.of_nat t) ltac:(lia))).
Qed.

Lemma samples_on_conics_witness :
  libm_spec model_libm /\
  Forall (fun p => finite_point p /\
                   (Rabs (fval (fst (fst p)) ^ 2 + fval (snd (fst p)) ^ 2 - 1)
                    <= / 2 ^ 43)%R /\ snd p = 0%Z)
    (earth_points (sampleOrbits model_libm)).
Proof.
  split; [exact model_libm_spec|].
  exact (proj1 (samples_on_conics model_libm model_libm_spec)).
Defined.

Section Symmetry.
Variable L : libm.
Hypothesis HL : libm_spec L.
Local Open Scope R_scope.

Lemma degrees_half_turn (t : nat) :
  degrees (Z.of_nat (t + 180)) = degrees (Z.of_nat t) + PI.
Proof.
  unfold degrees. rewrite Nat2Z.inj_add, plus_IZR. change (Z.of_nat 180) with 180%Z.
  field.
Qed.

(** The samples taken 180 degrees apart are opposite, within 2^-48. *)
Lemma opposite_samples (t : nat) :
  (t < 180)%nat ->
  let u := Z.of_nat t in let v := Z.of_nat (t + 180) in
  Rabs (fval (cos_deg L u) + fval (cos_deg L v)) <= / 2 ^ 48 /\
  Rabs (fval (sin_deg L u) + fval (sin_deg L v)) <= / 2 ^ 48 /\
  Rabs (fval (1.5 * cos_deg L u) + fval (1.5 * cos_deg L v)) <= / 2 ^ 48 /\
  Rabs (fval (0.7 * sin_deg L u) + fval (0.7 * sin_deg L v)) <= / 2 ^ 48.
Proof.
  intros Ht u v.
  destruct (sample_near L HL u ltac:(subst u; lia))
    as ((_ & E1) & (_ & E2) & (_ & E3) & (_ & E4)).
  destruct (sample_near L HL v ltac:(subst v; lia))
    as ((_ & F1) & (_ & F2) & (_ & F3) & (_ & F4)).
  unfold v in F1, F2, F3, F4. rewrite degrees_half_turn, neg_cos, neg_sin in *.
  fold u in F1, F2, F3, F4. fold v in F1, F2, F3, F4.
  assert (/ 2 ^ 48 = 2 * / 2 ^ 49) as -> by field.
  apply Rabs_le_bounds in E1, E2, E3, E4, F1, F2, F3, F4.
  repeat split; apply Rabs_le; lra.
Qed.

End Symmetry.

(** X6. The figure holds three traces of 360, 360 and 1 points, the last
    being the marker at the integer origin.  For a C library accurate to
    2^-53 both plotted curves are centred on that marker: the sample taken
    180 degrees later is the opposite point, each coordinate being finite
    and opposite within 2^-48. *)
Theorem orbits_centred_on_marker (L : libm) :
  libm_spec L ->
  map (@length _) (orbit_fig L) = [360; 360; 1]%nat /\
  earth_marker = [(PyInt 0, PyInt 0, PyInt 0)] /\
  forall t : nat, (t < 180)%nat ->
    (exists p q : float * float * Z,
       nth_error (earth_points (sampleOrbits L)) t = Some p /\
       nth_error (earth_points (sampleOrbits L)) (t + 180) = Some q /\
       finite_point p /\ finite_point q /\
       (Rabs (fval (fst (fst p)) + fval (fst (fst q))) <= / 2 ^ 48)%R /\
       (Rabs (fval (snd (fst p)) + fval (snd (fst q))) <= / 2 ^ 48)%R) /\
    (exists p q : float * float * Z,
       nth_error (asteroid_points (sampleOrbits L)) t = Some p /\
       nth_error (asteroid_points (sampleOrbits L)) (t + 180) = Some q /\
       finite_point p /\ finite_point q /\
       (Rabs (fval (fst (fst p)) + fval (fst (fst q))) <= / 2 ^ 48)%R /\
       (Rabs (fval (snd (fst p)) + fval (snd (fst q))) <= / 2 ^ 48)%R).
Proof.
  intros HL. split; [|split; [reflexivity|]].
  - unfold orbit_fig, curve. cbn [map]. rewrite !length_map.
    cbn [sampleOrbits earth_points asteroid_points].
    unfold earth_orbit_x, earth_orbit_y, asteroid_orbit_x, asteroid_orbit_y.
    rewrite !length_points. reflexivity.
  - intros t Ht.
    destruct (opposite_samples L HL t Ht) as (E1 & E2 & E3 & E4).
    destruct (sample_finite L HL (Z.of_nat t) ltac:(lia)) as (Fe & Fa).
    destruct (sample_finite L HL (Z.of_nat (t + 180)) ltac:(lia)) as (Fe' & Fa').
    rewrite !(nth_error_earth L t), !(nth_error_asteroid L t) by lia.
    rewrite !(nth_error_earth L (t + 180)), !(nth_error_asteroid L (t + 180)) by lia.
    split; eexists _, _; (split; [reflexivity|]); (split; [reflexivity|]);
      cbn [fst snd]; repeat split; try assumption;
      try apply Fe; try apply Fa; try apply Fe'; apply Fa'.
Qed.

Lemma orbits_centred_on_marker_witness :
  libm_spec model_libm /\
  map (@length _) (orbit_fig model_libm) = [360; 360; 1]%nat.
Proof.
  split; [exact model_libm_spec|].
  exact (proj1 (orbits_centred_on_marker model_libm model_libm_spec)).
Defined.

Section Distinct.
Local Open Scope R_scope.

Lemma cos_one_degree : cos (PI / 180) <= 1 - / 10000.
Proof.
  pose proof PI_digits as [Plo Phi].
  set (a := PI / 180).
  assert (0.01745 <= a <= 0.01746) as Ba by (unfold a; lra).
  pose proof (pre_cos_bound a 0 ltac:(lra) ltac:(lra)) as [_ B].
  unfold cos_approx, cos_term in B. simpl in B.
  assert (0.01745 * 0.01745 <= a * a <= 0.01746 * 0.01746) as B2
    by (split; apply Rmult_le_compat; lra).
  assert (a * (a * (a * (a * 1))) <= (0.01746 * 0.01746) * (0.01746 * 0.01746)) as B4.
  { replace (a * (a * (a * (a * 1)))) with ((a * a) * (a * a)) by ring.
    apply Rmult_le_compat; nra. }
  lra.
Qed.

(** Two distinct whole numbers of degrees below 360 are at least one degree
    apart on the circle. *)
Lemma cos_apart (s t : Z) :
  (0 <= s < 360)%Z -> (0 <= t < 360)%Z -> s <> t ->
  cos (degrees s - degrees t) <= 1 - / 10000.
Proof.
  assert (forall n : Z, (1 <= n <= 359)%Z -> cos (IZR n * (PI / 180)) <= 1 - / 10000) as P.
  { intros n Hn. pose proof PI_RGT_0 as Ppos.
    assert (1 <= IZR n <= 359) as Bn by (split; apply IZR_le; lia).
    destruct (Z_le_gt_dec n 180) as [Q|Q].
    - assert (IZR n <= 180) by (apply IZR_le; lia).
      apply Rle_trans with (cos (PI / 180)); [|exact cos_one_degree].
      apply cos_decr_1; nra.
    - assert (181 <= IZR n) by (apply IZR_le; lia).
      replace (IZR n * (PI / 180)) with (- ((360 - IZR n) * (PI / 180)) + 2 * INR 1 * PI)
        by (simpl; field).
      rewrite cos_period, cos_neg.
      apply Rle_trans with (cos (PI / 180)); [|exact cos_one_degree].
      apply cos_decr_1; nra. }
  intros Hs Ht Hne. unfold degrees.
  destruct (Z_lt_le_dec s t) as [Q|Q].
  - replace (IZR s * (PI / 180) - IZR t * (PI / 180))
      with (- (IZR (t - s) * (PI / 180))) by (rewrite minus_IZR; ring).
    rewrite cos_neg. apply P. lia.
  - replace (IZR s * (PI / 180) - IZR t * (PI / 180))
      with (IZR (s - t) * (PI / 180)) by (rewrite minus_IZR; ring).
    apply P. lia.
Qed.

Lemma not_both_close (a b : R) :
  cos (a - b) <= 1 - / 10000 ->
  Rabs (cos a - cos b) <= / 2 ^ 40 -> Rabs (sin a - sin b) <= / 2 ^ 40 -> False.
Proof.
  intros H Hc Hs. rewrite cos_minus in H.
  pose proof (sin2_cos2 a) as Ia. pose proof (sin2_cos2 b) as Ib. unfold Rsqr in Ia, Ib.
  assert (/ 2 ^ 40 <= / 1000) as U by (apply Rinv_le_contravar; lra).
  assert (0 < / 2 ^ 40) as U0 by (apply Rinv_0_lt_compat; lra).
  apply Rabs_le_bounds in Hc, Hs.
  set (e := / 2 ^ 40) in *.
  assert ((cos a - cos b) * (cos a - cos b) <= e * e) by nra.
  assert ((sin a - sin b) * (sin a - sin b) <= e * e) by nra.
  assert (e * e <= / 1000000) by nra.
  nra.
Qed.

End Distinct.

Lemma NoDup_points (f g : Z -> float) :
  (forall s t : nat, (s < 360)%nat -> (t < 360)%nat ->
     f (Z.of_nat s) = f (Z.of_nat t) -> g (Z.of_nat s) = g (Z.of_nat t) -> s = t) ->
  NoDup (points (map f theta) (map g theta) orbit_z).
Proof.
  intros Hinj. apply NoDup_nth_error. intros i j Hi E.
  rewrite length_points in Hi.
  rewrite (nth_error_points f g i Hi) in E.
  assert (j < 360)%nat as Hj.
  { rewrite <- (length_points f g). apply nth_error_Some. rewrite <- E. discriminate. }
  rewrite (nth_error_points f g j Hj) in E.
  injection E as E1 E2. exact (Hinj i j Hi Hj E1 E2).
Qed.

(** X7. For a C library accurate to 2^-53 no point is plotted twice: the
    360 samples of each curve are pairwise distinct as pairs of binary64
    numbers, so that neither polyline returns to its first point and the
    drawn orbits stay open between 359 and 360 degrees. *)
Theorem samples_distinct (L : libm) :
  libm_spec L ->
  NoDup (earth_points (sampleOrbits L)) /\ NoDup (asteroid_points (sampleOrbits L)).
Proof.
  intros HL.
  assert (forall s t : nat, (s < 360)%nat -> (t < 360)%nat -> s <> t ->
            (Rabs (cos (degrees (Z.of_nat s)) - cos (degrees (Z.of_nat t))) <= / 2 ^ 40)%R ->
            (Rabs (sin (degrees (Z.of_nat s)) - sin (degrees (Z.of_nat t))) <= / 2 ^ 40)%R ->
            False) as Sep.
  { intros s t Hs Ht Hne. apply not_both_close. apply cos_apart; lia. }
  destruct eps49 as (U0 & U1 & U2 & U3).
  split; apply NoDup_points; intros s t Hs Ht Ex Ey;
    destruct (Nat.eq_dec s t) as [E|Hne]; try exact E; exfalso;
    apply (Sep s t Hs Ht Hne);
    destruct (sample_near L HL (Z.of_nat s) ltac:(lia))
      as ((_ & E1) & (_ & E2) & (_ & E3) & (_ & E4));
    destruct (sample_near L HL (Z.of_nat t) ltac:(lia))
      as ((_ & F1) & (_ & F2) & (_ & F3) & (_ & F4));
    rewrite Ex in *; rewrite Ey in *;
    apply Rabs_le_bounds in E1, E2, E3, E4, F1, F2, F3, F4;
    apply Rabs_le; lra.
Qed.

Lemma samples_distinct_witness :
  libm_spec model_libm /\ NoDup (earth_points (sampleOrbits model_libm)).
Proof.
  split; [exact model_libm_spec|].
  exact (proj1 (samples_distinct model_libm model_libm_spec)).
Defined.

End OrbitShape.
